(** * Hyperparameter-optimisation executors of ludwig: a verified model

    A shallow embedding of [ludwig/hyperopt/execution.py].  Python objects
    live in an explicit store, so that in-place updates, aliasing and deep
    copies are visible; exceptions are outcomes; floats are binary64 numbers. *)

From stdpp Require Import list strings sorting.
From Stdlib Require Import Ascii DecimalString ZArith QArith Qround Lia Lqa.
From Stdlib Require Import SpecFloat.
From Stdlib Require DecimalPos.

Local Close Scope Q_scope.
Local Open Scope string_scope.
Local Open Scope list_scope.

(** ** Python values and the object store *)

Module Py.

(** Addresses of mutable objects ([id(x)] of a dict or a list). *)
Definition addr := nat.

(** A value is an immutable scalar or a reference to a mutable object. *)
Inductive val : Type :=
| VNone
| VBool (b : bool)
| VInt (z : Z)
| VFloat (q : Q)
| VStr (s : string)
| VRef (a : addr).

(** Mutable objects.  A dict keeps its entries in insertion order, as
    Python's does.  The dicts of this model are keyed by strings: the keys of
    a configuration are strings, and so are those of the nested mapping of a
    sample, which are the components of dotted parameter paths.  A dict with
    keys of another type (Python allows any hashable value, and an integer
    key [i] makes [l[i] = v] an assignment to a list [l]) is outside the
    model; with a string key, item assignment to a list raises. *)
Inductive obj : Type :=
| ODict (items : list (string * val))
| OList (elems : list val).

Abbreviation heap := (list obj).

(** The exceptions the modelled code can raise.  [DanglingRef] is not a Python
    exception: it is the outcome of dereferencing an address the store does
    not hold, which no well-formed store allows. *)
Inductive exn : Type :=
| KeyError
| TypeError
| AttributeError
| RuntimeError
| RecursionError
| IndexError
| ValueError
| ZeroDivisionError
| OverflowError
| LookupError
| OtherError (kind : string)
| DanglingRef.

Inductive outcome (A : Type) : Type :=
| Ret (a : A)
| Raise (e : exn).
Arguments Ret {A} a.
Arguments Raise {A} e.

(** Computations over the store.  The store survives an exception: what was
    written before the raise stays written. *)
Definition M (A : Type) : Type := heap -> outcome A * heap.

Definition ret {A} (a : A) : M A := fun h => (Ret a, h).
Definition raise {A} (e : exn) : M A := fun h => (Raise e, h).
Definition bind {A B} (m : M A) (k : A -> M B) : M B :=
  fun h => match m h with
           | (Ret a, h') => k a h'
           | (Raise e, h') => (Raise e, h')
           end.

End Py.
Import Py.

Notation "x <- m ;; k" := (bind m (fun x => k))
  (at level 100, m at next level, right associativity).
Notation "m ;;; k" := (bind m (fun _ => k))
  (at level 100, right associativity).

(** *** Dict entries *)

Fixpoint dict_get {V} (k : string) (items : list (string * V)) : option V :=
  match items with
  | [] => None
  | (k', v) :: rest => if String.eqb k k' then Some v else dict_get k rest
  end.

(** [d[k] = v] on the entries: an existing key keeps its position, a new key
    goes last. *)
Fixpoint dict_set {V} (k : string) (v : V) (items : list (string * V))
  : list (string * V) :=
  match items with
  | [] => [(k, v)]
  | (k', v') :: rest =>
      if String.eqb k k' then (k, v) :: rest else (k', v') :: dict_set k v rest
  end.

(** *** Primitive store operations *)

Definition alloc (o : obj) : M addr := fun h => (Ret (length h), h ++ [o]).

Definition read (a : addr) : M obj :=
  fun h => match h !! a with
           | Some o => (Ret o, h)
           | None => (Raise DanglingRef, h)
           end.

Definition write (a : addr) (o : obj) : M unit :=
  fun h => (Ret tt, <[a := o]> h).

(** [c[k]] for a string key [k]. *)
Definition getitem (c : val) (k : string) : M val :=
  match c with
  | VRef a =>
      o <- read a ;;
      match o with
      | ODict items =>
          match dict_get k items with
          | Some v => ret v
          | None => raise KeyError
          end
      | OList _ => raise TypeError
      end
  | _ => raise TypeError
  end.

(** [c[k] = v] for a string key [k]. *)
Definition setitem (c : val) (k : string) (v : val) : M unit :=
  match c with
  | VRef a =>
      o <- read a ;;
      match o with
      | ODict items => write a (ODict (dict_set k v items))
      | OList _ => raise TypeError
      end
  | _ => raise TypeError
  end.

(** [isinstance(v, dict)]. *)
Definition isinstance_dict (v : val) : M bool :=
  match v with
  | VRef a =>
      o <- read a ;;
      match o with
      | ODict _ => ret true
      | OList _ => ret false
      end
  | _ => ret false
  end.

(** [name in d] for a dict [d]: a string is looked up, another scalar is no key
    of a string-keyed dict, a dict or list is unhashable.  The only [d] this
    module ever tests is the dict that [get_parameters_dict] returned; the
    element-wise membership of a list and the substring test of a string are
    left out of the model, which answers [TypeError] there as it does, with
    Python, on a value that is no container. *)
Definition contains (d : val) (name : val) : M bool :=
  match d with
  | VRef a =>
      o <- read a ;;
      match o with
      | ODict items =>
          match name with
          | VStr s => ret (bool_decide (is_Some (dict_get s items)))
          | VRef _ => raise TypeError
          | _ => ret false
          end
      | OList elems => raise TypeError
      end
  | _ => raise TypeError
  end.

(** [d[name]] where [name] is a value. *)
Definition getitem_val (d : val) (name : val) : M val :=
  match name with
  | VStr s => getitem d s
  | VRef _ => raise TypeError
  | _ =>
      match d with
      | VRef a =>
          o <- read a ;;
          match o with
          | ODict _ => raise KeyError
          | OList _ => raise TypeError
          end
      | _ => raise TypeError
      end
  end.

(** [for k, v in d.items(): body].  The iterator reads the live dict: before
    each step (the last, exhausting one included) it raises [RuntimeError] if
    the dict changed size since the loop started, otherwise it yields the
    entry at the current position with its current value. *)
Fixpoint dict_iter (rem i n0 : nat) (a : addr)
    (body : string -> val -> M unit) : M unit :=
  o <- read a ;;
  match o with
  | ODict items =>
      if Nat.eqb (length items) n0 then
        match rem, items !! i with
        | S rem', Some (k, v) =>
            body k v ;;; dict_iter rem' (S i) n0 a body
        | _, _ => ret tt
        end
      else raise RuntimeError
  | OList _ => raise TypeError
  end.

Definition for_items (d : val) (body : string -> val -> M unit) : M unit :=
  match d with
  | VRef a =>
      o <- read a ;;
      match o with
      | ODict items => dict_iter (length items) 0 (length items) a body
      | OList _ => raise AttributeError
      end
  | _ => raise AttributeError
  end.

(** A loop over an immutable sequence of values. *)
Fixpoint for_list {A} (l : list A) (body : A -> M unit) : M unit :=
  match l with
  | [] => ret tt
  | x :: rest => body x ;;; for_list rest body
  end.

(** The one-character strings of a string, what iterating a [str] yields. *)
Fixpoint chars (s : string) : list string :=
  match s with
  | EmptyString => []
  | String c rest => String c EmptyString :: chars rest
  end.

(** [for x in c: body].  A list yields its elements (the only list this
    module ever appends to is the one a deep copy is building, so the elements
    read at the start are the live ones), a dict its keys, a string its
    characters; anything else is not iterable. *)
Definition for_each (c : val) (body : val -> M unit) : M unit :=
  match c with
  | VRef a =>
      o <- read a ;;
      match o with
      | OList elems => for_list elems body
      | ODict _ => for_items c (fun k _ => body (VStr k))
      end
  | VStr s => for_list (chars s) (fun ch => body (VStr ch))
  | _ => raise TypeError
  end.

(** ** [str.split] on a one-character separator *)

Fixpoint str_split_aux (sep : Ascii.ascii) (cur : string) (s : string) : list string :=
  match s with
  | EmptyString => [String.rev cur]
  | String c rest =>
      if Ascii.eqb c sep then String.rev cur :: str_split_aux sep EmptyString rest
      else str_split_aux sep (String c cur) rest
  end.

Definition str_split (sep : Ascii.ascii) (s : string) : list string :=
  str_split_aux sep EmptyString s.

(** ** Parameter substitution *)

(** A hyperparameter sample: dotted path to value, in the dict's order.  The
    sample mapping itself is only read by the executors. *)
Definition sample := list (string * val).

(** [curr_dict.get(name_elem, {})]: the default dict is built before the
    call, used or not. *)
Definition get_or_new (curr : val) (k : string) : M val :=
  match curr with
  | VRef a =>
      o <- read a ;;
      match o with
      | ODict items =>
          fresh <- alloc (ODict []) ;;
          match dict_get k items with
          | Some v => ret v
          | None => ret (VRef fresh)
          end
      | OList _ => raise AttributeError
      end
  | _ => raise AttributeError
  end.

(** The inner loop of [get_parameters_dict]: the last path element receives
    the value, every earlier one descends into (or creates) a sub-dict. *)
Fixpoint assign_path (curr_dict : val) (name_list : list string) (value : val)
  : M unit :=
  match name_list with
  | [] => ret tt
  | [name_elem] => setitem curr_dict name_elem value
  | name_elem :: rest =>
      name_dict <- get_or_new curr_dict name_elem ;;
      setitem curr_dict name_elem name_dict ;;;
      assign_path name_dict rest value
  end.

Definition get_parameters_dict (parameters : sample) : M val :=
  parameters_dict <- alloc (ODict []) ;;
  for_list parameters
    (fun '(name, value) =>
       assign_path (VRef parameters_dict) (str_split "."%char name) value) ;;;
  ret (VRef parameters_dict).

Definition set_values (model_dict name parameters_dict : val) : M unit :=
  present <- contains parameters_dict name ;;
  if (present : bool) then
    params <- getitem_val parameters_dict name ;;
    for_items params (fun key value =>
      is_dict <- isinstance_dict value ;;
      if (is_dict : bool) then
        for_items value (fun sub_key sub_value =>
          target <- getitem model_dict key ;;
          setitem target sub_key sub_value)
      else setitem model_dict key value)
  else ret tt.

(** Modelled from the spec: the constant [NAME] of [ludwig.constants] is not
    among the sources; features are keyed by their feature name. *)
Definition NAME : string := "name".

Definition substitute_parameters (model_definition : val) (parameters : sample)
  : M val :=
  parameters_dict <- get_parameters_dict parameters ;;
  input_features <- getitem model_definition "input_features" ;;
  for_each input_features (fun input_feature =>
    name <- getitem input_feature NAME ;;
    set_values input_feature name parameters_dict) ;;;
  output_features <- getitem model_definition "output_features" ;;
  for_each output_features (fun output_feature =>
    name <- getitem output_feature NAME ;;
    set_values output_feature name parameters_dict) ;;;
  combiner <- getitem model_definition "combiner" ;;
  set_values combiner (VStr "combiner") parameters_dict ;;;
  training <- getitem model_definition "training" ;;
  set_values training (VStr "training") parameters_dict ;;;
  preprocessing <- getitem model_definition "preprocessing" ;;
  set_values preprocessing (VStr "preprocessing") parameters_dict ;;;
  ret model_definition.

(** ** [copy.deepcopy] *)

(** The memo of a deep copy: original address to the address of its copy. *)
Definition memo := list (addr * addr).

Fixpoint memo_get (a : addr) (m : memo) : option addr :=
  match m with
  | [] => None
  | (a', y) :: rest => if Nat.eqb a a' then Some y else memo_get a rest
  end.

(** [y.append(v)]. *)
Definition list_append (c : val) (v : val) : M unit :=
  match c with
  | VRef a =>
      o <- read a ;;
      match o with
      | OList elems => write a (OList (elems ++ [v]))
      | ODict _ => raise AttributeError
      end
  | _ => raise AttributeError
  end.

(** [copy.deepcopy(x, memo)]: scalars are shared; a dict or list met for the
    first time gets an empty copy, registered in the memo before its
    children are copied into it, so that aliasing and cycles are reproduced.
    [depth] bounds the nesting the interpreter accepts before it raises
    [RecursionError].  The original is only read, so its entries as read at
    the start of the loop are the live ones. *)
Fixpoint deepcopy (depth : nat) (x : val) (m : memo) : M (val * memo) :=
  match x with
  | VRef a =>
      match memo_get a m with
      | Some y => ret (VRef y, m)
      | None =>
          match depth with
          | O => raise RecursionError
          | S depth' =>
              o <- read a ;;
              match o with
              | ODict items =>
                  y <- alloc (ODict []) ;;
                  m' <- (fix copy_items (items : list (string * val)) (m : memo)
                           : M memo :=
                           match items with
                           | [] => ret m
                           | (k, v) :: rest =>
                               r <- deepcopy depth' v m ;;
                               setitem (VRef y) k (fst r) ;;;
                               copy_items rest (snd r)
                           end) items ((a, y) :: m) ;;
                  ret (VRef y, m')
              | OList elems =>
                  y <- alloc (OList []) ;;
                  m' <- (fix copy_elems (elems : list val) (m : memo)
                           : M memo :=
                           match elems with
                           | [] => ret m
                           | v :: rest =>
                               r <- deepcopy depth' v m ;;
                               list_append (VRef y) (fst r) ;;;
                               copy_elems rest (snd r)
                           end) elems ((a, y) :: m) ;;
                  ret (VRef y, m')
              end
          end
      end
  | _ => ret (x, m)
  end.

(** [copy.deepcopy(x)]. *)
Definition deepcopy_top (depth : nat) (x : val) : M val :=
  r <- deepcopy depth x [] ;; ret (fst r).

(** A small configuration: one input feature, one output feature and the three
    sections. *)
Definition example_heap : heap :=
  [ ODict [("input_features", VRef 1); ("output_features", VRef 3);
           ("combiner", VRef 5); ("training", VRef 6);
           ("preprocessing", VRef 7)];
    OList [VRef 2];
    ODict [("name", VStr "text"); ("encoder", VStr "rnn")];
    OList [VRef 4];
    ODict [("name", VStr "label"); ("loss", VRef 8)];
    ODict [("type", VStr "concat")];
    ODict [("learning_rate", VFloat (1 # 100)); ("batch_size", VInt 128)];
    ODict [];
    ODict [("weight", VInt 1)] ].

Definition example_sample : sample :=
  [("training.learning_rate", VFloat (1 # 1000));
   ("text.encoder", VStr "cnn");
   ("label.loss.weight", VInt 2)].

(** ** Numbers

    An [int] is an integer.  The decimals of a configuration (a learning
    rate, say) are kept as the rationals they denote: the module stores and
    copies them and computes nothing with them. *)

Definition Qltb (x y : Q) : bool := negb (Qle_bool y x).

(** Truncation toward zero. *)
Definition int_of_Q (q : Q) : Z := Z.quot (Qnum q) (Z.pos (Qden q)).

(** ** Floating-point numbers

    A Python [float] is an IEEE 754 binary64 number: [spec_float] of the
    Standard Library, with 53 bits of precision and exponents below 1024.
    Every operation rounds to nearest, ties to even. *)
Definition float : Type := spec_float.
Definition prec : Z := 53.
Definition emax : Z := 1024.

(** An integer as a binary number that is not rounded. *)
Definition exact (z : Z) : spec_float :=
  match z with
  | Z0 => S754_zero false
  | Zpos p => S754_finite false p 0
  | Zneg p => S754_finite true p 0
  end.

(** The float a decimal literal denotes, the nearest one to its value:
    [float_lit 0.01] is Python's [0.01]. *)
Definition float_lit (q : Q) : float :=
  SFdiv prec emax (exact (Qnum q)) (exact (Z.pos (Qden q))).

Definition is_nan (x : float) : bool :=
  match x with
  | S754_nan => true
  | _ => false
  end.

(** What a comparison sees of a number: its value, a rational or an
    infinity, unless it is not a number.  Python compares numbers, also an
    [int] with a [float], by their values. *)
Inductive number_value : Type :=
| NaN
| NegInf
| Fin (q : Q)
| PosInf.

Definition value_of_float (x : float) : number_value :=
  match x with
  | S754_zero _ => Fin 0
  | S754_infinity s => if s then NegInf else PosInf
  | S754_nan => NaN
  | S754_finite s m e =>
      let q := match e with
               | Z0 => inject_Z (Z.pos m)
               | Z.pos k => inject_Z (Z.pos (m * 2 ^ k))
               | Z.neg k => Qmake (Z.pos m) (2 ^ k)
               end in
      Fin (if s then (- q)%Q else q)
  end.

(** [x < y], [x <= y] and [x == y]: false when one of the two is not a
    number. *)
Definition value_lt (x y : number_value) : bool :=
  match x, y with
  | NaN, _ | _, NaN => false
  | _, NegInf => false
  | NegInf, _ => true
  | PosInf, _ => false
  | _, PosInf => true
  | Fin a, Fin b => Qltb a b
  end.

Definition value_le (x y : number_value) : bool :=
  match x, y with
  | NaN, _ | _, NaN => false
  | NegInf, _ => true
  | _, NegInf => false
  | _, PosInf => true
  | PosInf, _ => false
  | Fin a, Fin b => Qle_bool a b
  end.

Definition value_eq (x y : number_value) : bool :=
  match x, y with
  | NegInf, NegInf | PosInf, PosInf => true
  | Fin a, Fin b => Qeq_bool a b
  | _, _ => false
  end.

Definition float_lt (x y : float) : bool :=
  value_lt (value_of_float x) (value_of_float y).
Definition float_le (x y : float) : bool :=
  value_le (value_of_float x) (value_of_float y).
Definition float_eq (x y : float) : bool :=
  value_eq (value_of_float x) (value_of_float y).

(** A number: an [int] or a [float]. *)
Inductive num : Type :=
| Int (z : Z)
| Float (x : float).

Definition value (n : num) : number_value :=
  match n with
  | Int z => Fin (inject_Z z)
  | Float x => value_of_float x
  end.

Definition num_lt (x y : num) : bool := value_lt (value x) (value y).
Definition num_eq (x y : num) : bool := value_eq (value x) (value y).

(** [float(z)], the conversion an [int] operand of a float operation goes
    through: the nearest float, [OverflowError] beyond the largest one. *)
Definition float_of_int (z : Z) : outcome float :=
  match binary_normalize prec emax z 0 false with
  | S754_infinity _ => Raise OverflowError
  | x => Ret x
  end.

(** [x / y] of two integers: the quotient, correctly rounded. *)
Definition int_truediv (x y : Z) : outcome float :=
  if (y =? 0)%Z then Raise ZeroDivisionError
  else match SFdiv prec emax (exact x) (exact y) with
       | S754_infinity _ => Raise OverflowError
       | q => Ret q
       end.

(** [x / y] of two floats: a zero divisor raises; a quotient beyond the
    largest float is an infinity. *)
Definition float_truediv (x y : float) : outcome float :=
  match y with
  | S754_zero _ => Raise ZeroDivisionError
  | _ => Ret (SFdiv prec emax x y)
  end.

(** [x / y] of an [int] and a number. *)
Definition truediv (x : Z) (y : num) : outcome float :=
  match y with
  | Int z => int_truediv x z
  | Float f =>
      match float_of_int x with
      | Raise e => Raise e
      | Ret a => float_truediv a f
      end
  end.

(** [int(x)] of a float: its value truncated toward zero. *)
Definition int_of_float (x : float) : outcome Z :=
  match value_of_float x with
  | NaN => Raise ValueError
  | NegInf | PosInf => Raise OverflowError
  | Fin q => Ret (int_of_Q q)
  end.

(** ** The strings a GPU list is made of *)

(** The ASCII characters [str.isspace] accepts. *)
Definition is_space (c : Ascii.ascii) : bool :=
  let n := Ascii.nat_of_ascii c in
  ((9 <=? n) && (n <=? 13) || (28 <=? n) && (n <=? 32))%nat.

Fixpoint lstrip (s : string) : string :=
  match s with
  | String c rest => if is_space c then lstrip rest else s
  | EmptyString => EmptyString
  end.

(** [s.strip()]. *)
Definition strip (s : string) : string :=
  String.rev (lstrip (String.rev (lstrip s))).

Definition digit_of (c : Ascii.ascii) : option Z :=
  let n := Ascii.nat_of_ascii c in
  if ((48 <=? n) && (n <=? 57))%nat then Some (Z.of_nat n - 48)%Z else None.

(** The digits of a decimal literal, most significant first; single
    underscores may separate digits.  [prev] tells whether the previous
    character was a digit. *)
Fixpoint digits_value (acc : Z) (prev : bool) (s : string) : option Z :=
  match s with
  | EmptyString => if prev then Some acc else None
  | String c rest =>
      match digit_of c with
      | Some d => digits_value (10 * acc + d)%Z true rest
      | None =>
          if Ascii.eqb c "_"%char && prev then digits_value acc false rest
          else None
      end
  end.

(** [int(s)] of an ASCII string: surrounding blanks, an optional sign,
    decimal digits. *)
Definition int_of_string (s : string) : outcome Z :=
  let body := strip s in
  let '(neg, ds) :=
    match body with
    | String "-"%char rest => (true, rest)
    | String "+"%char rest => (false, rest)
    | _ => (false, body)
    end in
  match digits_value 0 false ds with
  | Some n => Ret (if (neg : bool) then (- n)%Z else n)
  | None => Raise ValueError
  end.

(** [l[i]] of a list for an integer index: a negative index counts from the
    end. *)
Definition list_index {A} (l : list A) (i : Z) : outcome A :=
  let n := Z.of_nat (length l) in
  let j := if (i <? 0)%Z then (i + n)%Z else i in
  if (j <? 0)%Z then Raise IndexError
  else match l !! Z.to_nat j with
       | Some x => Ret x
       | None => Raise IndexError
       end.

(** ** The GPU resource allocator of [ParallelExecutor.execute] *)

Record gpu_meta : Type := {
  meta_gpu_memory_limit : option num;
  meta_process_per_gpu : Z
}.

(** A slot of the shared queue: [{"gpu_id": ..., "gpu_memory_limit": ...}]. *)
Record slot : Type := {
  gpu_id : string;
  gpu_memory_limit : option num
}.

Record ParallelExecutor_attrs : Type := {
  num_workers : Z;
  epsilon : float
}.

Definition epsilon_memory : Z := 100.
Definition TF_REQUIRED_MEMORY_PER_WORKER : Z := 100.

(** The branch taken when an explicit [gpu_memory_limit] was given
    (the [else] of [if gpu_memory_limit is None]).  [available] is
    [available_gpu_memory] as the float the multiplications convert it to. *)
Definition explicit_limit (gpu_memory_limit : num) (available_gpu_memory : Z)
    (available required_gpu_memory : float) : num :=
  let new_gpu_memory_limit := gpu_memory_limit in
  let new_gpu_memory_limit :=
    if num_lt (Int available_gpu_memory) new_gpu_memory_limit
    then Int (available_gpu_memory - epsilon_memory)
    else new_gpu_memory_limit in
  if num_lt (Float required_gpu_memory) new_gpu_memory_limit then
    if float_lt (SFmul prec emax (float_lit 0.5) available)
         required_gpu_memory then
      if negb (num_eq (Int available_gpu_memory) new_gpu_memory_limit)
      then Int (available_gpu_memory - epsilon_memory)
      else new_gpu_memory_limit
    else Float required_gpu_memory
  else new_gpu_memory_limit.

(** The body of [for gpu_id in gpu_ids] in the over-subscribed case. *)
Definition oversubscribed_meta (self : ParallelExecutor_attrs)
    (fraction : float) (gpu_memory_limit : option num)
    (available_gpu_memory_list : list Z) (gpu_id : string)
  : outcome gpu_meta :=
  match int_of_string gpu_id with
  | Raise e => Raise e
  | Ret idx =>
      match list_index available_gpu_memory_list idx with
      | Raise e => Raise e
      | Ret available_gpu_memory =>
          match float_of_int available_gpu_memory with
          | Raise e => Raise e
          | Ret available =>
              let required_gpu_memory := SFmul prec emax fraction available in
              match
                match gpu_memory_limit with
                | None =>
                    match float_of_int (TF_REQUIRED_MEMORY_PER_WORKER
                                        * num_workers self) with
                    | Raise e => Raise e
                    | Ret reserve =>
                        Ret (Float (SFsub prec emax required_gpu_memory
                                      reserve))
                    end
                | Some limit =>
                    Ret (explicit_limit limit available_gpu_memory available
                           required_gpu_memory)
                end
              with
              | Raise e => Raise e
              | Ret new_gpu_memory_limit =>
                  match truediv available_gpu_memory new_gpu_memory_limit with
                  | Raise e => Raise e
                  | Ret ratio =>
                      match int_of_float ratio with
                      | Raise e => Raise e
                      | Ret process_per_gpu =>
                          Ret {| meta_gpu_memory_limit :=
                                   Some new_gpu_memory_limit;
                                 meta_process_per_gpu := process_per_gpu |}
                      end
                  end
              end
          end
      end
  end.

(** [gpu_ids_meta] as built by the first loop over [gpu_ids]. *)
Fixpoint oversubscribed_loop (self : ParallelExecutor_attrs)
    (fraction : float) (gpu_memory_limit : option num)
    (available_gpu_memory_list : list Z) (gpu_ids : list string)
    (gpu_ids_meta : list (string * gpu_meta))
  : outcome (list (string * gpu_meta)) :=
  match gpu_ids with
  | [] => Ret gpu_ids_meta
  | gpu_id :: rest =>
      match oversubscribed_meta self fraction gpu_memory_limit
              available_gpu_memory_list gpu_id with
      | Raise e => Raise e
      | Ret meta =>
          oversubscribed_loop self fraction gpu_memory_limit
            available_gpu_memory_list rest
            (dict_set gpu_id meta gpu_ids_meta)
      end
  end.

Definition allocate_gpu_ids_meta (self : ParallelExecutor_attrs)
    (gpu_ids : list string) (gpu_memory_limit : option num)
    (available_gpu_memory_list : list Z)
  : outcome (list (string * gpu_meta)) :=
  let num_gpus := Z.of_nat (length gpu_ids) in
  if (num_gpus <? num_workers self)%Z then
    match int_truediv num_gpus (num_workers self) with
    | Raise e => Raise e
    | Ret quotient =>
        let fraction := SFsub prec emax quotient (epsilon self) in
        oversubscribed_loop self fraction gpu_memory_limit
          available_gpu_memory_list gpu_ids []
    end
  else
    Ret (fold_left
           (fun gpu_ids_meta gpu_id =>
              dict_set gpu_id
                {| meta_gpu_memory_limit := gpu_memory_limit;
                   meta_process_per_gpu := 1 |} gpu_ids_meta)
           gpu_ids []).

(** The second loop: [process_per_gpu] slots per GPU id, in the order of
    [gpu_ids]; [range] of a negative number is empty.  The loop reassigns the
    variable [gpu_memory_limit], whose last value the trials' arguments carry. *)
Fixpoint fill_queue (gpu_ids_meta : list (string * gpu_meta))
    (gpu_ids : list string) (queue : list slot) (gpu_memory_limit : option num)
  : outcome (list slot * option num) :=
  match gpu_ids with
  | [] => Ret (queue, gpu_memory_limit)
  | gpu_id :: rest =>
      match dict_get gpu_id gpu_ids_meta with
      | None => Raise KeyError
      | Some meta =>
          let process_per_gpu := meta_process_per_gpu meta in
          let gpu_memory_limit := meta_gpu_memory_limit meta in
          fill_queue gpu_ids_meta rest
            (queue ++ replicate (Z.to_nat process_per_gpu)
                        {| gpu_id := gpu_id;
                           gpu_memory_limit := gpu_memory_limit |})
            gpu_memory_limit
      end
  end.

Definition ParallelExecutor_default (W : Z) : ParallelExecutor_attrs :=
  {| num_workers := W; epsilon := float_lit 0.01 |}.

(** ** Trial results and their ranking *)

(** Statistics as the training collaborator returns them: per output feature,
    per metric. *)
Definition stats := list (string * list (string * float)).

Record trial_result : Type := {
  parameters : sample;
  metric_score : float;
  training_stats : stats;
  eval_stats : stats
}.

(** The builtin [sorted(l, key=..., reverse=...)] on float keys.  It is
    stable and compares keys with [<] only.  When the keys are totally
    ordered by [<], that is when none is NaN, every stable comparison sort
    returns the same list, and an insertion sort stands for the builtin; a
    list in which no element is [<] its predecessor is one ascending run for
    the builtin, which returns it as it is, as the insertion sort does.  On
    other lists with NaN keys the language does not say what the order of
    the result is.  With [reverse] the list is reversed, sorted and reversed
    again, as the interpreter does. *)
Section Sorted.
Context {A : Type} (key : A -> float).

Fixpoint insert_by (x : A) (l : list A) : list A :=
  match l with
  | [] => [x]
  | y :: l' =>
      if float_lt (key y) (key x) then y :: insert_by x l'
      else x :: y :: l'
  end.

Definition sort_by (l : list A) : list A := foldr insert_by [] l.

Definition sorted (reverse : bool) (l : list A) : list A :=
  if reverse then rev (sort_by (rev l)) else sort_by l.
End Sorted.

(** Modelled from the spec: the constant [MAXIMIZE] of [ludwig.constants] is
    not among the sources; the sampler's goal is MAXIMIZE or MINIMIZE. *)
Definition MAXIMIZE : string := "maximize".
Definition MINIMIZE : string := "minimize".

(** ** The sampler, the training collaborator and the executors' world *)

(** The sampler is an external collaborator: a state machine the executors
    drive through [finished], [sample_batch] and [update_batch]. *)
Record HyperoptSampler (St : Type) : Type := {
  finished : St -> bool;
  sample_batch : St -> list sample * St;
  update_batch : list (sample * float) -> St -> St;
  goal : string
}.
Arguments finished {St} _ _.
Arguments sample_batch {St} _ _.
Arguments update_batch {St} _ _ _.
Arguments goal {St} _.

Record HyperoptExecutor (St : Type) : Type := {
  hyperopt_sampler : HyperoptSampler St;
  output_feature : string;
  metric : string;
  split : string
}.
Arguments hyperopt_sampler {St} _.
Arguments output_feature {St} _.
Arguments metric {St} _.
Arguments split {St} _.

Definition get_metric_score {St} (self : HyperoptExecutor St) (eval_stats : stats)
  : outcome float :=
  match dict_get (output_feature self) eval_stats with
  | None => Raise KeyError
  | Some per_metric =>
      match dict_get (metric self) per_metric with
      | None => Raise KeyError
      | Some score => Ret score
      end
  end.

Definition sort_hyperopt_results {St} (self : HyperoptExecutor St)
    (hyperopt_results : list trial_result) : list trial_result :=
  sorted metric_score
    (String.eqb (goal (hyperopt_sampler self)) MAXIMIZE) hyperopt_results.

(** The [gpus] argument: an integer or a string. *)
Inductive gpus_arg : Type :=
| GpuInt (z : Z)
| GpuStr (s : string).

(** What one call of [train_and_eval_on_split] depends on besides the datasets
    and flags, which are the same for every trial of a run. *)
Record trial_args : Type := {
  ta_model_definition : val;
  ta_trial_id : nat;
  ta_gpus : option gpus_arg;
  ta_gpu_memory_limit : option num
}.

(** What the executors take from outside this module.
    [train_and_eval_on_split] builds, trains and evaluates a [LudwigModel],
    which is not among the sources: it is taken as a function of the store and
    the trial's arguments that returns the two statistics or raises, and
    leaves the store as it is.  [get_available_gpu_memory], of
    [ludwig.utils.misc_utils], asks the driver for the free memory of every
    GPU: it returns a list of integers, or raises. *)
Record externals : Type := {
  train_and_eval_on_split : heap -> trial_args -> outcome (stats * stats);
  recursion_depth : nat;
  get_available_gpus_cuda_string : option string;
  get_available_gpu_memory : outcome (list Z)
}.

(** The calls an executor makes to its sampler, in order. *)
Inductive sampler_call : Type :=
| CallFinished (answer : bool)
| CallSampleBatch (batch : list sample)
| CallUpdateBatch (pairs : list (sample * float)).

Record world (St : Type) : Type := {
  w_heap : heap;
  w_sampler : St;
  w_calls : list sampler_call;
  w_queue : list slot
}.
Arguments w_heap {St} _.
Arguments w_sampler {St} _.
Arguments w_calls {St} _.
Arguments w_queue {St} _.

(** How a run ends: it returns, it raises, it waits for ever on an empty slot
    queue, or the model's loop budget is used up. *)
Inductive result (A : Type) : Type :=
| Done (a : A)
| Raised (e : exn)
| Blocked
| OutOfFuel.
Arguments Done {A} a.
Arguments Raised {A} e.
Arguments Blocked {A}.
Arguments OutOfFuel {A}.

Definition E (St A : Type) : Type := world St -> result A * world St.

Section Exec.
Context {St : Type}.

Definition eret {A} (a : A) : E St A := fun w => (Done a, w).

Definition ebind {A B} (m : E St A) (k : A -> E St B) : E St B :=
  fun w => match m w with
           | (Done a, w') => k a w'
           | (Raised e, w') => (Raised e, w')
           | (Blocked, w') => (Blocked, w')
           | (OutOfFuel, w') => (OutOfFuel, w')
           end.

Definition with_heap (w : world St) (h : heap) : world St :=
  {| w_heap := h; w_sampler := w_sampler w;
     w_calls := w_calls w; w_queue := w_queue w |}.

Definition with_queue (w : world St) (q : list slot) : world St :=
  {| w_heap := w_heap w; w_sampler := w_sampler w;
     w_calls := w_calls w; w_queue := q |}.

Definition with_sampler (w : world St) (st : St) (c : sampler_call) : world St :=
  {| w_heap := w_heap w; w_sampler := st;
     w_calls := w_calls w ++ [c]; w_queue := w_queue w |}.

(** A store computation run in the world. *)
Definition lift {A} (m : M A) : E St A :=
  fun w => match m (w_heap w) with
           | (Ret a, h) => (Done a, with_heap w h)
           | (Raise e, h) => (Raised e, with_heap w h)
           end.

Definition of_outcome {A} (o : outcome A) : E St A :=
  fun w => match o with
           | Ret a => (Done a, w)
           | Raise e => (Raised e, w)
           end.

Definition call_finished (sampler : HyperoptSampler St) : E St bool :=
  fun w => let b := finished sampler (w_sampler w) in
           (Done b, with_sampler w (w_sampler w) (CallFinished b)).

Definition call_sample_batch (sampler : HyperoptSampler St)
  : E St (list sample) :=
  fun w => let '(batch, st) := sample_batch sampler (w_sampler w) in
           (Done batch, with_sampler w st (CallSampleBatch batch)).

Definition call_update_batch (sampler : HyperoptSampler St)
    (pairs : list (sample * float)) : E St unit :=
  fun w => (Done tt,
            with_sampler w (update_batch sampler pairs (w_sampler w))
              (CallUpdateBatch pairs)).

(** [queue.get()]: blocks while the queue is empty. *)
Definition queue_get : E St slot :=
  fun w => match w_queue w with
           | [] => (Blocked, w)
           | s :: q => (Done s, with_queue w q)
           end.

(** [queue.put(s)]. *)
Definition queue_put (s : slot) : E St unit :=
  fun w => (Done tt, with_queue w (w_queue w ++ [s])).

(** [try: body finally: handler].  The handler runs when the body returns
    or raises, and the body's outcome stands unless the handler does not
    return. *)
Definition try_finally {A} (body : E St A) (handler : E St unit) : E St A :=
  fun w => match body w with
           | (Done a, w') =>
               match handler w' with
               | (Done _, w'') => (Done a, w'')
               | (Raised e, w'') => (Raised e, w'')
               | (Blocked, w'') => (Blocked, w'')
               | (OutOfFuel, w'') => (OutOfFuel, w'')
               end
           | (Raised e, w') =>
               match handler w' with
               | (Done _, w'') => (Raised e, w'')
               | (Raised e', w'') => (Raised e', w'')
               | (Blocked, w'') => (Blocked, w'')
               | (OutOfFuel, w'') => (OutOfFuel, w'')
               end
           | (Blocked, w') => (Blocked, w')
           | (OutOfFuel, w') => (OutOfFuel, w')
           end.
End Exec.

Declare Scope exec_scope.
Delimit Scope exec_scope with E.
Notation "x <- m ;; k" := (ebind m (fun x => k))
  (at level 100, m at next level, right associativity) : exec_scope.
Notation "m ;;; k" := (ebind m (fun _ => k))
  (at level 100, right associativity) : exec_scope.

(** ** The executors *)

(** [str(n)] of an integer. *)
Definition str_of_int (z : Z) : string := NilZero.string_of_int (Z.to_int z).

(** One entry of [hyperopt_parameters]. *)
Record hyperopt_dict : Type := {
  hd_parameters : sample;
  hd_args : trial_args
}.

Section Executors.
Context {St : Type} (self : HyperoptExecutor St) (ext : externals).

Local Open Scope exec_scope.

Definition out_of_fuel {A} : E St A := fun w => (OutOfFuel, w).

Definition eraise {A} (e : exn) : E St A := fun w => (Raised e, w).

(** A call of [train_and_eval_on_split] on the current store. *)
Definition run_trial (args : trial_args) : E St (stats * stats) :=
  fun w => of_outcome (train_and_eval_on_split ext (w_heap w) args) w.

(** [substitute_parameters(copy.deepcopy(model_definition), parameters)]. *)
Definition modified_definition (model_definition : val) (parameters : sample)
  : E St val :=
  copied <- lift (deepcopy_top (recursion_depth ext) model_definition) ;;
  lift (substitute_parameters copied parameters).

(** *** SerialExecutor *)

(** The body of [for i, parameters in enumerate(sampled_parameters)],
    over the two lists it appends to. *)
Fixpoint serial_batch (model_definition : val) (gpus : option gpus_arg)
    (gpu_memory_limit : option num) (trials i : nat)
    (sampled_parameters : list sample)
    (metric_scores : list float) (hyperopt_results : list trial_result)
  : E St (list float * list trial_result) :=
  match sampled_parameters with
  | [] => eret (metric_scores, hyperopt_results)
  | parameters :: rest =>
      modified_model_definition <-
        modified_definition model_definition parameters ;;
      let trial_id := (trials + i)%nat in
      st <- run_trial {| ta_model_definition := modified_model_definition;
                         ta_trial_id := trial_id;
                         ta_gpus := gpus;
                         ta_gpu_memory_limit := gpu_memory_limit |} ;;
      metric_score <- of_outcome (get_metric_score self (snd st)) ;;
      serial_batch model_definition gpus gpu_memory_limit trials (S i) rest
        (metric_scores ++ [metric_score])
        (hyperopt_results
           ++ [ {| parameters := parameters;
                   metric_score := metric_score;
                   training_stats := fst st;
                   eval_stats := snd st |} ])
  end.

(** [while not self.hyperopt_sampler.finished(): ...]; [fuel] bounds the
    number of times the condition is evaluated. *)
Fixpoint SerialExecutor_loop (fuel : nat) (model_definition : val)
    (gpus : option gpus_arg) (gpu_memory_limit : option num)
    (hyperopt_results : list trial_result) (trials : nat)
  : E St (list trial_result) :=
  match fuel with
  | O => out_of_fuel
  | S fuel' =>
      done <- call_finished (hyperopt_sampler self) ;;
      if (done : bool) then eret hyperopt_results
      else
        sampled_parameters <- call_sample_batch (hyperopt_sampler self) ;;
        r <- serial_batch model_definition gpus gpu_memory_limit trials 0
               sampled_parameters [] hyperopt_results ;;
        call_update_batch (hyperopt_sampler self)
          (zip sampled_parameters (fst r)) ;;;
        SerialExecutor_loop fuel' model_definition gpus gpu_memory_limit
          (snd r) (trials + length sampled_parameters)%nat
  end.

Definition SerialExecutor_execute (fuel : nat) (model_definition : val)
    (gpus : option gpus_arg) (gpu_memory_limit : option num)
  : E St (list trial_result) :=
  hyperopt_results <-
    SerialExecutor_loop fuel model_definition gpus gpu_memory_limit [] 0 ;;
  eret (sort_hyperopt_results self hyperopt_results).

(** *** ParallelExecutor *)

Definition _train_and_eval_model (hyperopt_dict : hyperopt_dict)
  : E St trial_result :=
  let parameters := hd_parameters hyperopt_dict in
  st <- run_trial (hd_args hyperopt_dict) ;;
  metric_score <- of_outcome (get_metric_score self (snd st)) ;;
  eret {| parameters := parameters;
          metric_score := metric_score;
          training_stats := fst st;
          eval_stats := snd st |}.

Definition _train_and_eval_model_gpu (hyperopt_dict : hyperopt_dict)
  : E St trial_result :=
  gpu_id_meta <- queue_get ;;
  r <- try_finally
         (let parameters := hd_parameters hyperopt_dict in
          let args :=
            {| ta_model_definition :=
                 ta_model_definition (hd_args hyperopt_dict);
               ta_trial_id := ta_trial_id (hd_args hyperopt_dict);
               ta_gpus := Some (GpuStr (gpu_id gpu_id_meta));
               ta_gpu_memory_limit := gpu_memory_limit gpu_id_meta |} in
          st <- run_trial args ;;
          metric_score <- of_outcome (get_metric_score self (snd st)) ;;
          eret (parameters, metric_score, st))
         (queue_put gpu_id_meta) ;;
  let '(parameters, metric_score, st) := r in
  eret {| parameters := parameters;
          metric_score := metric_score;
          training_stats := fst st;
          eval_stats := snd st |}.

(** [pool.map(f, l)], the workers taken one after the other in the order of
    [l]: the results come in that order, and a trial that raises makes the
    call raise. *)
Fixpoint pool_map {A B} (f : A -> E St B) (l : list A) : E St (list B) :=
  match l with
  | [] => eret []
  | x :: rest =>
      y <- f x ;;
      ys <- pool_map f rest ;;
      eret (y :: ys)
  end.

(** The loop that fills [hyperopt_parameters]. *)
Fixpoint parallel_parameters (model_definition : val)
    (gpus : option gpus_arg) (gpu_memory_limit : option num) (trials i : nat)
    (sampled_parameters : list sample)
    (hyperopt_parameters : list hyperopt_dict)
  : E St (list hyperopt_dict) :=
  match sampled_parameters with
  | [] => eret hyperopt_parameters
  | parameters :: rest =>
      modified_model_definition <-
        modified_definition model_definition parameters ;;
      let trial_id := (trials + i)%nat in
      parallel_parameters model_definition gpus gpu_memory_limit trials
        (S i) rest
        (hyperopt_parameters
           ++ [ {| hd_parameters := parameters;
                   hd_args :=
                     {| ta_model_definition := modified_model_definition;
                        ta_trial_id := trial_id;
                        ta_gpus := gpus;
                        ta_gpu_memory_limit := gpu_memory_limit |} |} ])
  end.

Fixpoint ParallelExecutor_loop (fuel : nat) (model_definition : val)
    (gpus : option gpus_arg) (gpu_memory_limit : option num)
    (hyperopt_results : list trial_result) (trials : nat)
  : E St (list trial_result) :=
  match fuel with
  | O => out_of_fuel
  | S fuel' =>
      done <- call_finished (hyperopt_sampler self) ;;
      if (done : bool) then eret hyperopt_results
      else
        sampled_parameters <- call_sample_batch (hyperopt_sampler self) ;;
        hyperopt_parameters <-
          parallel_parameters model_definition gpus gpu_memory_limit
            trials 0 sampled_parameters [] ;;
        batch_results <-
          (if gpus is Some _
           then pool_map _train_and_eval_model_gpu hyperopt_parameters
           else pool_map _train_and_eval_model hyperopt_parameters) ;;
        call_update_batch (hyperopt_sampler self)
          (map (fun result => (parameters result, metric_score result))
             batch_results) ;;;
        ParallelExecutor_loop fuel' model_definition gpus gpu_memory_limit
          (hyperopt_results ++ batch_results)
          (trials + length sampled_parameters)%nat
  end.

(** The set-up of the slot queue, when GPUs were passed or detected. *)
Definition ParallelExecutor_setup (attrs : ParallelExecutor_attrs)
    (gpus : gpus_arg) (gpu_memory_limit : option num)
  : E St (string * option num) :=
  let gpus := match gpus with GpuInt n => str_of_int n | GpuStr s => s end in
  let gpus := strip gpus in
  let gpu_ids := str_split ","%char gpus in
  available_gpu_memory_list <- of_outcome (get_available_gpu_memory ext) ;;
  gpu_ids_meta <-
    of_outcome (allocate_gpu_ids_meta attrs gpu_ids gpu_memory_limit
                  available_gpu_memory_list) ;;
  filled <- of_outcome (fill_queue gpu_ids_meta gpu_ids [] gpu_memory_limit) ;;
  (fun w => (Done (gpus, snd filled), with_queue w (fst filled))).

(** [ctx.Pool(num_workers, init_worker)] refuses a pool of no process; its
    [close] and [join] in the [finally] leave the world as it is. *)
Definition ParallelExecutor_execute (attrs : ParallelExecutor_attrs)
    (fuel : nat) (model_definition : val)
    (gpus : option gpus_arg) (gpu_memory_limit : option num)
  : E St (list trial_result) :=
  let gpus :=
    match gpus with
    | None => option_map GpuStr (get_available_gpus_cuda_string ext)
    | Some _ => gpus
    end in
  prepared <-
    match gpus with
    | Some g =>
        r <- ParallelExecutor_setup attrs g gpu_memory_limit ;;
        eret (Some (GpuStr (fst r)), snd r)
    | None => eret (None, gpu_memory_limit)
    end ;;
  let '(gpus, gpu_memory_limit) := prepared in
  if (num_workers attrs <? 1)%Z then eraise ValueError
  else
    hyperopt_results <-
      try_finally
        (ParallelExecutor_loop fuel model_definition gpus gpu_memory_limit
           [] 0)
        (eret tt) ;;
    eret (sort_hyperopt_results self hyperopt_results).

(** *** FiberExecutor *)

(** The list comprehension passed to [self.pool.map]. *)
Fixpoint fiber_arguments (model_definition : val) (gpus : option gpus_arg)
    (gpu_memory_limit : option num) (trials i : nat)
    (sampled_parameters : list sample) : E St (list trial_args) :=
  match sampled_parameters with
  | [] => eret []
  | parameters :: rest =>
      modified_model_definition <-
        modified_definition model_definition parameters ;;
      others <- fiber_arguments model_definition gpus gpu_memory_limit
                  trials (S i) rest ;;
      eret ({| ta_model_definition := modified_model_definition;
               ta_trial_id := (trials + i)%nat;
               ta_gpus := gpus;
               ta_gpu_memory_limit := gpu_memory_limit |} :: others)
  end.

Definition _train_and_eval_on_split_unary (kwargs : trial_args)
  : E St (stats * stats) :=
  run_trial kwargs.

(** [for stats, parameters in zip(stats_batch, sampled_parameters)]. *)
Fixpoint fiber_collect (pairs : list ((stats * stats) * sample))
    (metric_scores : list float) (hyperopt_results : list trial_result)
  : E St (list float * list trial_result) :=
  match pairs with
  | [] => eret (metric_scores, hyperopt_results)
  | (st, parameters) :: rest =>
      metric_score <- of_outcome (get_metric_score self (snd st)) ;;
      fiber_collect rest (metric_scores ++ [metric_score])
        (hyperopt_results
           ++ [ {| parameters := parameters;
                   metric_score := metric_score;
                   training_stats := fst st;
                   eval_stats := snd st |} ])
  end.

Fixpoint FiberExecutor_loop (fuel : nat) (model_definition : val)
    (gpus : option gpus_arg) (gpu_memory_limit : option num)
    (hyperopt_results : list trial_result) (trials : nat)
  : E St (list trial_result) :=
  match fuel with
  | O => out_of_fuel
  | S fuel' =>
      done <- call_finished (hyperopt_sampler self) ;;
      if (done : bool) then eret hyperopt_results
      else
        sampled_parameters <- call_sample_batch (hyperopt_sampler self) ;;
        arguments <- fiber_arguments model_definition gpus gpu_memory_limit
                       trials 0 sampled_parameters ;;
        stats_batch <- pool_map _train_and_eval_on_split_unary arguments ;;
        r <- fiber_collect (zip stats_batch sampled_parameters) []
               hyperopt_results ;;
        call_update_batch (hyperopt_sampler self)
          (zip sampled_parameters (fst r)) ;;;
        FiberExecutor_loop fuel' model_definition gpus gpu_memory_limit
          (snd r) (trials + length sampled_parameters)%nat
  end.

Definition FiberExecutor_execute (fuel : nat) (model_definition : val)
    (gpus : option gpus_arg) (gpu_memory_limit : option num)
  : E St (list trial_result) :=
  hyperopt_results <-
    FiberExecutor_loop fuel model_definition gpus gpu_memory_limit [] 0 ;;
  eret (sort_hyperopt_results self hyperopt_results).
End Executors.

(** The executor classes, and [execute] as each implements it; [attrs] are
    the attributes only a [ParallelExecutor] has. *)
Inductive executor_class : Type :=
| SerialExecutor
| ParallelExecutor
| FiberExecutor.

Definition execute {St} (cls : executor_class) (self : HyperoptExecutor St)
    (attrs : ParallelExecutor_attrs) (ext : externals) (fuel : nat)
    (model_definition : val) (gpus : option gpus_arg)
    (gpu_memory_limit : option num)
  : E St (list trial_result) :=
  match cls with
  | SerialExecutor =>
      SerialExecutor_execute self ext fuel model_definition gpus
        gpu_memory_limit
  | ParallelExecutor =>
      ParallelExecutor_execute self ext attrs fuel model_definition gpus
        gpu_memory_limit
  | FiberExecutor =>
      FiberExecutor_execute self ext fuel model_definition gpus
        gpu_memory_limit
  end.

(** ** The executor registry *)

Definition executor_registry : list (string * executor_class) :=
  [("serial", SerialExecutor);
   ("parallel", ParallelExecutor);
   ("fiber", FiberExecutor)].

(** Modelled from the spec: [get_from_registry] of [ludwig.utils.misc_utils]
    is not among the sources; a name the registry does not hold fails with a
    lookup error. *)
Definition get_from_registry {V} (key : string) (registry : list (string * V))
  : outcome V :=
  match dict_get key registry with
  | Some v => Ret v
  | None => Raise LookupError
  end.

Definition get_build_hyperopt_executor (executor_type : string)
  : outcome executor_class :=
  get_from_registry executor_type executor_registry.

(** ** One trial: [train_and_eval_on_split] *)

Module Trial.

(** What the function takes from outside this module: the class
    [LudwigModel] of [ludwig.api], with its constructor and the two methods
    called here, and the names of the three splits, of [ludwig.constants].
    The keyword arguments the function only hands on (configuration options,
    data sets, names, flags and seed) are one value of type [Options];
    [train] returns the statistics and the preprocessed data, four components
    of which the last is the metadata, [evaluate] returns the statistics; the
    components of their results the function drops are left out.  The
    collaborators read the store. *)
Record api (Model Options Dataset Metadata : Type) : Type := {
  LudwigModel : heap -> val -> Options -> outcome Model;
  train : Model -> heap -> Options
          -> outcome (stats * (Dataset * Dataset * Dataset * Metadata));
  evaluate : Model -> heap -> Dataset -> val -> Options -> outcome stats;
  TRAINING : string;
  VALIDATION : string;
  TEST : string
}.
Arguments LudwigModel {Model Options Dataset Metadata} _ _ _ _.
Arguments train {Model Options Dataset Metadata} _ _ _ _.
Arguments evaluate {Model Options Dataset Metadata} _ _ _ _ _ _.
Arguments TRAINING {Model Options Dataset Metadata} _.
Arguments VALIDATION {Model Options Dataset Metadata} _.
Arguments TEST {Model Options Dataset Metadata} _.

(** [v > 0] for a value of the configuration: numbers compare, a bool is
    the integer 0 or 1, anything else is not ordered with an integer. *)
Definition gt_zero (v : val) : M bool :=
  match v with
  | VInt z => ret (0 <? z)%Z
  | VFloat q => ret (Qltb 0 q)
  | VBool b => ret b
  | _ => raise TypeError
  end.

(** The batch size of the evaluation. *)
Definition eval_batch_size {Model Options Dataset Metadata}
    (ludwig : api Model Options Dataset Metadata) (model_definition : val)
  : M val :=
  training <- getitem model_definition (TRAINING ludwig) ;;
  size <- getitem training "eval_batch_size" ;;
  positive <- gt_zero size ;;
  if (positive : bool) then
    training <- getitem model_definition (TRAINING ludwig) ;;
    getitem training "eval_batch_size"
  else
    training <- getitem model_definition (TRAINING ludwig) ;;
    getitem training "batch_size".

Definition train_and_eval_on_split {Model Options Dataset Metadata}
    (ludwig : api Model Options Dataset Metadata) (h : heap)
    (model_definition : val) (eval_split : string) (options : Options)
  : outcome (stats * stats) :=
  match LudwigModel ludwig h model_definition options with
  | Raise e => Raise e
  | Ret model =>
      match train ludwig model h options with
      | Raise e => Raise e
      | Ret (train_stats, preprocessed_data) =>
          match fst (eval_batch_size ludwig model_definition h) with
          | Raise e => Raise e
          | Ret batch_size =>
              let '(training_set, validation_set, test_set,
                    train_set_metadata) := preprocessed_data in
              let eval_set := validation_set in
              let eval_set :=
                if String.eqb eval_split (TRAINING ludwig) then training_set
                else if String.eqb eval_split (VALIDATION ludwig)
                     then validation_set
                else if String.eqb eval_split (TEST ludwig) then test_set
                else eval_set in
              match evaluate ludwig model h eval_set batch_size options with
              | Raise e => Raise e
              | Ret test_results => Ret (train_stats, test_results)
              end
          end
      end
  end.

End Trial.

(** ** A small run, used to exercise the model *)

(** A sampler that hands out one batch of two samples and is then finished;
    its state counts the batches it was updated with. *)
Definition example_batch : list sample :=
  [ [("training.learning_rate", VFloat 0.001%Q)];
    [("training.learning_rate", VFloat 0.1%Q); ("text.encoder", VStr "cnn")] ].

Definition example_sampler : HyperoptSampler nat :=
  {| finished := fun st => (1 <=? st)%nat;
     sample_batch := fun st => (example_batch, st);
     update_batch := fun _ st => Datatypes.S st;
     goal := MAXIMIZE |}.

Definition example_self : HyperoptExecutor nat :=
  {| hyperopt_sampler := example_sampler;
     output_feature := "label";
     metric := "accuracy";
     split := "validation" |}.

(** A collaborator whose accuracy is the learning rate of the configuration
    it is given. *)
Definition example_train (h : heap) (args : trial_args)
  : outcome (stats * stats) :=
  match fst (bind (getitem (ta_model_definition args) "training")
               (fun t => getitem t "learning_rate") h) with
  | Ret (VFloat q) => Ret ([], [("label", [("accuracy", float_lit q)])])
  | _ => Raise (OtherError "training failed")
  end.

Definition example_ext : externals :=
  {| train_and_eval_on_split := example_train;
     recursion_depth := 100;
     get_available_gpus_cuda_string := None;
     get_available_gpu_memory := Ret [1000; 1000]%Z |}.

Definition example_world : world nat :=
  {| w_heap := example_heap; w_sampler := 0%nat; w_calls := []; w_queue := [] |}.

(** Four results with the scores 0.5, 0.9, 0.9, 0.1, told apart by their
    parameters. *)
Definition scored (idx : Z) (score : Q) : trial_result :=
  {| parameters := [("idx", VInt idx)];
     metric_score := float_lit score;
     training_stats := [];
     eval_stats := [] |}.

Definition example_results : list trial_result :=
  [scored 0 0.5%Q; scored 1 0.9%Q; scored 2 0.9%Q; scored 3 0.1%Q].

(** The result of an example trial: the collaborator reports the learning
    rate as the accuracy of "label". *)
Definition scored_by_rate (rate : Q) (ps : sample) : trial_result :=
  {| parameters := ps;
     metric_score := float_lit rate;
     training_stats := [];
     eval_stats := [("label", [("accuracy", float_lit rate)])] |}.

(** * Properties *)

(** ** Dict entries *)

Section DictFacts.
Context {V : Type}.
Implicit Types (items : list (string * V)) (k : string) (v : V).

Lemma dict_get_set_eq k v items : dict_get k (dict_set k v items) = Some v.
Proof.
  induction items as [|[k' v'] items IH]; simpl.
  - by rewrite String.eqb_refl.
  - destruct (String.eqb k k') eqn:E; simpl; rewrite ?String.eqb_refl, ?E; done.
Qed.

Lemma dict_get_set_ne k k' v items :
  k <> k' -> dict_get k (dict_set k' v items) = dict_get k items.
Proof.
  intros Hne. induction items as [|[k2 v2] items IH]; simpl.
  - destruct (String.eqb_spec k k'); congruence.
  - destruct (String.eqb_spec k' k2) as [->|Hk]; simpl.
    + destruct (String.eqb_spec k k2); congruence.
    + destruct (String.eqb_spec k k2); congruence.
Qed.

Lemma dict_get_Some_In k v items : dict_get k items = Some v -> In (k, v) items.
Proof.
  induction items as [|[k' v'] items IH]; simpl; [done|].
  destruct (String.eqb_spec k k') as [->|]; [intros [= ->]; by left|auto].
Qed.

End DictFacts.

(** ** The executor registry *)

(** C9, as amended: the registry maps exactly the names "serial", "parallel"
    and "fiber" to an executor class, and the look-up of any other name fails
    with a lookup error (the look-up itself runs no trial: it is a function of
    the name alone). *)
Theorem registry_names (name : string) :
  (In name ["serial"; "parallel"; "fiber"] <->
   exists cls, get_build_hyperopt_executor name = Ret cls)
  /\ (~ In name ["serial"; "parallel"; "fiber"] ->
      get_build_hyperopt_executor name = Raise LookupError)
  /\ get_build_hyperopt_executor "serial" = Ret SerialExecutor
  /\ get_build_hyperopt_executor "parallel" = Ret ParallelExecutor
  /\ get_build_hyperopt_executor "fiber" = Ret FiberExecutor.
Proof.
  unfold get_build_hyperopt_executor, get_from_registry, executor_registry.
  simpl.
  destruct (String.eqb_spec name "serial") as [->|H1];
    [split_and!; try done; [split; eauto; intros _; tauto | tauto]|].
  destruct (String.eqb_spec name "parallel") as [->|H2];
    [split_and!; try done; [split; eauto; intros _; tauto | tauto]|].
  destruct (String.eqb_spec name "fiber") as [->|H3];
    [split_and!; try done; [split; eauto; intros _; tauto | tauto]|].
  split_and!; try done.
  split; [intros [?|[?|[?|[]]]]; congruence | intros [cls [=]]].
Qed.

(** C9, as stated, fails: "distributed" is no name of the registry, and the
    third name it holds is "fiber". *)
Lemma registry_has_no_distributed :
  get_build_hyperopt_executor "distributed" = Raise LookupError
  /\ dict_get "distributed" executor_registry = None
  /\ dict_get "fiber" executor_registry = Some FiberExecutor
  /\ ~ (forall name, In name ["serial"; "parallel"; "distributed"] ->
          exists cls, get_build_hyperopt_executor name = Ret cls).
Proof.
  split_and!; try reflexivity.
  intros H. destruct (H "distributed") as [cls Hcls]; [simpl; tauto|].
  discriminate Hcls.
Qed.

(** ** Ranking: [sorted] is a stable sort *)

Lemma Qltb_lt x y : Qltb x y = true <-> (x < y)%Q.
Proof.
  unfold Qltb. rewrite negb_true_iff. split.
  - intros H. apply Qnot_le_lt. intros Hle.
    apply Qle_bool_iff in Hle. congruence.
  - intros H. destruct (Qle_bool y x) eqn:E; [|done].
    apply Qle_bool_iff in E. by apply Qlt_not_le in H.
Qed.

Lemma Qltb_ge x y : Qltb x y = false <-> (y <= x)%Q.
Proof.
  unfold Qltb. rewrite negb_false_iff. apply Qle_bool_iff.
Qed.

(** ** The order of numbers *)

Lemma is_nan_value (x : float) : is_nan x = false <-> value_of_float x <> NaN.
Proof. destruct x as [s|s| |s m e]; simpl; try done; by destruct s. Qed.

Lemma value_lt_le x y : value_lt x y = true -> value_le x y = true.
Proof.
  destruct x, y; simpl; try done.
  intros H%Qltb_lt. by apply Qle_bool_iff, Qlt_le_weak.
Qed.

Lemma value_nlt_le x y :
  x <> NaN -> y <> NaN -> value_lt y x = false -> value_le x y = true.
Proof.
  destruct x, y; simpl; try done.
  intros _ _ H%Qltb_ge. by apply Qle_bool_iff.
Qed.

Lemma value_le_trans x y z :
  value_le x y = true -> value_le y z = true -> value_le x z = true.
Proof.
  destruct x, y, z; simpl; try done.
  rewrite !Qle_bool_iff. apply Qle_trans.
Qed.

Lemma value_lt_trans x y z :
  value_lt x y = true -> value_lt y z = true -> value_lt x z = true.
Proof.
  destruct x, y, z; simpl; try done.
  rewrite !Qltb_lt. apply Qlt_trans.
Qed.

Lemma value_lt_asym x y : value_lt x y = true -> value_lt y x = false.
Proof.
  destruct x, y; simpl; try done.
  intros H%Qltb_lt. by apply Qltb_ge, Qlt_le_weak.
Qed.

Lemma value_le_nlt x y : value_le x y = true -> value_lt y x = false.
Proof.
  destruct x, y; simpl; try done.
  intros H%Qle_bool_iff. by apply Qltb_ge.
Qed.

Lemma value_eq_nlt x y k :
  value_eq x k = true -> value_eq y k = true -> value_lt y x = false.
Proof.
  destruct x, y, k; simpl; try done.
  intros Hx%Qeq_bool_iff Hy%Qeq_bool_iff. apply Qltb_ge.
  rewrite Hx, Hy. apply Qle_refl.
Qed.

Section SortedFacts.
Context {A : Type} (key : A -> float).

(** [x] may stand before [y] in an ascending list. *)
Definition key_le (x y : A) : Prop := float_le (key x) (key y) = true.

(** The elements whose key equals [k]. *)
Definition with_key (k : float) (x : A) : bool := float_eq (key x) k.

(** No key of the list is NaN. *)
Definition numbers (l : list A) : Prop :=
  Forall (fun x => is_nan (key x) = false) l.

Lemma insert_by_perm x l : insert_by key x l ≡ₚ x :: l.
Proof.
  induction l as [|y l IH]; simpl; [done|].
  destruct (float_lt (key y) (key x)); [|done].
  rewrite IH. apply Permutation_swap.
Qed.

Lemma sort_by_perm l : sort_by key l ≡ₚ l.
Proof.
  induction l as [|x l IH]; simpl; [done|].
  rewrite insert_by_perm. by rewrite IH.
Qed.

Lemma insert_by_sorted x l :
  is_nan (key x) = false -> numbers l ->
  StronglySorted key_le l -> StronglySorted key_le (insert_by key x l).
Proof.
  intros Hx%is_nan_value Hl.
  induction 1 as [|y l Hs IH Hall]; simpl.
  - repeat constructor.
  - apply Forall_cons in Hl as [Hy%is_nan_value Hl].
    destruct (float_lt (key y) (key x)) eqn:E.
    + constructor; [by apply IH|].
      rewrite insert_by_perm. constructor; [|done]. by apply value_lt_le.
    + assert (Hxy : key_le x y) by by apply value_nlt_le.
      constructor; [by constructor|].
      constructor; [done|].
      eapply Forall_impl; [exact Hall|].
      intros z Hz. unfold key_le in *. by eapply value_le_trans.
Qed.

Lemma sort_by_sorted l : numbers l -> StronglySorted key_le (sort_by key l).
Proof.
  induction l as [|x l IH]; simpl; [constructor|].
  intros [Hx Hl]%Forall_cons. apply insert_by_sorted; [done| |by apply IH].
  unfold numbers. by rewrite sort_by_perm.
Qed.

(** Insertion moves [x] only past elements of a smaller key, never past one
    of its own key class. *)
Lemma insert_by_filter k x l :
  List.filter (with_key k) (insert_by key x l)
  = List.filter (with_key k) (x :: l).
Proof.
  induction l as [|y l IH]; [done|].
  cbn [insert_by].
  destruct (float_lt (key y) (key x)) eqn:E; [|done].
  cbn [List.filter] in *. rewrite IH.
  destruct (with_key k x) eqn:Ex, (with_key k y) eqn:Ey; try done.
  unfold with_key, float_eq, float_lt in *.
  by rewrite (value_eq_nlt _ _ _ Ex Ey) in E.
Qed.

Lemma sort_by_filter k l :
  List.filter (with_key k) (sort_by key l) = List.filter (with_key k) l.
Proof.
  induction l as [|x l IH]; [done|].
  cbn [sort_by foldr]. fold (sort_by key l).
  rewrite insert_by_filter. cbn [List.filter]. by rewrite IH.
Qed.

Lemma StronglySorted_rev (R : relation A) l :
  StronglySorted R l -> StronglySorted (flip R) (rev l).
Proof.
  induction 1 as [|x l Hs IH Hall]; simpl; [constructor|].
  apply StronglySorted_app. split_and!; [|exact IH|repeat constructor].
  intros y z Hy Hz. apply list_elem_of_singleton in Hz as ->.
  unfold flip. rewrite Forall_forall in Hall. apply Hall.
  apply list_elem_of_In. apply list_elem_of_In in Hy. by apply in_rev.
Qed.

Lemma sorted_perm (reverse : bool) (l : list A) : sorted key reverse l ≡ₚ l.
Proof.
  unfold sorted. destruct reverse; [|apply sort_by_perm].
  rewrite <- Permutation_rev, sort_by_perm. by rewrite <- Permutation_rev.
Qed.

Lemma sorted_ordered (reverse : bool) (l : list A) :
  numbers l ->
  StronglySorted (if reverse then flip key_le else key_le)
    (sorted key reverse l).
Proof.
  intros Hl. unfold sorted. destruct reverse; [|by apply sort_by_sorted].
  apply StronglySorted_rev, sort_by_sorted.
  unfold numbers. by rewrite <- Permutation_rev.
Qed.

Lemma sorted_stable (reverse : bool) (k : float) (l : list A) :
  List.filter (with_key k) (sorted key reverse l)
  = List.filter (with_key k) l.
Proof.
  unfold sorted. destruct reverse; [|apply sort_by_filter].
  rewrite List.filter_rev, sort_by_filter, List.filter_rev.
  apply rev_involutive.
Qed.
End SortedFacts.



(** Three results of which the second has a score that is not a number. *)
Definition nan_results : list trial_result :=
  [scored 0 0.1%Q;
   {| parameters := [("idx", VInt 1)]; metric_score := S754_nan;
      training_stats := []; eval_stats := [] |};
   scored 2 0.9%Q].


(** ** The GPU resource allocator *)

Lemma oversubscribed_loop_lookup self fraction limit available ids acc metas :
  oversubscribed_loop self fraction limit available ids acc = Ret metas ->
  (forall id, In id ids ->
     exists m, oversubscribed_meta self fraction limit available id = Ret m
               /\ dict_get id metas = Some m)
  /\ (forall id, ~ In id ids -> dict_get id metas = dict_get id acc).
Proof.
  revert acc. induction ids as [|g rest IH]; intros acc; simpl.
  - intros [= ->]. split; [tauto|done].
  - destruct (oversubscribed_meta self fraction limit available g)
      as [m|e] eqn:Hm; [|done].
    intros Hloop. destruct (IH _ Hloop) as [Hin Hout]. split.
    + intros id [<-|Hid]; [|by apply Hin].
      destruct (In_dec String.string_dec g rest) as [Hg|Hg].
      * destruct (Hin g Hg) as [m' [Hm' Hget]]. exists m'. split; [|done].
        congruence.
      * exists m. split; [done|].
        rewrite (Hout g Hg). apply dict_get_set_eq.
    + intros id Hid. rewrite Hout by tauto.
      apply dict_get_set_ne. intros ->. tauto.
Qed.

Lemma oversubscribed_meta_inv self fraction limit available id m :
  oversubscribed_meta self fraction limit available id = Ret m ->
  exists idx A a new_limit ratio ppg,
    int_of_string id = Ret idx
    /\ list_index available idx = Ret A
    /\ float_of_int A = Ret a
    /\ match limit with
       | None =>
           exists reserve,
             float_of_int (100 * num_workers self) = Ret reserve
             /\ new_limit
                = Float (SFsub prec emax (SFmul prec emax fraction a) reserve)
       | Some l =>
           new_limit = explicit_limit l A a (SFmul prec emax fraction a)
       end
    /\ truediv A new_limit = Ret ratio
    /\ int_of_float ratio = Ret ppg
    /\ m = {| meta_gpu_memory_limit := Some new_limit;
              meta_process_per_gpu := ppg |}.
Proof.
  unfold oversubscribed_meta, TF_REQUIRED_MEMORY_PER_WORKER.
  destruct (int_of_string id) as [idx|] eqn:Hidx; [|done].
  destruct (list_index available idx) as [A|] eqn:HA; [|done].
  destruct (float_of_int A) as [a|] eqn:Ha; [|done].
  destruct limit as [l|].
  - destruct (truediv A _) as [ratio|] eqn:Hratio; [|done].
    destruct (int_of_float ratio) as [ppg|] eqn:Hppg; [|done].
    intros [= <-]. exists idx, A, a. eexists. exists ratio, ppg.
    by split_and!.
  - destruct (float_of_int (100 * num_workers self)) as [reserve|] eqn:Hres;
      [|done].
    destruct (truediv A _) as [ratio|] eqn:Hratio; [|done].
    destruct (int_of_float ratio) as [ppg|] eqn:Hppg; [|done].
    intros [= <-]. exists idx, A, a. eexists. exists ratio, ppg.
    split_and!; try done. by exists reserve.
Qed.

(** [int] and [floor] agree on a quotient that is not negative; on a
    negative one [int] is the ceiling. *)
Lemma int_of_Q_floor (q : Q) : (0 <= q)%Q -> int_of_Q q = Qfloor q.
Proof.
  destruct q as [n d]. unfold int_of_Q, Qfloor, Qle. simpl.
  intros H. apply Z.quot_div_nonneg; lia.
Qed.

Lemma int_of_Q_truncates (q : Q) :
  int_of_Q q = if Qle_bool 0 q then Qfloor q else Qceiling q.
Proof.
  destruct (Qle_bool 0 q) eqn:E.
  - apply int_of_Q_floor. by apply Qle_bool_iff.
  - assert (Hneg : (q < 0)%Q).
    { apply Qnot_le_lt. intros H%Qle_bool_iff. congruence. }
    destruct q as [n d]. unfold int_of_Q, Qceiling, Qfloor, Qlt in *.
    simpl in *.
    replace n with (- - n)%Z at 1 by lia.
    rewrite Z.quot_opp_l by lia. f_equal.
    apply Z.quot_div_nonneg; lia.
Qed.

(** What the allocator records for one GPU id when no limit was given: the
    limit is computed in floats, operation by operation, and the number of
    processes is the value of the float quotient, truncated. *)
Definition default_limit_spec (W : Z) (gpu_ids : list string)
    (available : list Z) (metas : list (string * gpu_meta)) (id : string)
  : Prop :=
  exists idx A quotient a reserve ratio q,
    int_of_string id = Ret idx
    /\ list_index available idx = Ret A
    /\ int_truediv (Z.of_nat (length gpu_ids)) W = Ret quotient
    /\ float_of_int A = Ret a
    /\ float_of_int (100 * W) = Ret reserve
    /\ let limit :=
         SFsub prec emax
           (SFmul prec emax (SFsub prec emax quotient (float_lit 0.01)) a)
           reserve in
       float_truediv a limit = Ret ratio
       /\ value_of_float ratio = Fin q
       /\ dict_get id metas
          = Some {| meta_gpu_memory_limit := Some (Float limit);
                    meta_process_per_gpu := int_of_Q q |}
       /\ int_of_Q q = (if Qle_bool 0 q then Qfloor q else Qceiling q).

(** C3, as amended: over-subscribed and without an explicit limit, a run of
    the allocator that does not raise records for every GPU id the limit
    (G/W - 0.01) * available_memory - 100 * W, each operation rounded to the
    nearest float, and processes_per_gpu = int(available_memory / limit), the
    float quotient truncated toward zero, which is its floor whenever the
    quotient is not negative; for W = 4, G = 2 and 1000 units available the
    limit is 90.0 and processes_per_gpu is 11; for W = 10, G = 1 and 12000
    units available the limit is the float next above 80 (80.00000000000023)
    and processes_per_gpu is 149. *)
Theorem default_limit_formula :
  (forall (W : Z) (gpu_ids : list string) (available : list Z)
          (metas : list (string * gpu_meta)) (id : string),
     (Z.of_nat (length gpu_ids) < W)%Z ->
     allocate_gpu_ids_meta (ParallelExecutor_default W) gpu_ids None available
     = Ret metas ->
     In id gpu_ids ->
     default_limit_spec W gpu_ids available metas id)
  /\ allocate_gpu_ids_meta (ParallelExecutor_default 4) ["0"; "1"] None
       [1000; 1000]%Z
     = Ret [("0", {| meta_gpu_memory_limit := Some (Float (float_lit 90));
                     meta_process_per_gpu := 11 |});
            ("1", {| meta_gpu_memory_limit := Some (Float (float_lit 90));
                     meta_process_per_gpu := 11 |})]
  /\ allocate_gpu_ids_meta (ParallelExecutor_default 10) ["0"] None
       [12000]%Z
     = Ret [("0", {| meta_gpu_memory_limit :=
                       Some (Float (S754_finite false 5629499534213136 (-46)));
                     meta_process_per_gpu := 149 |})]
  /\ float_lt (float_lit 80) (S754_finite false 5629499534213136 (-46))
     = true.
Proof.
  split_and!; [|by vm_compute..].
  intros W gpu_ids available metas id HGW Halloc Hid.
  unfold allocate_gpu_ids_meta in Halloc. cbn [num_workers epsilon
    ParallelExecutor_default] in Halloc.
  apply Z.ltb_lt in HGW. rewrite HGW in Halloc.
  destruct (int_truediv _ W) as [quotient|] eqn:Hquot; [|done].
  apply oversubscribed_loop_lookup in Halloc as [Hin _].
  destruct (Hin id Hid) as [m [Hm Hget]].
  apply oversubscribed_meta_inv in Hm
    as (idx & A & a & lim & ratio & ppg & Hidx & HA & Ha
        & (reserve & Hres & ->) & Hratio & Hppg & ->).
  cbn [num_workers ParallelExecutor_default] in Hres.
  unfold truediv in Hratio. rewrite Ha in Hratio.
  unfold int_of_float in Hppg.
  destruct (value_of_float ratio) as [| |q|] eqn:Hq; try done.
  injection Hppg as <-.
  exists idx, A, quotient, a, reserve, ratio, q.
  split_and!; try done. cbv zeta.
  split_and!; try done. apply int_of_Q_truncates.
Qed.

Lemma default_limit_formula_witness :
  default_limit_spec 4 ["0"; "1"] [1000; 1000]%Z
    [("0", {| meta_gpu_memory_limit := Some (Float (float_lit 90));
              meta_process_per_gpu := 11 |});
     ("1", {| meta_gpu_memory_limit := Some (Float (float_lit 90));
              meta_process_per_gpu := 11 |})] "1".
Proof.
  apply (proj1 default_limit_formula);
    [reflexivity|by vm_compute|simpl; tauto].
Defined.

(** C3, as stated, fails where the limit is negative: with 10 workers, one
    GPU and 4000 units available the limit is -640.0, the quotient -6.25, and
    the allocator records -6 where the floor is -7. *)
Lemma default_limit_not_floor :
  allocate_gpu_ids_meta (ParallelExecutor_default 10) ["0"] None [4000]%Z
  = Ret [("0", {| meta_gpu_memory_limit := Some (Float (float_lit (-640)));
                  meta_process_per_gpu := -6 |})]
  /\ truediv 4000 (Float (float_lit (-640))) = Ret (float_lit (-6.25))
  /\ exists q,
       value_of_float (float_lit (-6.25)) = Fin q
       /\ (q == -6.25)%Q
       /\ Qfloor q = (-7)%Z.
Proof.
  split_and!; [by vm_compute..|].
  eexists. split_and!; [reflexivity|by vm_compute..].
Qed.

(** ** The ladder of an explicit limit *)

Lemma Int_lt (x y : Z) : num_lt (Int x) (Int y) = (x <? y)%Z.
Proof.
  unfold num_lt, value, value_lt, Qltb, Qle_bool. simpl.
  rewrite !Z.mul_1_r. by rewrite Z.ltb_antisym.
Qed.

Lemma Int_eq (x y : Z) : num_eq (Int x) (Int y) = (x =? y)%Z.
Proof.
  unfold num_eq, value, value_eq, Qeq_bool. simpl.
  by rewrite !Z.mul_1_r.
Qed.

(** The ladder an explicit limit [L] goes through, for [A] units available,
    of which [half] is the half, and [R] units required. *)
Definition explicit_ladder (L : num) (A : Z) (R half : float) (final : num)
  : Prop :=
  exists clamped : num,
    (num_lt (Int A) L = true -> clamped = Int (A - 100))
    /\ (num_lt (Int A) L = false -> clamped = L)
    /\ (num_lt (Float R) clamped = true -> float_lt half R = true ->
        num_eq (Int A) clamped = false -> final = Int (A - 100))
    /\ (num_lt (Float R) clamped = true -> float_lt half R = true ->
        num_eq (Int A) clamped = true -> final = clamped)
    /\ (num_lt (Float R) clamped = true -> float_lt half R = false ->
        final = Float R)
    /\ (num_lt (Float R) clamped = false -> final = clamped)
    /\ num_lt (Int A) final = false.

Lemma explicit_limit_ladder (L : num) (A : Z) (a R : float) :
  explicit_ladder L A R (SFmul prec emax (float_lit 0.5) a)
    (explicit_limit L A a R).
Proof.
  unfold explicit_ladder, explicit_limit, epsilon_memory.
  set (half := SFmul _ _ _ _).
  assert (Hsmall : num_lt (Int A) (Int (A - 100)) = false)
    by (rewrite Int_lt; apply Z.ltb_ge; lia).
  assert (Hne : num_eq (Int A) (Int (A - 100)) = false)
    by (rewrite Int_eq; apply Z.eqb_neq; lia).
  assert (Hbetween : forall c,
            num_lt (Int A) c = false -> num_lt (Float R) c = true ->
            num_lt (Int A) (Float R) = false).
  { intros c Hc HR. destruct (num_lt (Int A) (Float R)) eqn:E; [|done].
    unfold num_lt in *. by rewrite (value_lt_trans _ _ _ E HR) in Hc. }
  destruct (num_lt (Int A) L) eqn:HAL.
  - exists (Int (A - 100)).
    destruct (num_lt (Float R) (Int (A - 100))) eqn:HR.
    + destruct (float_lt half R) eqn:Hhalf.
      * rewrite Hne. simpl. split_and!; intros; try done; congruence.
      * split_and!; intros; try done; try congruence. by eapply Hbetween.
    + split_and!; intros; try done; congruence.
  - exists L.
    destruct (num_lt (Float R) L) eqn:HR.
    + destruct (float_lt half R) eqn:Hhalf.
      * destruct (num_eq (Int A) L) eqn:Heq; simpl;
          split_and!; intros; try done; congruence.
      * split_and!; intros; try done; try congruence. by eapply Hbetween.
    + split_and!; intros; try done; congruence.
Qed.

(** What the allocator records for one GPU id when a limit was given. *)
Definition explicit_limit_spec (W : Z) (gpu_ids : list string) (L : num)
    (available : list Z) (metas : list (string * gpu_meta)) (id : string)
  : Prop :=
  exists idx A quotient a final ppg,
    int_of_string id = Ret idx
    /\ list_index available idx = Ret A
    /\ int_truediv (Z.of_nat (length gpu_ids)) W = Ret quotient
    /\ float_of_int A = Ret a
    /\ dict_get id metas
       = Some {| meta_gpu_memory_limit := Some final;
                 meta_process_per_gpu := ppg |}
    /\ let required :=
         SFmul prec emax (SFsub prec emax quotient (float_lit 0.01)) a in
       let half := SFmul prec emax (float_lit 0.5) a in
       explicit_ladder L A required half final.

(** C2, as amended: over-subscribed and with an explicit limit, a run of the
    allocator that does not raise records for every GPU id a limit that is
    never above available_memory, along this ladder: a configured limit above
    available_memory is first replaced by available_memory - 100; then, when
    required, the float (G/W - 0.01) * available_memory, is below that
    (clamped) limit and above half of available_memory, the limit becomes
    available_memory - 100, unless the clamped limit equals available_memory,
    which stays; when required is below the clamped limit and not above half
    of available_memory, the limit is lowered to required; otherwise the
    clamped limit stays.  The comparisons are made on the floats the code
    computes: with 3 workers, 2 GPUs, 12000 units available and a limit of
    7880, required is the float next below 7880, and the limit becomes
    11900. *)
Theorem explicit_limit_follows_ladder :
  (forall (W : Z) (gpu_ids : list string) (L : num) (available : list Z)
          (metas : list (string * gpu_meta)) (id : string),
     (Z.of_nat (length gpu_ids) < W)%Z ->
     allocate_gpu_ids_meta (ParallelExecutor_default W) gpu_ids (Some L)
       available
     = Ret metas ->
     In id gpu_ids ->
     explicit_limit_spec W gpu_ids L available metas id)
  /\ allocate_gpu_ids_meta (ParallelExecutor_default 3) ["0"; "1"]
       (Some (Int 7880)) [12000; 12000]%Z
     = Ret [("0", Build_gpu_meta (Some (Int 11900)) 1);
            ("1", Build_gpu_meta (Some (Int 11900)) 1)].
Proof.
  split; [|by vm_compute].
  intros W gpu_ids L available metas id HGW Halloc Hid.
  unfold allocate_gpu_ids_meta in Halloc.
  cbn [num_workers epsilon ParallelExecutor_default] in Halloc.
  apply Z.ltb_lt in HGW. rewrite HGW in Halloc.
  destruct (int_truediv _ W) as [quotient|] eqn:Hquot; [|done].
  apply oversubscribed_loop_lookup in Halloc as [Hin _].
  destruct (Hin id Hid) as [m [Hm Hget]].
  apply oversubscribed_meta_inv in Hm
    as (idx & A & a & lim & ratio & ppg & Hidx & HA & Ha & -> & _ & _ & ->).
  exists idx, A, quotient, a. do 2 eexists. split_and!; try done.
  apply explicit_limit_ladder.
Qed.

Lemma explicit_limit_follows_ladder_witness :
  explicit_limit_spec 4 ["0"] (Int 500) [1000]%Z
    [("0", {| meta_gpu_memory_limit := Some (Float (float_lit 240));
              meta_process_per_gpu := 4 |})] "0".
Proof.
  apply (proj1 explicit_limit_follows_ladder);
    [reflexivity|by vm_compute|simpl; tauto].
Defined.

(** C2, as stated, fails twice.  With 4 workers, 3 GPUs, 1000 units available
    and a limit of 1000, required is 740.0, above half of the available
    memory, and the limit stays 1000, above 1000 - 100.  With a limit of 100,
    required is again 740.0 and the limit stays 100: it is not set to
    1000 - 100. *)
Lemma explicit_limit_not_clamped :
  allocate_gpu_ids_meta (ParallelExecutor_default 4) ["0"; "1"; "2"]
    (Some (Int 1000)) [1000; 1000; 1000]%Z
  = Ret [("0", Build_gpu_meta (Some (Int 1000)) 1);
         ("1", Build_gpu_meta (Some (Int 1000)) 1);
         ("2", Build_gpu_meta (Some (Int 1000)) 1)]
  /\ num_lt (Int (1000 - 100)) (Int 1000) = true
  /\ allocate_gpu_ids_meta (ParallelExecutor_default 4) ["0"; "1"; "2"]
       (Some (Int 100)) [1000; 1000; 1000]%Z
     = Ret [("0", Build_gpu_meta (Some (Int 100)) 10);
            ("1", Build_gpu_meta (Some (Int 100)) 10);
            ("2", Build_gpu_meta (Some (Int 100)) 10)]
  /\ int_truediv 3 4 = Ret (float_lit 0.75)
  /\ SFmul prec emax (SFsub prec emax (float_lit 0.75) (float_lit 0.01))
       (float_lit 1000)
     = float_lit 740
  /\ float_lt (SFmul prec emax (float_lit 0.5) (float_lit 1000))
       (float_lit 740) = true
  /\ num_eq (Int 100) (Int (1000 - 100)) = false.
Proof. split_and!; by vm_compute. Qed.

(** ** What a step of an executor leaves alone *)

(** A computation respects a preorder on worlds when the world it ends in is
    related to the world it started in, however it ends. *)
Section Respects.
Context {St : Type} (Rel : relation (world St)).
Context `{!Reflexive Rel, !Transitive Rel}.

Definition respects {A} (m : E St A) : Prop := forall w, Rel w (m w).2.

Lemma respects_eret {A} (a : A) : respects (eret a).
Proof. intros w. simpl. reflexivity. Qed.

Lemma respects_eraise {A} (e : exn) : respects (@eraise St A e).
Proof. intros w. simpl. reflexivity. Qed.

Lemma respects_out_of_fuel {A} : respects (@out_of_fuel St A).
Proof. intros w. simpl. reflexivity. Qed.

Lemma respects_of_outcome {A} (o : outcome A) : respects (of_outcome o).
Proof. intros w. destruct o; simpl; reflexivity. Qed.

Lemma respects_run_trial ext args : respects (run_trial ext args).
Proof. intros w. unfold run_trial. apply respects_of_outcome. Qed.

Lemma respects_ebind {A B} (m : E St A) (k : A -> E St B) :
  respects m -> (forall a, respects (k a)) -> respects (ebind m k).
Proof.
  intros Hm Hk w. unfold ebind. specialize (Hm w).
  destruct (m w) as [[a|e| |] w1]; simpl in *; try done.
  etrans; [exact Hm|apply Hk].
Qed.

Lemma respects_try_finally {A} (body : E St A) (handler : E St unit) :
  respects body -> respects handler -> respects (try_finally body handler).
Proof.
  intros Hb Hh w. unfold try_finally. specialize (Hb w).
  destruct (body w) as [[a|e| |] w1]; simpl in *; try done.
  - specialize (Hh w1). destruct (handler w1) as [[?|?| |] w2]; simpl in *;
      by etrans.
  - specialize (Hh w1). destruct (handler w1) as [[?|?| |] w2]; simpl in *;
      by etrans.
Qed.

Lemma respects_pool_map {A B} (f : A -> E St B) (l : list A) :
  (forall x, respects (f x)) -> respects (pool_map f l).
Proof.
  intros Hf. induction l as [|x l IH]; simpl; [apply respects_eret|].
  apply respects_ebind; [apply Hf|]. intros y.
  apply respects_ebind; [apply IH|]. intros ys. apply respects_eret.
Qed.

(** Steps that touch only the store respect a relation that the store
    computation respects. *)
Lemma respects_lift {A} (m : M A) :
  (forall w, Rel w (with_heap w (m (w_heap w)).2)) -> respects (lift m).
Proof.
  intros H w. unfold lift. specialize (H w).
  destruct (m (w_heap w)) as [[a|e] h]; exact H.
Qed.
End Respects.

(** The slot queue is the same. *)
Definition same_queue {St} : relation (world St) :=
  fun w w' => w_queue w' = w_queue w.

(** No call was made to the sampler. *)
Definition same_calls {St} : relation (world St) :=
  fun w w' => w_calls w' = w_calls w /\ w_sampler w' = w_sampler w.

#[local] Instance same_queue_refl {St} : Reflexive (@same_queue St).
Proof. by intros w. Qed.
#[local] Instance same_queue_trans {St} : Transitive (@same_queue St).
Proof. unfold same_queue. intros w1 w2 w3 H1 H2. congruence. Qed.
#[local] Instance same_calls_refl {St} : Reflexive (@same_calls St).
Proof. by intros w. Qed.
#[local] Instance same_calls_trans {St} : Transitive (@same_calls St).
Proof. unfold same_calls. intros w1 w2 w3 [] []. split; congruence. Qed.

(** ** The GPU slot of a trial *)

(** C4: a GPU-gated trial either waits on an empty queue, having borrowed
    nothing, or it ends, by returning or by raising, with the slot it borrowed
    put back: the queue then holds as many slots as before the borrow (the
    borrowed one now last).  The workers of the pool are taken one at a time. *)
Theorem gpu_slot_returned {St} (self : HyperoptExecutor St) (ext : externals)
    (hyperopt_dict : hyperopt_dict) (w : world St) :
  match _train_and_eval_model_gpu self ext hyperopt_dict w with
  | (Blocked, w') => w_queue w = [] /\ w' = w
  | (OutOfFuel, _) => False
  | (_, w') =>
      length (w_queue w') = length (w_queue w)
      /\ exists s q, w_queue w = s :: q /\ w_queue w' = q ++ [s]
  end.
Proof.
  unfold _train_and_eval_model_gpu, ebind at 1, queue_get.
  destruct (w_queue w) as [|s q] eqn:Hq; [done|].
  set (body := ebind (run_trial ext _) _).
  assert (Hbody : respects same_queue body).
  { apply respects_ebind; [apply _|apply respects_run_trial; apply _|].
    intros st. apply respects_ebind; [apply _|apply respects_of_outcome; apply _|].
    intros score. apply respects_eret; apply _. }
  unfold try_finally, queue_put.
  specialize (Hbody (with_queue w q)). unfold same_queue in Hbody.
  assert (Hfuel : forall w1, body w1 = (OutOfFuel, snd (body w1)) -> False).
  { intros w1. subst body. unfold ebind, run_trial, of_outcome, eret.
    destruct (train_and_eval_on_split ext _ _); [|done].
    destruct (get_metric_score self _); done. }
  assert (Hblock : forall w1, body w1 = (Blocked, snd (body w1)) -> False).
  { intros w1. subst body. unfold ebind, run_trial, of_outcome, eret.
    destruct (train_and_eval_on_split ext _ _); [|done].
    destruct (get_metric_score self _); done. }
  unfold ebind. cbv beta.
  destruct (body (with_queue w q)) as [[r|e| |] w1] eqn:Hb; simpl in *.
  - destruct r as [[ps sc] st]. simpl. rewrite Hbody.
    split; [rewrite length_app; simpl; lia|eauto].
  - rewrite Hbody. split; [rewrite length_app; simpl; lia|eauto].
  - exfalso. apply (Hblock (with_queue w q)). by rewrite Hb.
  - exfalso. apply (Hfuel (with_queue w q)). by rewrite Hb.
Qed.

(** Both exits are real: here the training collaborator raises, and the two
    slots are there afterwards. *)
Example gpu_slot_returned_on_failure :
  let failing :=
    {| train_and_eval_on_split := fun _ _ => Raise (OtherError "out of memory");
       recursion_depth := 10;
       get_available_gpus_cuda_string := None;
       get_available_gpu_memory := Ret [] |} in
  let s0 := {| gpu_id := "0"; gpu_memory_limit := None |} in
  let s1 := {| gpu_id := "1"; gpu_memory_limit := None |} in
  let w := {| w_heap := example_heap; w_sampler := 0%nat; w_calls := [];
              w_queue := [s0; s1] |} in
  let hd := {| hd_parameters := [];
               hd_args := {| ta_model_definition := VRef 0; ta_trial_id := 0;
                             ta_gpus := None;
                             ta_gpu_memory_limit := None |} |} in
  match _train_and_eval_model_gpu example_self failing hd w with
  | (Raised e, w') => e = OtherError "out of memory" /\ w_queue w' = [s1; s0]
  | _ => False
  end.
Proof. vm_compute. done. Qed.

(** ** The sample, train, feed-back loop *)

Lemma ebind_Done_inv {St A B} (m : E St A) (k : A -> E St B) w b w' :
  ebind m k w = (Done b, w') ->
  exists a w1, m w = (Done a, w1) /\ k a w1 = (Done b, w').
Proof.
  unfold ebind. destruct (m w) as [[a|e| |] w1]; try done. eauto.
Qed.

Lemma try_finally_Done_inv {St A} (body : E St A) w a w' :
  try_finally body (eret tt) w = (Done a, w') -> body w = (Done a, w').
Proof.
  unfold try_finally, eret. destruct (body w) as [[?|?| |] w1]; congruence.
Qed.

(** Inverts a hypothesis [ebind m k w = (Done b, w')]. *)
Ltac ebind_inv H :=
  let a := fresh "a" in
  let w1 := fresh "w" in
  let H1 := fresh "Hstep" in
  apply ebind_Done_inv in H as (a & w1 & H1 & H).

Tactic Notation "ebind_inv_as" hyp(H) ident(a) ident(w1) ident(H1) :=
  apply ebind_Done_inv in H as (a & w1 & H1 & H).

(** What reaches the sampler for one trial. *)
Definition pair_of (r : trial_result) : sample * float :=
  (parameters r, metric_score r).

(** A sequence of whole rounds: the sampler said it was not finished, gave a
    batch, and was updated once, with one pair per sample of that batch, in
    the batch's order. *)
Inductive rounds : list sampler_call -> list (sample * float) -> Prop :=
| rounds_nil : rounds [] []
| rounds_cons batch pairs calls rest :
    map fst pairs = batch ->
    rounds calls rest ->
    rounds (CallFinished false :: CallSampleBatch batch
              :: CallUpdateBatch pairs :: calls)
      (pairs ++ rest).

(** A run that returned: whole rounds, then the sampler said it was finished;
    the trials returned are those reported to the sampler. *)
Definition batched_run (before after : list sampler_call)
    (out : list trial_result) : Prop :=
  exists calls pairs,
    after = before ++ calls ++ [CallFinished true]
    /\ rounds calls pairs
    /\ map pair_of out ≡ₚ pairs.

Section LoopFacts.
Context {St : Type} (self : HyperoptExecutor St) (ext : externals).

Lemma modified_definition_calls md ps :
  respects same_calls (modified_definition (St:=St) ext md ps).
Proof.
  apply respects_ebind; [apply _| |intros c];
    apply respects_lift; intros w; by split.
Qed.

Lemma zip_pair_of (new : list trial_result) :
  zip (map parameters new) (map metric_score new) = map pair_of new.
Proof. induction new as [|r new IH]; simpl; [done|by rewrite IH]. Qed.

Lemma map_fst_pair_of (new : list trial_result) :
  map fst (map pair_of new) = map parameters new.
Proof. induction new as [|r new IH]; simpl; [done|by rewrite IH]. Qed.

(** *** One batch of the serial executor *)
Lemma serial_batch_Done md gpus lim trials i sampled scores results w r w' :
  serial_batch self ext md gpus lim trials i sampled scores results w
  = (Done r, w') ->
  same_calls w w'
  /\ exists new, r = (scores ++ map metric_score new, results ++ new)
                 /\ map parameters new = sampled.
Proof.
  revert i scores results w r.
  induction sampled as [|ps rest IH]; intros i scores results w r; simpl.
  - intros [= <- <-]. split; [done|]. exists [].
    by rewrite !app_nil_r.
  - intros H. ebind_inv H. ebind_inv H. ebind_inv H.
    apply IH in H as [Hc (new & -> & Hps)].
    pose proof (modified_definition_calls md ps w) as H1.
    rewrite Hstep in H1. simpl in H1.
    pose proof (respects_run_trial same_calls ext
      {| ta_model_definition := a; ta_trial_id := (trials + i)%nat;
         ta_gpus := gpus; ta_gpu_memory_limit := lim |} w0) as H2.
    rewrite Hstep0 in H2. simpl in H2.
    pose proof (respects_of_outcome same_calls
      (get_metric_score self a0.2) w1) as H3.
    rewrite Hstep1 in H3. simpl in H3.
    split; [by repeat (etrans; [eassumption|])|].
    exists ({| parameters := ps; metric_score := a1;
               training_stats := a0.1; eval_stats := a0.2 |} :: new).
    rewrite <- !app_assoc. simpl.
    split; [reflexivity|by rewrite Hps].
Qed.

(** *** One batch of the parallel executor *)
Lemma parallel_parameters_Done md gpus lim trials i sampled acc
    (w : world St) hp w' :
  parallel_parameters ext md gpus lim trials i sampled acc w = (Done hp, w') ->
  same_calls w w'
  /\ exists new, hp = acc ++ new /\ map hd_parameters new = sampled.
Proof.
  revert i acc w hp.
  induction sampled as [|ps rest IH]; intros i acc w hp; simpl.
  - intros [= <- <-]. split; [done|]. exists []. by rewrite app_nil_r.
  - intros H. ebind_inv H.
    apply IH in H as [Hc (new & -> & Hps)].
    pose proof (modified_definition_calls md ps w) as H1.
    rewrite Hstep in H1. simpl in H1.
    split; [by etrans|].
    eexists (_ :: new). rewrite <- app_assoc. simpl.
    split; [reflexivity|by rewrite Hps].
Qed.

Lemma _train_and_eval_model_Done hd w r w' :
  _train_and_eval_model self ext hd w = (Done r, w') ->
  same_calls w w' /\ parameters r = hd_parameters hd.
Proof.
  unfold _train_and_eval_model. intros H.
  ebind_inv H. ebind_inv H. injection H as <- <-.
  pose proof (respects_run_trial same_calls ext (hd_args hd) w) as H1.
  rewrite Hstep in H1.
  pose proof (respects_of_outcome same_calls
    (get_metric_score self a.2) w0) as H2.
  rewrite Hstep0 in H2. simpl in *. split; [by etrans|done].
Qed.

Lemma _train_and_eval_model_gpu_Done hd w r w' :
  _train_and_eval_model_gpu self ext hd w = (Done r, w') ->
  same_calls w w' /\ parameters r = hd_parameters hd.
Proof.
  unfold _train_and_eval_model_gpu, ebind, queue_get, try_finally,
    queue_put, run_trial, of_outcome, eret.
  destruct (w_queue w) as [|s q] eqn:Hq; [done|]. simpl.
  destruct (train_and_eval_on_split ext _ _) as [st|]; [|done].
  destruct (get_metric_score self _) as [sc|]; [|done]. simpl.
  intros [= <- <-]. by split.
Qed.

Lemma pool_map_Done {A B} (f : A -> E St B) (P : A -> B -> Prop) l w ys w' :
  (forall x w y w', f x w = (Done y, w') -> same_calls w w' /\ P x y) ->
  pool_map f l w = (Done ys, w') ->
  same_calls w w' /\ Forall2 P l ys.
Proof.
  intros Hf. revert w ys.
  induction l as [|x l IH]; intros w ys; simpl.
  - intros [= <- <-]. split; [done|constructor].
  - intros H. ebind_inv H. ebind_inv H. injection H as <- <-.
    apply Hf in Hstep as [? ?]. apply IH in Hstep0 as [? ?].
    split; [by etrans|by constructor].
Qed.

(** *** One batch of the fiber executor *)
Lemma fiber_arguments_Done md gpus lim trials i sampled
    (w : world St) args w' :
  fiber_arguments ext md gpus lim trials i sampled w = (Done args, w') ->
  same_calls w w' /\ length args = length sampled.
Proof.
  revert i w args.
  induction sampled as [|ps rest IH]; intros i w args; simpl.
  - by intros [= <- <-].
  - intros H. ebind_inv H. ebind_inv H. injection H as <- <-.
    apply IH in Hstep0 as [Hc Hlen].
    pose proof (modified_definition_calls md ps w) as H1.
    rewrite Hstep in H1. simpl in *. split; [by etrans|by rewrite Hlen].
Qed.

Lemma fiber_collect_Done pairs scores results w r w' :
  fiber_collect self pairs scores results w = (Done r, w') ->
  same_calls w w'
  /\ exists new, r = (scores ++ map metric_score new, results ++ new)
                 /\ map parameters new = map snd pairs.
Proof.
  revert scores results w r.
  induction pairs as [|[st ps] rest IH]; intros scores results w r; simpl.
  - intros [= <- <-]. split; [done|]. exists []. by rewrite !app_nil_r.
  - intros H. ebind_inv H.
    apply IH in H as [Hc (new & -> & Hps)].
    pose proof (respects_of_outcome same_calls
      (get_metric_score self st.2) w) as H3.
    rewrite Hstep in H3. simpl in H3.
    split; [by etrans|].
    exists ({| parameters := ps; metric_score := a;
               training_stats := st.1; eval_stats := st.2 |} :: new).
    rewrite <- !app_assoc. simpl.
    split; [reflexivity|by rewrite Hps].
Qed.
End LoopFacts.

Section Loops.
Context {St : Type} (self : HyperoptExecutor St) (ext : externals).

(** The state of a loop that returned, seen from the head of the loop. *)
Definition loop_returns (w w' : world St)
    (results out : list trial_result) : Prop :=
  exists calls pairs,
    w_calls w' = w_calls w ++ calls ++ [CallFinished true]
    /\ rounds calls pairs
    /\ map pair_of out = map pair_of results ++ pairs.

Lemma loop_returns_now (w : world St) results :
  loop_returns w
    (with_sampler w (w_sampler w) (CallFinished true)) results results.
Proof.
  exists [], []. simpl. split_and!; [done|constructor|by rewrite app_nil_r].
Qed.

(** One more round before a loop that returned. *)
Lemma loop_returns_round (w w1 w2 w3 w' : world St) batch st new
    results results' out :
  w1 = with_sampler (with_sampler w (w_sampler w) (CallFinished false))
         st (CallSampleBatch batch) ->
  same_calls w1 w2 ->
  map parameters new = batch ->
  results' = results ++ new ->
  w3 = with_sampler w2 (update_batch (hyperopt_sampler self)
                          (map pair_of new) (w_sampler w2))
         (CallUpdateBatch (map pair_of new)) ->
  loop_returns w3 w' results' out ->
  loop_returns w w' results out.
Proof.
  intros -> [Hc _] Hnew -> -> (calls & pairs & Hcalls & Hrounds & Hout).
  exists (CallFinished false :: CallSampleBatch batch
            :: CallUpdateBatch (map pair_of new) :: calls),
         (map pair_of new ++ pairs).
  split_and!.
  - rewrite Hcalls. simpl. rewrite Hc. simpl.
    rewrite <- !app_assoc. done.
  - constructor; [|done]. by rewrite map_fst_pair_of.
  - rewrite Hout, map_app, <- app_assoc. done.
Qed.

(** The head of every loop: the sampler is asked whether it is finished
    and, if it is not, for a batch. *)
Ltac loop_head H w Hfin batch st :=
  let b := fresh "b" in
  let w0 := fresh "w" in
  let Hs := fresh "Hs" in
  ebind_inv_as H b w0 Hs; unfold call_finished in Hs;
  injection Hs as <- <-;
  destruct (finished (hyperopt_sampler self) (w_sampler w)) eqn:Hfin;
  [ injection H as <- <-; apply loop_returns_now
  | ebind_inv_as H b w0 Hs; unfold call_sample_batch in Hs; simpl in Hs;
    destruct (sample_batch (hyperopt_sampler self) (w_sampler w))
      as [batch st];
    injection Hs as <- <- ].

Lemma SerialExecutor_loop_Done fuel md gpus lim results trials w out w' :
  SerialExecutor_loop self ext fuel md gpus lim results trials w
  = (Done out, w') ->
  loop_returns w w' results out.
Proof.
  revert results trials w.
  induction fuel as [|fuel IH]; intros results trials w; simpl; [done|].
  intros H. loop_head H w Hfin batch st.
  ebind_inv_as H r w2 Hb.
  apply serial_batch_Done in Hb as [Hc (new & -> & Hnew)].
  ebind_inv_as H u w3 Hu. unfold call_update_batch in Hu.
  injection Hu as <- <-. simpl in H.
  apply IH in H.
  eapply loop_returns_round;
    [reflexivity|exact Hc|exact Hnew|reflexivity|reflexivity|].
  rewrite <- Hnew, zip_pair_of in H. exact H.
Qed.

Lemma ParallelExecutor_loop_Done fuel md gpus lim results trials w out w' :
  ParallelExecutor_loop self ext fuel md gpus lim results trials w
  = (Done out, w') ->
  loop_returns w w' results out.
Proof.
  revert results trials w.
  induction fuel as [|fuel IH]; intros results trials w; simpl; [done|].
  intros H. loop_head H w Hfin batch st.
  ebind_inv_as H hps w2 Hb.
  apply parallel_parameters_Done in Hb as [Hc (hp & -> & Hhp)].
  simpl in Hhp. ebind_inv_as H brs w3 Hm.
  assert (same_calls w2 w3 /\
          Forall2 (fun hd r => parameters r = hd_parameters hd) hp brs)
    as [Hc' Hps].
  { destruct gpus;
      (eapply pool_map_Done; [|exact Hm]); intros x wx y wy Hx.
    - by apply _train_and_eval_model_gpu_Done in Hx.
    - by apply _train_and_eval_model_Done in Hx. }
  ebind_inv_as H u w4 Hu. unfold call_update_batch in Hu.
  injection Hu as <- <-. simpl in H.
  apply IH in H.
  eapply loop_returns_round;
    [reflexivity|by etrans| |reflexivity|reflexivity|exact H].
  rewrite <- Hhp. clear -Hps.
  induction Hps as [|hd r hp brs Hr _ IHps]; simpl; [done|].
  by rewrite Hr, IHps.
Qed.

Lemma pool_map_length {A B} (f : A -> E St B) l w ys w' :
  pool_map f l w = (Done ys, w') -> length ys = length l.
Proof.
  revert w ys. induction l as [|x l IH]; intros w ys; simpl.
  - by intros [= <- <-].
  - intros H. ebind_inv_as H y w1 Hy. ebind_inv_as H ys' w2 Hys.
    injection H as <- <-. simpl. f_equal. eauto.
Qed.

Lemma FiberExecutor_loop_Done fuel md gpus lim results trials w out w' :
  FiberExecutor_loop self ext fuel md gpus lim results trials w
  = (Done out, w') ->
  loop_returns w w' results out.
Proof.
  revert results trials w.
  induction fuel as [|fuel IH]; intros results trials w; simpl; [done|].
  intros H. loop_head H w Hfin batch st.
  ebind_inv_as H args w2 Hb.
  apply fiber_arguments_Done in Hb as [Hc Hlen].
  ebind_inv_as H stats_batch w3 Hm.
  pose proof (pool_map_length _ _ _ _ _ Hm) as Hlen'.
  eapply (pool_map_Done _ (fun _ _ => True)) in Hm as [Hc' _];
    [|intros x wx y wy Hx; split; [|done];
      pose proof (respects_run_trial same_calls ext x wx) as Hr;
      unfold _train_and_eval_on_split_unary in Hx; by rewrite Hx in Hr].
  ebind_inv_as H r w4 Hcol.
  apply fiber_collect_Done in Hcol as [Hc'' (new & -> & Hnew)].
  rewrite snd_zip in Hnew by lia.
  ebind_inv_as H u w5 Hu. unfold call_update_batch in Hu.
  injection Hu as <- <-. simpl in H.
  apply IH in H.
  eapply loop_returns_round;
    [reflexivity|by repeat (etrans; [eassumption|])|exact Hnew
    |reflexivity|reflexivity|].
  rewrite <- Hnew, zip_pair_of in H. exact H.
Qed.
End Loops.

Lemma ParallelExecutor_setup_calls {St} ext attrs g lim :
  respects same_calls (ParallelExecutor_setup (St:=St) ext attrs g lim).
Proof.
  unfold ParallelExecutor_setup.
  apply respects_ebind; [apply _|apply respects_of_outcome; apply _|].
  intros available.
  apply respects_ebind; [apply _|apply respects_of_outcome; apply _|].
  intros metas.
  apply respects_ebind; [apply _|apply respects_of_outcome; apply _|].
  intros filled w. by split.
Qed.

Lemma loop_returns_sorted {St} (self : HyperoptExecutor St)
    (w w' : world St) (results : list trial_result) :
  loop_returns w w' [] results ->
  batched_run (w_calls w) (w_calls w') (sort_hyperopt_results self results).
Proof.
  intros (calls & pairs & Hcalls & Hrounds & Hout).
  exists calls, pairs. split_and!; [done|done|].
  simpl in Hout. rewrite <- Hout.
  apply Permutation_map. unfold sort_hyperopt_results. apply sorted_perm.
Qed.

(** C7: in a run that returns, which is one in which every trial completed,
    of any of the three executors, the calls made to the sampler are whole
    rounds, each a [finished] answered no, a [sample_batch] and one
    [update_batch] with one (parameters, score) pair per sample of that
    batch, followed by the [finished] answered yes on which the loop exits;
    the trials returned are exactly those reported.  With a sampler that
    gives one batch of two samples and is then finished, each executor
    returns two results after one [update_batch] with two pairs. *)
Theorem feedback_once_per_batch :
  (forall St (cls : executor_class) (self : HyperoptExecutor St)
          (attrs : ParallelExecutor_attrs) (ext : externals) (fuel : nat)
          (model_definition : val) (gpus : option gpus_arg)
          (gpu_memory_limit : option num) (w w' : world St)
          (out : list trial_result),
     execute cls self attrs ext fuel model_definition gpus gpu_memory_limit w
     = (Done out, w') ->
     batched_run (w_calls w) (w_calls w') out)
  /\ (forall cls,
        exists r1 r2 w' p1 p2,
          execute cls example_self (ParallelExecutor_default 4) example_ext 5
            (VRef 0) None None example_world
          = (Done [r1; r2], w')
          /\ w_calls w'
             = [CallFinished false; CallSampleBatch example_batch;
                CallUpdateBatch [p1; p2]; CallFinished true]).
Proof.
  split.
  - intros St cls self attrs ext fuel md gpus lim w w' out.
    destruct cls; simpl.
    + unfold SerialExecutor_execute. intros H.
      ebind_inv_as H results w1 Hloop. injection H as <- <-.
      apply SerialExecutor_loop_Done in Hloop.
      by apply loop_returns_sorted.
    + unfold ParallelExecutor_execute. intros H.
      ebind_inv_as H prepared w1 Hprep.
      assert (same_calls w w1) as [Hc _].
      { destruct (match gpus with
                  | Some _ => gpus
                  | None => option_map GpuStr
                              (get_available_gpus_cuda_string ext)
                  end) as [g|].
        - ebind_inv_as Hprep r w2 Hset. injection Hprep as <- <-.
          pose proof (ParallelExecutor_setup_calls ext attrs g lim w) as Hs.
          by rewrite Hset in Hs.
        - by injection Hprep as <- <-. }
      destruct prepared as [gpus' lim'].
      destruct (num_workers attrs <? 1)%Z; [done|].
      ebind_inv_as H results w2 Hloop. injection H as <- <-.
      apply try_finally_Done_inv, ParallelExecutor_loop_Done in Hloop.
      rewrite <- Hc. by apply loop_returns_sorted.
    + unfold FiberExecutor_execute. intros H.
      ebind_inv_as H results w1 Hloop. injection H as <- <-.
      apply FiberExecutor_loop_Done in Hloop.
      by apply loop_returns_sorted.
  - intros []; do 5 eexists; split; vm_compute; reflexivity.
Qed.

Lemma feedback_once_per_batch_witness :
  batched_run []
    (w_calls
       (execute SerialExecutor example_self (ParallelExecutor_default 4)
          example_ext 5 (VRef 0) None None example_world).2)
    [scored_by_rate 0.1%Q [("training.learning_rate", VFloat 0.1%Q);
                           ("text.encoder", VStr "cnn")];
     scored_by_rate 0.001%Q [("training.learning_rate", VFloat 0.001%Q)]].
Proof.
  apply (proj1 feedback_once_per_batch nat SerialExecutor example_self
           (ParallelExecutor_default 4) example_ext 5%nat (VRef 0) None None
           example_world).
  vm_compute. reflexivity.
Defined.

(** ** What a store computation may write *)

Lemma bind_Ret_inv {A B} (m : M A) (k : A -> M B) h b h' :
  bind m k h = (Ret b, h') ->
  exists a h1, m h = (Ret a, h1) /\ k a h1 = (Ret b, h').
Proof. unfold bind. destruct (m h) as [[a|e] h1]; [eauto|done]. Qed.

Tactic Notation "bind_inv_as" hyp(H) ident(a) ident(h1) ident(H1) :=
  apply bind_Ret_inv in H as (a & h1 & H1 & H).

(** The values an object holds. *)
Definition obj_vals (o : obj) : list val :=
  match o with
  | ODict items => map snd items
  | OList elems => elems
  end.

(** [reach h v a]: the object at [a] is [v] itself or is reached from [v]
    through the entries of dicts and the elements of lists. *)
Inductive reach (h : heap) : val -> addr -> Prop :=
| reach_here a : reach h (VRef a) a
| reach_step a o v b :
    h !! a = Some o -> In v (obj_vals o) -> reach h v b ->
    reach h (VRef a) b.

(** A region [region] of the store [h0] and everything allocated after [h0]
    may be written; the rest may only be read.  The invariant of a store [h]
    that evolved from [h0]: what may be written refers only to what may be
    written, and the rest is as it was in [h0]. *)
Section Frame.
Context (region : addr -> Prop) (h0 : heap).

Definition writable (a : addr) : Prop := region a \/ length h0 <= a.

Definition val_ok (v : val) : Prop :=
  match v with
  | VRef a => writable a
  | _ => True
  end.

Definition obj_ok (o : obj) : Prop := Forall val_ok (obj_vals o).

Definition frame_inv (h : heap) : Prop :=
  length h0 <= length h
  /\ (forall a o, writable a -> h !! a = Some o -> obj_ok o)
  /\ (forall a, ~ writable a -> h !! a = h0 !! a).

Definition framed {A} (P : A -> Prop) (m : M A) : Prop :=
  forall h, frame_inv h ->
    frame_inv (m h).2
    /\ match (m h).1 with
       | Ret a => P a
       | Raise _ => True
       end.

Definition any {A} : A -> Prop := fun _ => True.

Lemma framed_ret {A} (P : A -> Prop) (a : A) : P a -> framed P (ret a).
Proof. by intros HP h Hh. Qed.

Lemma framed_raise {A} (P : A -> Prop) (e : exn) : framed P (raise e).
Proof. by intros h Hh. Qed.

Lemma framed_bind {A B} (P : A -> Prop) (Q : B -> Prop)
    (m : M A) (k : A -> M B) :
  framed P m -> (forall a, P a -> framed Q (k a)) -> framed Q (bind m k).
Proof.
  intros Hm Hk h Hh. unfold bind. destruct (Hm h Hh) as [H1 H2].
  destruct (m h) as [[a|e] h1]; simpl in *; [|done].
  by apply Hk.
Qed.

Lemma dict_set_ok k v items :
  val_ok v -> obj_ok (ODict items) -> obj_ok (ODict (dict_set k v items)).
Proof.
  unfold obj_ok. simpl. intros Hv.
  induction items as [|[k' v'] items IH]; simpl; intros Hall.
  - by repeat constructor.
  - inversion Hall as [|? ? Hv' Hrest]; subst.
    destruct (String.eqb k k'); simpl; constructor; auto.
Qed.

Lemma dict_get_ok k v items :
  obj_ok (ODict items) -> dict_get k items = Some v -> val_ok v.
Proof.
  unfold obj_ok. simpl.
  induction items as [|[k' v'] items IH]; simpl; intros Hall; [done|].
  inversion Hall as [|? ? Hv' Hrest]; subst.
  destruct (String.eqb k k'); [by intros [= <-]|auto].
Qed.

Lemma framed_alloc (o : obj) : obj_ok o -> framed writable (alloc o).
Proof.
  intros Ho h (Hlen & Hclosed & Hsame). unfold alloc. cbn [fst snd].
  split; [|right; lia]. split_and!.
  - rewrite length_app. simpl. lia.
  - intros a o' Ha Hlook.
    destruct (decide (a < length h)) as [Hlt|Hge].
    + rewrite lookup_app_l in Hlook by done. eauto.
    + rewrite lookup_app_r in Hlook by lia.
      destruct (a - length h) as [|n]; simpl in Hlook; [|done].
      by injection Hlook as <-.
  - intros a Ha. rewrite <- (Hsame a Ha). apply lookup_app_l.
    unfold writable in Ha. lia.
Qed.

(** Reading is always allowed; what is read in the writable part refers
    to the writable part. *)
Lemma framed_read (a : addr) : framed any (read a).
Proof.
  intros h Hh. unfold read. destruct (h !! a); by split.
Qed.

Lemma framed_read_ok (a : addr) : writable a -> framed obj_ok (read a).
Proof.
  intros Ha h Hh. unfold read. destruct (h !! a) as [o|] eqn:Hlook;
    split; simpl; try done.
  destruct Hh as (_ & Hclosed & _). eauto.
Qed.

Lemma framed_write (a : addr) (o : obj) :
  writable a -> obj_ok o -> framed any (write a o).
Proof.
  intros Ha Ho h (Hlen & Hclosed & Hsame). unfold write. cbn [fst snd].
  split; [|done]. split_and!.
  - by rewrite length_insert.
  - intros b o' Hb Hlook.
    destruct (decide (a = b)) as [->|Hne].
    + destruct (decide (b < length h)) as [Hlt|Hge].
      * rewrite list_lookup_insert_eq in Hlook by done.
        by injection Hlook as <-.
      * rewrite list_insert_ge in Hlook by lia. eauto.
    + rewrite list_lookup_insert_ne in Hlook by done. eauto.
  - intros b Hb. rewrite list_lookup_insert_ne; [by apply Hsame|].
    intros ->. done.
Qed.

Lemma framed_getitem (c : val) (k : string) :
  val_ok c -> framed val_ok (getitem c k).
Proof.
  intros Hc. destruct c; try apply framed_raise. simpl in Hc.
  unfold getitem.
  eapply framed_bind; [by apply framed_read_ok|].
  intros [items|elems] Ho; [|apply framed_raise].
  destruct (dict_get k items) as [v|] eqn:Hget; [|apply framed_raise].
  apply framed_ret. by eapply dict_get_ok.
Qed.

Lemma framed_setitem (c : val) (k : string) (v : val) :
  val_ok c -> val_ok v -> framed any (setitem c k v).
Proof.
  intros Hc Hv. destruct c; try apply framed_raise. simpl in Hc.
  unfold setitem.
  eapply framed_bind; [by apply framed_read_ok|].
  intros [items|elems] Ho; [|apply framed_raise].
  apply framed_write; [done|]. by apply dict_set_ok.
Qed.

Lemma framed_isinstance_dict (v : val) : framed any (isinstance_dict v).
Proof.
  destruct v; try by apply framed_ret. unfold isinstance_dict.
  eapply framed_bind; [apply framed_read|].
  intros [?|?] _; by apply framed_ret.
Qed.

Lemma framed_contains (d name : val) : framed any (contains d name).
Proof.
  destruct d; try apply framed_raise. unfold contains.
  eapply framed_bind; [apply framed_read|].
  intros [items|elems] _; [|apply framed_raise].
  destruct name; try apply framed_raise; by apply framed_ret.
Qed.

Lemma framed_getitem_val (d name : val) :
  val_ok d -> framed val_ok (getitem_val d name).
Proof.
  intros Hd. destruct name; simpl; try apply framed_raise;
    try by apply framed_getitem.
  all: destruct d; try apply framed_raise;
    (eapply framed_bind; [apply framed_read|]);
    intros [?|?] _; apply framed_raise.
Qed.
Lemma framed_dict_iter rem i n a (body : string -> val -> M unit) :
  writable a ->
  (forall k v, val_ok v -> framed any (body k v)) ->
  framed any (dict_iter rem i n a body).
Proof.
  intros Ha Hbody. revert i.
  induction rem as [|rem IH]; intros i; simpl.
  - eapply framed_bind; [by apply framed_read_ok|].
    intros [items|elems] Ho; [|apply framed_raise].
    destruct (length items =? n)%nat; [|apply framed_raise].
    by apply framed_ret.
  - eapply framed_bind; [by apply framed_read_ok|].
    intros [items|elems] Ho; [|apply framed_raise].
    destruct (length items =? n)%nat; [|apply framed_raise].
    destruct (items !! i) as [[k v]|] eqn:Hi; [|by apply framed_ret].
    eapply framed_bind; [|intros _ _; apply IH].
    apply Hbody. unfold obj_ok in Ho. simpl in Ho.
    rewrite Forall_forall in Ho. apply (Ho v).
    apply list_elem_of_fmap. exists (k, v). split; [done|].
    by eapply list_elem_of_lookup_2.
Qed.

Lemma framed_for_items d (body : string -> val -> M unit) :
  val_ok d ->
  (forall k v, val_ok v -> framed any (body k v)) ->
  framed any (for_items d body).
Proof.
  intros Hd Hbody. destruct d; try apply framed_raise. simpl in Hd.
  unfold for_items.
  eapply framed_bind; [apply framed_read|].
  intros [items|elems] _; [|apply framed_raise].
  by apply framed_dict_iter.
Qed.

Lemma framed_for_list {A} (P : A -> Prop) (l : list A) (body : A -> M unit) :
  Forall P l ->
  (forall x, P x -> framed any (body x)) ->
  framed any (for_list l body).
Proof.
  intros Hl Hbody. induction Hl as [|x l Hx Hl IH]; simpl.
  - by apply framed_ret.
  - eapply framed_bind; [by apply Hbody|]. intros _ _. apply IH.
Qed.

Lemma framed_for_each c (body : val -> M unit) :
  val_ok c ->
  (forall v, val_ok v -> framed any (body v)) ->
  framed any (for_each c body).
Proof.
  intros Hc Hbody. destruct c; try apply framed_raise.
  - simpl. apply (framed_for_list any); [by apply Forall_true|].
    intros ch _. by apply Hbody.
  - unfold for_each. simpl in Hc.
    eapply framed_bind; [by apply framed_read_ok|].
    intros [items|elems] Ho.
    + apply framed_for_items; [done|]. intros k v _. by apply Hbody.
    + by apply (framed_for_list val_ok).
Qed.

Lemma framed_get_or_new curr k :
  val_ok curr -> framed val_ok (get_or_new curr k).
Proof.
  intros Hc. destruct curr; try apply framed_raise. simpl in Hc.
  unfold get_or_new.
  eapply framed_bind; [by apply framed_read_ok|].
  intros [items|elems] Ho; [|apply framed_raise].
  eapply framed_bind; [apply framed_alloc; by constructor|].
  intros fresh Hfresh.
  destruct (dict_get k items) as [v|] eqn:Hget; apply framed_ret;
    [by eapply dict_get_ok|done].
Qed.

Lemma framed_assign_path curr path value :
  val_ok curr -> val_ok value -> framed any (assign_path curr path value).
Proof.
  intros Hc Hv. revert curr Hc.
  induction path as [|k rest IH]; intros curr Hc.
  - by apply framed_ret.
  - destruct rest as [|k' rest'].
    + by apply framed_setitem.
    + cbn [assign_path].
      eapply framed_bind; [by apply framed_get_or_new|].
      intros d Hd.
      eapply framed_bind; [by apply framed_setitem|].
      intros _ _. by apply IH.
Qed.

(** A sample whose values may be written. *)
Definition sample_ok (ps : sample) : Prop :=
  Forall (fun kv => val_ok kv.2) ps.

Lemma framed_get_parameters_dict ps :
  sample_ok ps -> framed val_ok (get_parameters_dict ps).
Proof.
  intros Hps. unfold get_parameters_dict.
  eapply framed_bind; [apply framed_alloc; by constructor|].
  intros pd Hpd.
  eapply framed_bind; [|intros _ _; by apply framed_ret].
  eapply framed_for_list; [exact Hps|].
  intros [name value] Hv. by apply framed_assign_path.
Qed.

Lemma framed_set_values model_dict name pd :
  val_ok model_dict -> val_ok pd ->
  framed any (set_values model_dict name pd).
Proof.
  intros Hm Hpd. unfold set_values.
  eapply framed_bind; [apply framed_contains|].
  intros [|] _; [|by apply framed_ret].
  eapply framed_bind; [by apply framed_getitem_val|].
  intros params Hparams.
  apply framed_for_items; [done|].
  intros key value Hvalue.
  eapply framed_bind; [apply framed_isinstance_dict|].
  intros [|] _; [|by apply framed_setitem].
  apply framed_for_items; [done|].
  intros sub_key sub_value Hsub.
  eapply framed_bind; [by apply framed_getitem|].
  intros target Htarget. by apply framed_setitem.
Qed.

Lemma framed_substitute_parameters md ps :
  val_ok md -> sample_ok ps ->
  framed val_ok (substitute_parameters md ps).
Proof.
  intros Hmd Hps. unfold substitute_parameters.
  eapply framed_bind; [by apply framed_get_parameters_dict|].
  intros pd Hpd.
  eapply framed_bind; [by apply framed_getitem|]. intros ifs Hifs.
  eapply framed_bind.
  { apply framed_for_each; [done|]. intros f Hf.
    eapply framed_bind; [by apply framed_getitem|]. intros name _.
    by apply framed_set_values. }
  intros _ _.
  eapply framed_bind; [by apply framed_getitem|]. intros ofs Hofs.
  eapply framed_bind.
  { apply framed_for_each; [done|]. intros f Hf.
    eapply framed_bind; [by apply framed_getitem|]. intros name _.
    by apply framed_set_values. }
  intros _ _.
  eapply framed_bind; [by apply framed_getitem|]. intros c Hc.
  eapply framed_bind; [by apply framed_set_values|]. intros _ _.
  eapply framed_bind; [by apply framed_getitem|]. intros t Ht.
  eapply framed_bind; [by apply framed_set_values|]. intros _ _.
  eapply framed_bind; [by apply framed_getitem|]. intros p Hp.
  eapply framed_bind; [by apply framed_set_values|]. intros _ _.
  by apply framed_ret.
Qed.

(** *** Deep copies are made of fresh objects *)

Definition fresh (a : addr) : Prop := length h0 <= a.

Definition val_fresh (v : val) : Prop :=
  match v with
  | VRef a => fresh a
  | _ => True
  end.

Definition memo_fresh (m : memo) : Prop := Forall (fun ay => fresh ay.2) m.

Lemma val_fresh_ok v : val_fresh v -> val_ok v.
Proof. destruct v; simpl; try done. by right. Qed.

Lemma memo_get_fresh a m y : memo_fresh m -> memo_get a m = Some y -> fresh y.
Proof.
  induction m as [|[a' y'] m IH]; simpl; [done|].
  intros Hm. inversion Hm as [|? ? Hy Hrest]; subst.
  destruct (a =? a')%nat; [by intros [= <-]|auto].
Qed.

Lemma framed_list_append c v :
  val_ok c -> val_ok v -> framed any (list_append c v).
Proof.
  intros Hc Hv. destruct c; try apply framed_raise. simpl in Hc.
  unfold list_append.
  eapply framed_bind; [by apply framed_read_ok|].
  intros [items|elems] Ho; [apply framed_raise|].
  apply framed_write; [done|].
  unfold obj_ok in *. simpl in *. apply Forall_app. by repeat constructor.
Qed.

Definition copied (r : val * memo) : Prop := val_fresh r.1 /\ memo_fresh r.2.

Lemma framed_alloc_fresh (o : obj) : obj_ok o -> framed fresh (alloc o).
Proof.
  intros Ho h Hh. destruct (framed_alloc o Ho h Hh) as [H1 _].
  split; [done|]. simpl. by destruct Hh.
Qed.

Lemma framed_deepcopy depth x m :
  memo_fresh m -> framed copied (deepcopy depth x m).
Proof.
  revert x m. induction depth as [|depth IH]; intros x m Hm.
  - destruct x; simpl; try by apply framed_ret.
    destruct (memo_get a m) as [y|] eqn:Hy; [|apply framed_raise].
    apply framed_ret. split; [|done]. simpl. by eapply memo_get_fresh.
  - destruct x; simpl; try by apply framed_ret.
    destruct (memo_get a m) as [y|] eqn:Hy.
    { apply framed_ret. split; [|done]. simpl. by eapply memo_get_fresh. }
    eapply framed_bind; [apply framed_read|].
    intros [items|elems] _.
    + eapply framed_bind; [apply framed_alloc_fresh; by constructor|].
      intros y Hfresh.
      eapply (framed_bind memo_fresh);
        [|intros m' Hm'; by apply framed_ret].
      assert (Hm1 : memo_fresh ((a, y) :: m)) by by constructor.
      revert Hm1. generalize ((a, y) :: m). clear Hm Hy.
      induction items as [|[k v] items IHitems]; intros m1 Hm1.
      * by apply framed_ret.
      * eapply framed_bind; [by apply IH|]. intros r [Hr1 Hr2].
        eapply (framed_bind any);
          [apply (framed_setitem (VRef y) k r.1);
             [by right|by apply val_fresh_ok]|].
        intros _ _. by apply IHitems.
    + eapply framed_bind; [apply framed_alloc_fresh; by constructor|].
      intros y Hfresh.
      eapply (framed_bind memo_fresh);
        [|intros m' Hm'; by apply framed_ret].
      assert (Hm1 : memo_fresh ((a, y) :: m)) by by constructor.
      revert Hm1. generalize ((a, y) :: m). clear Hm Hy.
      induction elems as [|v elems IHelems]; intros m1 Hm1.
      * by apply framed_ret.
      * eapply framed_bind; [by apply IH|]. intros r [Hr1 Hr2].
        eapply (framed_bind any);
          [apply (framed_list_append (VRef y) r.1);
             [by right|by apply val_fresh_ok]|].
        intros _ _. by apply IHelems.
Qed.

Lemma framed_deepcopy_top depth x : framed val_ok (deepcopy_top depth x).
Proof.
  unfold deepcopy_top.
  eapply framed_bind; [apply framed_deepcopy; constructor|].
  intros r [Hr _]. apply framed_ret. by apply val_fresh_ok.
Qed.
End Frame.

(** ** Substitution works in place, on the copy each trial makes *)

Lemma for_unit_ret (m : M unit) (c : val) h v h' :
  bind m (fun _ => ret c) h = (Ret v, h') -> v = c.
Proof.
  unfold bind, ret. destruct (m h) as [[[]|e] h1]; [by intros [= <- _]|done].
Qed.

Lemma substitute_parameters_returns_argument md ps h v h' :
  substitute_parameters md ps h = (Ret v, h') -> v = md.
Proof.
  unfold substitute_parameters. intros H.
  bind_inv_as H pd h1 H1. bind_inv_as H ifs h2 H2.
  bind_inv_as H u1 h3 H3. bind_inv_as H ofs h4 H4.
  bind_inv_as H u2 h5 H5. bind_inv_as H c h6 H6.
  bind_inv_as H u3 h7 H7. bind_inv_as H t h8 H8.
  bind_inv_as H u4 h9 H9. bind_inv_as H p h10 H10.
  by apply for_unit_ret in H.
Qed.

(** The store is well formed when every reference it holds is to an object
    it holds. *)
Definition wf_heap (h : heap) : bool :=
  forallb
    (fun o =>
       forallb
         (fun v => match v with
                   | VRef a => (a <? length h)%nat
                   | _ => true
                   end) (obj_vals o)) h.

Lemma reach_wf h v a :
  wf_heap h = true ->
  reach h v a ->
  (forall a0, v = VRef a0 -> a0 < length h) ->
  a < length h.
Proof.
  intros Hwf. induction 1 as [a|a o v b Hlook Hin Hreach IH]; intros Hv.
  - by apply Hv.
  - apply IH. intros a0 ->.
    unfold wf_heap in Hwf. rewrite forallb_forall in Hwf.
    assert (Ho : In o h).
    { apply list_elem_of_In. by eapply list_elem_of_lookup_2. }
    specialize (Hwf o Ho). rewrite forallb_forall in Hwf.
    specialize (Hwf _ Hin). simpl in Hwf. by apply Nat.ltb_lt in Hwf.
Qed.

(** The store's writable part is as the frame invariant asks, at the start. *)
Lemma frame_inv_start region (h : heap) :
  (forall a o, region a -> h !! a = Some o -> obj_ok region h o) ->
  frame_inv region h h.
Proof.
  intros Hclosed. split_and!; [done| |done].
  intros a o [Ha|Ha] Hlook; [eauto|].
  apply lookup_lt_Some in Hlook. lia.
Qed.

(** What an executor's step does to the store, as a preorder on worlds. *)
Definition frame_rel {St} region h0 : relation (world St) :=
  fun w w' => frame_inv region h0 (w_heap w) -> frame_inv region h0 (w_heap w').

#[local] Instance frame_rel_refl {St} region h0 :
  Reflexive (@frame_rel St region h0).
Proof. intros w H. exact H. Qed.
#[local] Instance frame_rel_trans {St} region h0 :
  Transitive (@frame_rel St region h0).
Proof. unfold frame_rel. intros w1 w2 w3 H1 H2 H. auto. Qed.

Section ExecutorFrame.
Context {St : Type} (self : HyperoptExecutor St) (ext : externals).
Context (region : addr -> Prop) (h0 : heap).

Local Abbreviation Rel := (@frame_rel St region h0).

(** Every sample the sampler can give holds only values of the writable
    region. *)
Definition sampler_ok : Prop :=
  forall st,
    Forall (sample_ok region h0) (sample_batch (hyperopt_sampler self) st).1.

Lemma modified_definition_frame md ps :
  sample_ok region h0 ps ->
  respects Rel (modified_definition (St:=St) ext md ps).
Proof.
  intros Hps w Hinv. unfold modified_definition, ebind, lift.
  destruct (framed_deepcopy_top region h0 (recursion_depth ext) md
              (w_heap w) Hinv) as [H1 H2].
  destruct (deepcopy_top (recursion_depth ext) md (w_heap w))
    as [[c|e] h1]; simpl in *; [|done].
  destruct (framed_substitute_parameters region h0 c ps H2 Hps h1 H1)
    as [H3 _].
  by destruct (substitute_parameters c ps h1) as [[v|e] h2].
Qed.

Lemma call_finished_frame sampler : respects Rel (call_finished sampler).
Proof. intros w H. exact H. Qed.

Lemma call_update_batch_frame sampler pairs :
  respects Rel (call_update_batch sampler pairs).
Proof. intros w H. exact H. Qed.

Lemma serial_batch_frame md gpus lim trials i sampled scores results :
  Forall (sample_ok region h0) sampled ->
  respects Rel
    (serial_batch self ext md gpus lim trials i sampled scores results).
Proof.
  intros Hs. revert i scores results.
  induction Hs as [|ps rest Hps Hrest IH]; intros i scores results; simpl.
  - apply respects_eret; apply _.
  - apply respects_ebind; [apply _|by apply modified_definition_frame|].
    intros c.
    apply respects_ebind; [apply _|apply respects_run_trial; apply _|].
    intros st.
    apply respects_ebind; [apply _|apply respects_of_outcome; apply _|].
    intros sc. apply IH.
Qed.

Lemma parallel_parameters_frame md gpus lim trials i sampled acc :
  Forall (sample_ok region h0) sampled ->
  respects Rel
    (parallel_parameters (St:=St) ext md gpus lim trials i sampled acc).
Proof.
  intros Hs. revert i acc.
  induction Hs as [|ps rest Hps Hrest IH]; intros i acc; simpl.
  - apply respects_eret; apply _.
  - apply respects_ebind; [apply _|by apply modified_definition_frame|].
    intros c. apply IH.
Qed.

Lemma fiber_arguments_frame md gpus lim trials i sampled :
  Forall (sample_ok region h0) sampled ->
  respects Rel (fiber_arguments (St:=St) ext md gpus lim trials i sampled).
Proof.
  intros Hs. revert i.
  induction Hs as [|ps rest Hps Hrest IH]; intros i; simpl.
  - apply respects_eret; apply _.
  - apply respects_ebind; [apply _|by apply modified_definition_frame|].
    intros c. apply respects_ebind; [apply _|apply IH|].
    intros others. apply respects_eret; apply _.
Qed.

Lemma fiber_collect_frame pairs scores results :
  respects Rel (fiber_collect self pairs scores results).
Proof.
  revert scores results.
  induction pairs as [|[st ps] rest IH]; intros scores results; simpl.
  - apply respects_eret; apply _.
  - apply respects_ebind; [apply _|apply respects_of_outcome; apply _|].
    intros sc. apply IH.
Qed.

Lemma _train_and_eval_model_frame hd :
  respects Rel (_train_and_eval_model self ext hd).
Proof.
  unfold _train_and_eval_model.
  apply respects_ebind; [apply _|apply respects_run_trial; apply _|].
  intros st.
  apply respects_ebind; [apply _|apply respects_of_outcome; apply _|].
  intros sc. apply respects_eret; apply _.
Qed.

Lemma _train_and_eval_model_gpu_frame hd :
  respects Rel (_train_and_eval_model_gpu self ext hd).
Proof.
  unfold _train_and_eval_model_gpu.
  apply respects_ebind; [apply _| |].
  { intros w H. unfold queue_get. by destruct (w_queue w). }
  intros s. apply respects_ebind; [apply _| |].
  - apply respects_try_finally; [apply _| |intros w H; exact H].
    apply respects_ebind; [apply _|apply respects_run_trial; apply _|].
    intros st.
    apply respects_ebind; [apply _|apply respects_of_outcome; apply _|].
    intros sc. apply respects_eret; apply _.
  - intros [[ps sc] st]. apply respects_eret; apply _.
Qed.

Context (Hsampler : sampler_ok).

Lemma call_sample_batch_frame (k : list sample -> E St (list trial_result)) :
  (forall batch, Forall (sample_ok region h0) batch -> respects Rel (k batch)) ->
  respects Rel (ebind (call_sample_batch (hyperopt_sampler self)) k).
Proof.
  intros Hk w Hinv. unfold ebind, call_sample_batch.
  specialize (Hsampler (w_sampler w)).
  destruct (sample_batch (hyperopt_sampler self) (w_sampler w))
    as [batch st]. simpl in *.
  by apply (Hk batch Hsampler).
Qed.

Lemma SerialExecutor_loop_frame fuel md gpus lim results trials :
  respects Rel (SerialExecutor_loop self ext fuel md gpus lim results trials).
Proof.
  revert results trials.
  induction fuel as [|fuel IH]; intros results trials; simpl.
  - apply respects_out_of_fuel; apply _.
  - apply respects_ebind; [apply _|apply call_finished_frame|].
    intros [|]; [apply respects_eret; apply _|].
    apply call_sample_batch_frame. intros batch Hbatch.
    apply respects_ebind; [apply _|by apply serial_batch_frame|].
    intros r.
    apply respects_ebind; [apply _|apply call_update_batch_frame|].
    intros _. apply IH.
Qed.

Lemma ParallelExecutor_loop_frame fuel md gpus lim results trials :
  respects Rel
    (ParallelExecutor_loop self ext fuel md gpus lim results trials).
Proof.
  revert results trials.
  induction fuel as [|fuel IH]; intros results trials; simpl.
  - apply respects_out_of_fuel; apply _.
  - apply respects_ebind; [apply _|apply call_finished_frame|].
    intros [|]; [apply respects_eret; apply _|].
    apply call_sample_batch_frame. intros batch Hbatch.
    apply respects_ebind; [apply _|by apply parallel_parameters_frame|].
    intros hps.
    apply respects_ebind; [apply _| |].
    { destruct gpus; apply respects_pool_map; try apply _.
      - apply _train_and_eval_model_gpu_frame.
      - apply _train_and_eval_model_frame. }
    intros brs.
    apply respects_ebind; [apply _|apply call_update_batch_frame|].
    intros _. apply IH.
Qed.

Lemma FiberExecutor_loop_frame fuel md gpus lim results trials :
  respects Rel (FiberExecutor_loop self ext fuel md gpus lim results trials).
Proof.
  revert results trials.
  induction fuel as [|fuel IH]; intros results trials; simpl.
  - apply respects_out_of_fuel; apply _.
  - apply respects_ebind; [apply _|apply call_finished_frame|].
    intros [|]; [apply respects_eret; apply _|].
    apply call_sample_batch_frame. intros batch Hbatch.
    apply respects_ebind; [apply _|by apply fiber_arguments_frame|].
    intros args.
    apply respects_ebind; [apply _| |].
    { apply respects_pool_map; try apply _. intros x.
      apply respects_run_trial; apply _. }
    intros stats_batch.
    apply respects_ebind; [apply _|apply fiber_collect_frame|].
    intros r.
    apply respects_ebind; [apply _|apply call_update_batch_frame|].
    intros _. apply IH.
Qed.

Lemma execute_frame cls attrs fuel md gpus lim :
  respects Rel (execute cls self attrs ext fuel md gpus lim).
Proof.
  destruct cls; simpl.
  - apply respects_ebind; [apply _|apply SerialExecutor_loop_frame|].
    intros r. apply respects_eret; apply _.
  - unfold ParallelExecutor_execute.
    apply respects_ebind; [apply _| |].
    { destruct (match gpus with
                | Some _ => gpus
                | None => option_map GpuStr
                            (get_available_gpus_cuda_string ext)
                end) as [g|]; [|apply respects_eret; apply _].
      apply respects_ebind; [apply _| |intros r; apply respects_eret; apply _].
      unfold ParallelExecutor_setup.
      apply respects_ebind; [apply _|apply respects_of_outcome; apply _|].
      intros available.
      apply respects_ebind; [apply _|apply respects_of_outcome; apply _|].
      intros metas.
      apply respects_ebind; [apply _|apply respects_of_outcome; apply _|].
      intros filled w H. exact H. }
    intros [gpus' lim'].
    destruct (num_workers attrs <? 1)%Z; [apply respects_eraise; apply _|].
    apply respects_ebind; [apply _| |intros r; apply respects_eret; apply _].
    apply respects_try_finally;
      [apply _|apply ParallelExecutor_loop_frame|apply respects_eret; apply _].
  - apply respects_ebind; [apply _|apply FiberExecutor_loop_frame|].
    intros r. apply respects_eret; apply _.
Qed.
End ExecutorFrame.

(** Everything reachable from [md] in [h] is the same object in [h']. *)
Definition unchanged_from (h : heap) (md : val) (h' : heap) : Prop :=
  forall a, reach h md a -> h' !! a = h !! a.

(** C8: whatever the executor and however its run ends, every object that was
    reachable from the base configuration when [execute] was called is the
    same afterwards, so the base configuration is structurally unchanged.
    The sampler's samples may hold references into a region of the store that
    is closed under reference and apart from the base configuration (none, if
    their values are scalars); the training collaborator only reads the
    store. *)
Theorem base_configuration_unchanged {St} (cls : executor_class)
    (self : HyperoptExecutor St) (attrs : ParallelExecutor_attrs)
    (ext : externals) (fuel : nat) (model_definition : val)
    (gpus : option gpus_arg) (gpu_memory_limit : option num) (w : world St)
    (region : addr -> Prop) :
  (forall a o, region a -> w_heap w !! a = Some o ->
               obj_ok region (w_heap w) o) ->
  sampler_ok self region (w_heap w) ->
  (forall a, reach (w_heap w) model_definition a ->
             a < length (w_heap w) /\ ~ region a) ->
  unchanged_from (w_heap w) model_definition
    (w_heap (execute cls self attrs ext fuel model_definition gpus
               gpu_memory_limit w).2).
Proof.
  intros Hclosed Hsampler Hbase a Ha.
  pose proof (execute_frame self ext region (w_heap w) Hsampler cls attrs fuel
                model_definition gpus gpu_memory_limit w
                (frame_inv_start _ _ Hclosed)) as (_ & _ & Hsame).
  apply Hsame. destruct (Hbase a Ha) as [Hlt Hreg].
  intros [?|?]; [done|lia].
Qed.

Lemma example_reach_allocated a :
  reach example_heap (VRef 0) a -> a < length example_heap.
Proof.
  intros H. eapply reach_wf; [by vm_compute|exact H|].
  intros a0 [= <-]. simpl. lia.
Qed.

Lemma example_sampler_scalar :
  sampler_ok example_self (fun _ => False) example_heap.
Proof. intros st. simpl. repeat constructor. Qed.

Lemma base_configuration_unchanged_witness :
  unchanged_from example_heap (VRef 0)
    (w_heap (execute ParallelExecutor example_self (ParallelExecutor_default 4)
               example_ext 5 (VRef 0) (Some (GpuStr "0,1")) None
               example_world).2).
Proof.
  apply (base_configuration_unchanged ParallelExecutor example_self
           (ParallelExecutor_default 4) example_ext 5 (VRef 0)
           (Some (GpuStr "0,1")) None example_world (fun _ => False)).
  - intros a o [].
  - exact example_sampler_scalar.
  - intros a Ha. split; [by apply example_reach_allocated|tauto].
Defined.

(** A sampler whose one sample holds, as the value of "x", the training
    section of the example configuration, and a parameter "x.learning_rate". *)
Definition aliasing_sampler : HyperoptSampler nat :=
  {| finished := fun st => (1 <=? st)%nat;
     sample_batch := fun st =>
       ([ [("x", VRef 6); ("x.learning_rate", VFloat 0.5%Q)] ], st);
     update_batch := fun _ st => Datatypes.S st;
     goal := MAXIMIZE |}.

Definition aliasing_self : HyperoptExecutor nat :=
  {| hyperopt_sampler := aliasing_sampler;
     output_feature := "label";
     metric := "accuracy";
     split := "validation" |}.

(** C8, as stated, fails: a sample may hold an object of the base
    configuration, and [get_parameters_dict] writes into the values of the
    sample.  With the sample above the run of the serial executor returns its
    one result, and the training section of the base configuration, which the
    trial's deep copy does not protect, holds another learning rate than
    before. *)
Lemma base_configuration_changed_through_sample :
  let run := execute SerialExecutor aliasing_self (ParallelExecutor_default 4)
               example_ext 5 (VRef 0) None None example_world in
  (exists result, run.1 = Done [result])
  /\ reach example_heap (VRef 0) 6
  /\ example_heap !! 6%nat
     = Some (ODict [("learning_rate", VFloat 0.01%Q); ("batch_size", VInt 128)])
  /\ w_heap run.2 !! 6%nat
     = Some (ODict [("learning_rate", VFloat 0.5%Q); ("batch_size", VInt 128)])
  /\ ~ unchanged_from example_heap (VRef 0) (w_heap run.2).
Proof.
  assert (Hreach : reach example_heap (VRef 0) 6).
  { eapply reach_step; [reflexivity| |apply reach_here]. simpl. tauto. }
  split_and!; try reflexivity; [by eexists; vm_compute|done|].
  intros H. specialize (H 6 Hreach). vm_compute in H. discriminate H.
Qed.

(** The deep copy a trial is given is made of objects allocated for it. *)
Lemma modified_definition_fresh {St} ext md ps (w w' : world St) v :
  modified_definition ext md ps w = (Done v, w') ->
  val_fresh (w_heap w) v.
Proof.
  unfold modified_definition. intros H.
  ebind_inv_as H c w1 Hcopy. unfold lift in Hcopy, H.
  pose proof (frame_inv_start (fun _ => False) (w_heap w)
                ltac:(intros ? ? []) : frame_inv _ _ _) as Hinv.
  assert (Hc : val_fresh (w_heap w) c).
  { unfold deepcopy_top, bind in Hcopy.
    pose proof (framed_deepcopy (fun _ => False) (w_heap w)
                  (recursion_depth ext) md [] ltac:(constructor)
                  (w_heap w) Hinv) as [_ Hr].
    destruct (deepcopy (recursion_depth ext) md [] (w_heap w))
      as [[r|e] h1]; simpl in *; [|done].
    injection Hcopy as <- _. by destruct Hr. }
  destruct (substitute_parameters c ps (w_heap w1)) as [[v'|e] h2] eqn:Hs;
    [|done].
  injection H as <- _.
  by apply substitute_parameters_returns_argument in Hs as ->.
Qed.

(** ** [set_values] does not create a missing sub-mapping *)

(** [v] refers to a dict of the store. *)
Definition is_dict_ref (h : heap) (v : val) : Prop :=
  exists a items, v = VRef a /\ h !! a = Some (ODict items).

Lemma read_Ret_inv a h o h' :
  read a h = (Ret o, h') -> h' = h /\ h !! a = Some o.
Proof. unfold read. destruct (h !! a); [by intros [= <- <-]|done]. Qed.

Lemma dict_get_lookup {V} (k : string) (v : V) items :
  dict_get k items = Some v ->
  exists i, items !! i = Some (k, v)
            /\ forall j k' v', j < i -> items !! j = Some (k', v') -> k' <> k.
Proof.
  induction items as [|[k0 v0] items IH]; simpl; [done|].
  destruct (String.eqb_spec k k0) as [->|Hne].
  - intros [= ->]. exists 0. split; [done|]. intros; lia.
  - intros H. destruct (IH H) as (i & Hi & Hbefore). exists (Datatypes.S i).
    split; [done|]. intros [|j] k' v' Hj; simpl.
    + intros [= <- <-]. done.
    + intros Hlook. eapply Hbefore; [|exact Hlook]. lia.
Qed.

Lemma dict_set_not_nil {V} (k : string) (v : V) items : dict_set k v items <> [].
Proof. destruct items as [|[k' v'] items]; simpl; [done|]. by destruct (String.eqb k k'). Qed.

(** Overwriting a dict with a dict keeps every reference of its kind. *)
Lemma is_dict_ref_insert h o items items' v :
  h !! o = Some (ODict items) ->
  is_dict_ref (<[o := ODict items']> h) v <-> is_dict_ref h v.
Proof.
  intros Ho. unfold is_dict_ref. split; intros (a & its & -> & Ha).
  - destruct (decide (o = a)) as [->|Hne]; [by eauto|].
    rewrite list_lookup_insert_ne in Ha by done. eauto.
  - destruct (decide (o = a)) as [->|Hne].
    + exists a, items'. split; [done|]. apply list_lookup_insert_eq.
      by eapply lookup_lt_Some.
    + exists a, its. by rewrite list_lookup_insert_ne.
Qed.

Lemma Forall_dict_set {V} (P : string * V -> Prop) k v items :
  Forall P items -> P (k, v) -> Forall P (dict_set k v items).
Proof.
  intros Hall Hkv. induction Hall as [|[k' v'] items Hx Hall IH]; simpl.
  - by repeat constructor.
  - destruct (String.eqb k k'); by constructor.
Qed.

Section SetValuesFails.
Context (t p c : addr) (K : string) (params : list (string * val)).
Context (HK : dict_get K params = Some (VRef c)).

(** What holds of the store while the entries before [K] are merged: the
    dict being iterated is intact, the child mapping of [K] is a dict with at
    least one entry, and the target holds no dict under [K] and refers neither
    to itself nor to the dict being iterated. *)
Definition merge_inv (h : heap) : Prop :=
  h !! p = Some (ODict params)
  /\ (exists sub, h !! c = Some (ODict sub) /\ sub <> [])
  /\ exists titems,
       h !! t = Some (ODict titems)
       /\ (forall v, dict_get K titems = Some v -> ~ is_dict_ref h v)
       /\ Forall (fun kv => kv.2 <> VRef t /\ kv.2 <> VRef p) titems.

Lemma merge_inv_target_not_params h : merge_inv h -> t <> p.
Proof.
  intros (Hp & (sub & Hc & _) & titems & Ht & HKt & _) ->.
  rewrite Hp in Ht. injection Ht as <-.
  apply (HKt _ HK). by exists c, sub.
Qed.

(** The innermost assignment, [model_dict[key][sub_key] = sub_value]. *)
Definition assign_sub (key sub_key : string) (sub_value : val) : M unit :=
  target <- getitem (VRef t) key ;;
  setitem target sub_key sub_value.

Lemma assign_sub_raises key sub_key sub_value h e h' :
  assign_sub key sub_key sub_value h = (Raise e, h') -> h' = h.
Proof.
  unfold assign_sub, getitem, setitem, bind, read, write, ret, raise.
  intros H. repeat case_match; by simplify_eq.
Qed.

Lemma assign_sub_preserves key sub_key sub_value h r h' :
  merge_inv h ->
  assign_sub key sub_key sub_value h = (r, h') ->
  merge_inv h'.
Proof.
  intros Hinv H. destruct r as [[]|e];
    [|by apply assign_sub_raises in H as ->].
  pose proof (merge_inv_target_not_params h Hinv) as Htp.
  destruct Hinv as (Hp & (sub & Hc & Hsub) & titems & Ht & HKt & Hall).
  unfold assign_sub in H. bind_inv_as H target h1 Hget.
  unfold getitem in Hget. bind_inv_as Hget o h2 Hread.
  apply read_Ret_inv in Hread as [-> Hread].
  rewrite Ht in Hread. injection Hread as <-.
  destruct (dict_get key titems) as [v|] eqn:Hkey; [|done].
  injection Hget as <- <-.
  destruct v as [| | | | |o]; try done.
  unfold setitem in H. bind_inv_as H ob h3 Hread.
  apply read_Ret_inv in Hread as [-> Ho].
  destruct ob as [oitems|]; [|done].
  unfold write in H. injection H as <-.
  apply dict_get_Some_In in Hkey.
  rewrite Forall_forall in Hall.
  destruct (Hall (key, VRef o)) as [Hot Hop];
    [by apply list_elem_of_In|]. simpl in *.
  assert (o <> t) by congruence. assert (o <> p) by congruence.
  split_and!.
  - by rewrite list_lookup_insert_ne.
  - destruct (decide (o = c)) as [->|Hoc].
    + eexists. split; [apply list_lookup_insert_eq; by eapply lookup_lt_Some|].
      apply dict_set_not_nil.
    + exists sub. by rewrite list_lookup_insert_ne.
  - exists titems. split_and!.
    + by rewrite list_lookup_insert_ne.
    + intros v Hv Hd. apply (HKt v Hv).
      by eapply is_dict_ref_insert.
    + by apply Forall_forall.
Qed.

(** A loop over a live dict keeps what its body keeps, however it ends. *)
Lemma dict_iter_preserves (P : heap -> Prop) rem i n a
    (body : string -> val -> M unit) h r h' :
  (forall k v h1 r1 h2, P h1 -> body k v h1 = (r1, h2) -> P h2) ->
  P h ->
  dict_iter rem i n a body h = (r, h') ->
  P h'.
Proof.
  intros Hbody. revert i h.
  induction rem as [|rem IH]; intros i h HP H; simpl in H.
  - unfold bind, read, ret, raise in H. repeat case_match; by simplify_eq.
  - unfold bind at 1 in H. unfold read, raise in H.
    destruct (h !! a) as [[items|elems]|]; try by simplify_eq.
    destruct (_ =? _)%nat; [|by simplify_eq].
    destruct (items !! i) as [[k v]|]; [|unfold ret in H; by simplify_eq].
    unfold bind at 1 in H.
    destruct (body k v h) as [[[]|e] h1] eqn:Hb.
    + eapply IH; [|exact H]. eauto.
    + simplify_eq. eauto.
Qed.

(** The body of the loop over [params.items()]. *)
Definition merge_entry (key : string) (value : val) : M unit :=
  is_dict <- isinstance_dict value ;;
  if (is_dict : bool) then
    for_items value (fun sub_key sub_value =>
      target <- getitem (VRef t) key ;;
      setitem target sub_key sub_value)
  else setitem (VRef t) key value.

Lemma isinstance_dict_same v h r h' :
  isinstance_dict v h = (r, h') -> h' = h.
Proof.
  unfold isinstance_dict, bind, read, ret. intros H.
  repeat case_match; by simplify_eq.
Qed.

Lemma isinstance_dict_false v h h' :
  isinstance_dict v h = (Ret false, h') -> ~ is_dict_ref h v.
Proof.
  unfold isinstance_dict, bind, read, ret. intros H (a & items & -> & Ha).
  rewrite Ha in H. by simplify_eq.
Qed.

Lemma setitem_raises c0 k v h e h' :
  setitem c0 k v h = (Raise e, h') -> h' = h.
Proof.
  unfold setitem, bind, read, write, raise. intros H.
  repeat case_match; by simplify_eq.
Qed.

Lemma merge_entry_preserves key value h r h' :
  key <> K ->
  merge_inv h ->
  merge_entry key value h = (r, h') ->
  merge_inv h'.
Proof.
  intros Hkey Hinv H. unfold merge_entry in H. unfold bind at 1 in H.
  destruct (isinstance_dict value h) as [[is_dict|e] h1] eqn:Hisd;
    pose proof (isinstance_dict_same _ _ _ _ Hisd) as ->;
    [|by simplify_eq].
  destruct is_dict.
  - unfold for_items in H. destruct value as [| | | | |a];
      try (unfold raise in H; by simplify_eq).
    unfold bind at 1 in H. unfold read in H.
    destruct (h !! a) as [[items|elems]|];
      try (unfold raise in H; by simplify_eq).
    eapply (dict_iter_preserves merge_inv); [|exact Hinv|exact H].
    intros k v h1 r1 h2 H1 H2. by eapply (assign_sub_preserves key).
  - apply isinstance_dict_false in Hisd as Hnd.
    destruct r as [[]|e]; [|by apply setitem_raises in H as ->].
    pose proof (merge_inv_target_not_params h Hinv) as Htp.
    destruct Hinv as (Hp & (sub & Hc & Hsub) & titems & Ht & HKt & Hall).
    unfold setitem in H. bind_inv_as H o h2 Hread.
    apply read_Ret_inv in Hread as [-> Hread].
    rewrite Ht in Hread. injection Hread as <-.
    unfold write in H. injection H as <-.
    assert (Hlt : t < length h) by by eapply lookup_lt_Some.
    split_and!.
    + by rewrite list_lookup_insert_ne.
    + destruct (decide (t = c)) as [->|Htc].
      * eexists. split; [by apply list_lookup_insert_eq|].
        apply dict_set_not_nil.
      * exists sub. by rewrite list_lookup_insert_ne.
    + eexists. split_and!; [by apply list_lookup_insert_eq| |].
      * intros v. rewrite dict_get_set_ne by done. intros Hv Hd.
        apply (HKt v Hv). by eapply is_dict_ref_insert.
      * apply Forall_dict_set; [done|]. simpl.
        split; intros ->; apply Hnd; [by exists t, titems|by exists p, params].
Qed.

Lemma read_Some a h o : h !! a = Some o -> read a h = (Ret o, h).
Proof. unfold read. by intros ->. Qed.

(** At [K] the merge fails on the first entry of the child mapping. *)
Lemma merge_entry_fails h :
  merge_inv h -> exists e, merge_entry K (VRef c) h = (Raise e, h).
Proof.
  intros (Hp & (sub & Hc & Hsub) & titems & Ht & HKt & Hall).
  destruct sub as [|[k0 v0] sub']; [done|].
  unfold merge_entry, bind, isinstance_dict, bind.
  rewrite (read_Some _ _ _ Hc). unfold ret.
  unfold for_items, bind. rewrite (read_Some _ _ _ Hc).
  cbn [length dict_iter]. unfold bind. rewrite (read_Some _ _ _ Hc).
  rewrite Nat.eqb_refl. cbn [lookup list_lookup].
  unfold getitem, bind. rewrite (read_Some _ _ _ Ht).
  destruct (dict_get K titems) as [v|] eqn:Hv; [|by eauto].
  unfold ret, setitem.
  destruct v as [| | | | |a]; try by eauto.
  unfold bind, read. destruct (h !! a) as [[items|elems]|] eqn:Ha;
    [|by eauto|by eauto].
  exfalso. apply (HKt _ eq_refl). by exists a, items.
Qed.

(** The loop over [params.items()] fails at [K] if not before. *)
Lemma dict_iter_fails idx rem i h :
  params !! idx = Some (K, VRef c) ->
  (forall j k' v', j < idx -> params !! j = Some (k', v') -> k' <> K) ->
  i <= idx -> idx < i + rem ->
  merge_inv h ->
  exists e h',
    dict_iter rem i (length params) p merge_entry h = (Raise e, h')
    /\ merge_inv h'.
Proof.
  intros Hidx Hbefore. revert i h.
  induction rem as [|rem IH]; intros i h Hi Hrem Hinv; [lia|].
  pose proof Hinv as (Hp & _).
  cbn [dict_iter]. unfold bind at 1. rewrite (read_Some _ _ _ Hp).
  rewrite Nat.eqb_refl.
  destruct (decide (i = idx)) as [->|Hne].
  - rewrite Hidx. unfold bind.
    destruct (merge_entry_fails h Hinv) as (e & ->). eauto.
  - assert (Hlt : i < idx) by lia.
    destruct (params !! i) as [[k v]|] eqn:Hentry.
    + unfold bind.
      assert (Hk : k <> K) by by eapply Hbefore.
      destruct (merge_entry k v h) as [[[]|e] h1] eqn:Hbody.
      * apply IH; [lia|lia|].
        by eapply merge_entry_preserves.
      * exists e, h1. split; [done|]. by eapply merge_entry_preserves.
    + apply lookup_ge_None in Hentry. apply lookup_lt_Some in Hidx. lia.
Qed.
End SetValuesFails.

(** C10, as amended: when [name] is a key of [parameters_dict] and one of
    the child values under it is a mapping with at least one entry, keyed by
    strings as every mapping here, while [target_section] holds no mapping
    under that child key (the key is absent, or its value is no dict), the
    merge fails with an error and does not create the sub-mapping; this for a
    target that refers neither to itself nor to the mapping being merged.  The failure can come after earlier child keys
    were written: merging {"a": 1, "k": {"x": 2}} into an empty target raises
    [KeyError] and leaves {"a": 1} in the target. *)
Theorem set_values_needs_existing_mapping :
  (forall (h : heap) (t d p c : addr) (name K : string)
          (titems ditems params sub : list (string * val)),
     h !! t = Some (ODict titems) ->
     h !! d = Some (ODict ditems) ->
     dict_get name ditems = Some (VRef p) ->
     h !! p = Some (ODict params) ->
     dict_get K params = Some (VRef c) ->
     h !! c = Some (ODict sub) ->
     sub <> [] ->
     (forall v, dict_get K titems = Some v -> ~ is_dict_ref h v) ->
     Forall (fun kv => kv.2 <> VRef t /\ kv.2 <> VRef p) titems ->
     exists e h',
       set_values (VRef t) (VStr name) (VRef d) h = (Raise e, h')
       /\ forall titems', h' !! t = Some (ODict titems') ->
                          forall v, dict_get K titems' = Some v ->
                                    ~ is_dict_ref h' v)
  /\ set_values (VRef 0) (VStr "t") (VRef 1)
       [ODict []; ODict [("t", VRef 2)];
        ODict [("a", VInt 1); ("k", VRef 3)]; ODict [("x", VInt 2)]]
     = (Raise KeyError,
        [ODict [("a", VInt 1)]; ODict [("t", VRef 2)];
         ODict [("a", VInt 1); ("k", VRef 3)]; ODict [("x", VInt 2)]]).
Proof.
  split; [|reflexivity].
  intros h t d p c name K titems ditems params sub
    Ht Hd Hname Hp HK Hc Hsub HKt Hall.
  assert (Hinv : merge_inv t p c K params h).
  { split_and!; [done|by exists sub|by exists titems]. }
  destruct (dict_get_lookup _ _ _ HK) as (idx & Hidx & Hbefore).
  pose proof (lookup_lt_Some _ _ _ Hidx) as Hlt.
  destruct (dict_iter_fails t p c K params HK idx (length params) 0 h
              Hidx Hbefore ltac:(lia) ltac:(lia) Hinv)
    as (e & h' & Hiter & Hinv').
  exists e, h'. split.
  - unfold set_values, bind, contains, bind.
    rewrite (read_Some _ _ _ Hd). unfold ret.
    rewrite Hname. rewrite bool_decide_eq_true_2 by eauto.
    unfold getitem_val, getitem, bind. rewrite (read_Some _ _ _ Hd).
    rewrite Hname. unfold ret, for_items, bind.
    rewrite (read_Some _ _ _ Hp). exact Hiter.
  - destruct Hinv' as (_ & _ & titems2 & Ht2 & HKt2 & _).
    intros titems' Ht'. rewrite Ht2 in Ht'. by injection Ht' as <-.
Qed.

Lemma set_values_needs_existing_mapping_witness :
  exists e h',
    set_values (VRef 0) (VStr "t") (VRef 1)
      [ODict [("k", VStr "scalar")]; ODict [("t", VRef 2)];
       ODict [("a", VInt 1); ("k", VRef 3)]; ODict [("x", VInt 2)]]
    = (Raise e, h')
    /\ forall titems', h' !! 0%nat = Some (ODict titems') ->
                       forall v, dict_get "k" titems' = Some v ->
                                 ~ is_dict_ref h' v.
Proof.
  eapply (proj1 set_values_needs_existing_mapping _ 0%nat 1%nat 2%nat 3%nat
            "t" "k"); try reflexivity.
  - done.
  - intros v [= <-] (a & items & [=] & _).
  - repeat constructor; done.
Defined.

(** C10, as stated, fails for a child mapping without entries: nothing is
    merged, nothing is created and no error is raised, although the target
    holds nothing under the child key. *)
Lemma set_values_empty_child_no_error :
  let h := [ODict []; ODict [("t", VRef 2)]; ODict [("k", VRef 3)]; ODict []] in
  set_values (VRef 0) (VStr "t") (VRef 1) h = (Ret tt, h)
  /\ isinstance_dict (VRef 3) h = (Ret true, h)
  /\ getitem (VRef 0) "k" h = (Raise KeyError, h).
Proof. split_and!; reflexivity. Qed.

(** ** [get_parameters_dict] builds the nested mapping *)

(** [d[k1][k2]...] through the dicts of the store. *)
Fixpoint lookup_path (h : heap) (v : val) (path : list string) : option val :=
  match path with
  | [] => Some v
  | k :: rest =>
      match v with
      | VRef a =>
          match h !! a with
          | Some (ODict items) =>
              match dict_get k items with
              | Some v' => lookup_path h v' rest
              | None => None
              end
          | _ => None
          end
      | _ => None
      end
  end.

(** The value a list of leaves gives to a path. *)
Fixpoint leaf_get (P : list string) (L : list (list string * val))
  : option val :=
  match L with
  | [] => None
  | (P', v) :: L' => if decide (P = P') then Some v else leaf_get P L'
  end.

(** The store holds the trie of the leaves [L]: [nd] gives the dict that
    stands for each inner path (the empty path is the root).  A dict holds
    under [k] the leaf at its path extended by [k], or else the dict of that
    path, or else nothing; different paths have different dicts; the parent
    of an inner path is an inner path; no inner path is a leaf, and the
    parent of a leaf is an inner path. *)
Definition trie_inv (h : heap) (L : list (list string * val))
    (nd : list string -> option addr) : Prop :=
  (forall q a, nd q = Some a ->
     exists items,
       h !! a = Some (ODict items)
       /\ forall k,
            dict_get k items
            = match leaf_get (q ++ [k]) L with
              | Some v => Some v
              | None => VRef <$> nd (q ++ [k])
              end)
  /\ (forall q1 q2 a, nd q1 = Some a -> nd q2 = Some a -> q1 = q2)
  /\ (forall q k, nd (q ++ [k]) <> None -> nd q <> None)
  /\ (forall q, nd q <> None -> leaf_get q L = None)
  /\ (forall P, leaf_get P L <> None ->
        exists q k, P = q ++ [k] /\ nd q <> None).

Lemma trie_inv_closed h L nd q s :
  trie_inv h L nd -> nd (q ++ s) <> None -> nd q <> None.
Proof.
  intros (_ & _ & Hparent & _). revert q.
  induction s as [|k s IH] using rev_ind; intros q.
  - by rewrite app_nil_r.
  - rewrite app_assoc. intros H. apply IH. by eapply Hparent.
Qed.

(** Every leaf is found at its path. *)
Lemma trie_inv_lookup h L nd q a rest v :
  trie_inv h L nd ->
  nd q = Some a ->
  leaf_get (q ++ rest) L = Some v ->
  rest <> [] ->
  lookup_path h (VRef a) rest = Some v.
Proof.
  intros Hinv. revert q a.
  induction rest as [|k rest IH]; intros q a Hq Hleaf Hne; [done|].
  pose proof Hinv as (Hnode & _ & _ & Hnoleaf & Hleafparent).
  destruct (Hnode q a Hq) as (items & Ha & Hitems).
  cbn [lookup_path]. rewrite Ha, Hitems.
  destruct rest as [|k2 rest].
  - by rewrite Hleaf.
  - assert (Hmid : nd (q ++ [k]) <> None).
    { destruct (Hleafparent (q ++ k :: k2 :: rest)) as (q' & k' & HP & Hq');
        [congruence|].
      destruct (exists_last (l:=k2 :: rest)) as (s & k'' & Hs); [done|].
      rewrite Hs in HP.
      replace (q ++ k :: s ++ [k'']) with ((q ++ k :: s) ++ [k'']) in HP
        by by rewrite <- app_assoc.
      apply app_inj_tail in HP as [<- _].
      apply (trie_inv_closed h L nd (q ++ [k]) s Hinv).
      by rewrite <- app_assoc. }
    rewrite (Hnoleaf _ Hmid).
    destruct (nd (q ++ [k])) as [b|] eqn:Hb; [|done]. simpl.
    apply (IH (q ++ [k]) b Hb); [|done].
    by rewrite <- app_assoc.
Qed.

Lemma leaf_get_snoc_eq P v L :
  leaf_get P L = None -> leaf_get P (L ++ [(P, v)]) = Some v.
Proof.
  induction L as [|[P' v'] L IH]; simpl.
  - by rewrite decide_True.
  - destruct (decide (P = P')); [done|auto].
Qed.

Lemma leaf_get_snoc_ne P P' v L :
  P' <> P -> leaf_get P' (L ++ [(P, v)]) = leaf_get P' L.
Proof.
  intros Hne. induction L as [|[P2 v2] L IH]; simpl.
  - by rewrite decide_False.
  - by destruct (decide (P' = P2)).
Qed.

Lemma dict_set_same {V} (k : string) (v : V) items :
  dict_get k items = Some v -> dict_set k v items = items.
Proof.
  induction items as [|[k' v'] items IH]; simpl; [done|].
  destruct (String.eqb_spec k k') as [->|Hne].
  - by intros [= ->].
  - intros H. by rewrite IH.
Qed.

Lemma snoc_ne_self {A} (q : list A) (k : A) : q ++ [k] <> q.
Proof.
  intros H. apply (f_equal length) in H. rewrite length_app in H.
  simpl in H. lia.
Qed.

Lemma trie_inv_alloc h L nd o : trie_inv h L nd -> trie_inv (h ++ [o]) L nd.
Proof.
  intros (Hnode & Hrest). split; [|exact Hrest].
  intros q a Hq. destruct (Hnode q a Hq) as (items & Ha & Hitems).
  exists items. split; [|done].
  rewrite lookup_app_l; [done|]. by eapply lookup_lt_Some.
Qed.

(** Storing a new leaf under [k] in the dict of [q]. *)
Lemma trie_inv_set_leaf h L nd q a items k v :
  trie_inv h L nd ->
  nd q = Some a ->
  h !! a = Some (ODict items) ->
  leaf_get (q ++ [k]) L = None ->
  nd (q ++ [k]) = None ->
  trie_inv (<[a := ODict (dict_set k v items)]> h) (L ++ [(q ++ [k], v)]) nd.
Proof.
  intros (Hnode & Hinj & Hparent & Hnoleaf & Hleafparent) Hq Ha Hleaf Hnd.
  assert (Hlt : a < length h) by by eapply lookup_lt_Some.
  split_and!; try done.
  - intros q2 a2 Hq2. destruct (decide (a2 = a)) as [->|Hne].
    + assert (q2 = q) as -> by by eapply Hinj.
      eexists. split; [by apply list_lookup_insert_eq|].
      destruct (Hnode q a Hq) as (items' & Ha' & Hitems).
      rewrite Ha in Ha'. injection Ha' as <-.
      intros k'. destruct (decide (k' = k)) as [->|Hk].
      * by rewrite dict_get_set_eq, leaf_get_snoc_eq.
      * rewrite dict_get_set_ne by done. rewrite leaf_get_snoc_ne; [done|].
        intros H. by apply app_inj_tail in H as [_ ?].
    + destruct (Hnode q2 a2 Hq2) as (items2 & Ha2 & Hitems2).
      exists items2. split; [by rewrite list_lookup_insert_ne|].
      intros k'. rewrite leaf_get_snoc_ne; [done|].
      intros H. apply app_inj_tail in H as [-> _]. congruence.
  - intros r Hr. rewrite leaf_get_snoc_ne; [by apply Hnoleaf|].
    intros ->. done.
  - intros P' HP'. destruct (decide (P' = q ++ [k])) as [->|Hne].
    + exists q, k. split; [done|congruence].
    + rewrite leaf_get_snoc_ne in HP' by done. by apply Hleafparent.
Qed.

(** Storing a new, empty dict [f] under [k] in the dict of [q]. *)
Lemma trie_inv_new_node h L nd q a items k f :
  trie_inv h L nd ->
  nd q = Some a ->
  h !! a = Some (ODict items) ->
  leaf_get (q ++ [k]) L = None ->
  nd (q ++ [k]) = None ->
  h !! f = Some (ODict []) ->
  (forall r b, nd r = Some b -> b <> f) ->
  trie_inv (<[a := ODict (dict_set k (VRef f) items)]> h) L
    (fun r => if decide (r = q ++ [k]) then Some f else nd r).
Proof.
  intros (Hnode & Hinj & Hparent & Hnoleaf & Hleafparent)
    Hq Ha Hleaf Hnd Hf Hfresh.
  assert (Hlt : a < length h) by by eapply lookup_lt_Some.
  assert (Haf : a <> f) by by eapply Hfresh.
  split_and!.
  - intros q2 a2 Hq2. destruct (decide (q2 = q ++ [k])) as [->|Hq2ne].
    + injection Hq2 as <-. exists []. split; [by rewrite list_lookup_insert_ne|].
      intros k'. simpl.
      destruct (leaf_get ((q ++ [k]) ++ [k']) L) as [v|] eqn:Hl.
      { destruct (Hleafparent ((q ++ [k]) ++ [k'])) as (q' & k'' & HP & Hq');
          [congruence|].
        apply app_inj_tail in HP as [<- _]. done. }
      rewrite decide_False by apply snoc_ne_self.
      destruct (nd ((q ++ [k]) ++ [k'])) as [b|] eqn:Hb; [|done].
      exfalso. apply (Hparent (q ++ [k]) k'); congruence.
    + destruct (decide (a2 = a)) as [->|Hne].
      * assert (q2 = q) as -> by by eapply Hinj.
        eexists. split; [by apply list_lookup_insert_eq|].
        destruct (Hnode q a Hq) as (items' & Ha' & Hitems).
        rewrite Ha in Ha'. injection Ha' as <-.
        intros k'. destruct (decide (k' = k)) as [->|Hk].
        -- rewrite dict_get_set_eq, Hleaf. by rewrite decide_True.
        -- rewrite dict_get_set_ne by done. rewrite Hitems.
           rewrite decide_False; [done|].
           intros H. by apply app_inj_tail in H as [_ ?].
      * destruct (Hnode q2 a2 Hq2) as (items2 & Ha2 & Hitems2).
        exists items2. split; [by rewrite list_lookup_insert_ne|].
        intros k'. rewrite Hitems2. rewrite decide_False; [done|].
        intros H. apply app_inj_tail in H as [-> _]. congruence.
  - intros q1 q2 x H1 H2.
    destruct (decide (q1 = q ++ [k])) as [->|?],
             (decide (q2 = q ++ [k])) as [->|?]; try done.
    + injection H1 as <-. by apply Hfresh in H2.
    + injection H2 as <-. by apply Hfresh in H1.
    + by eapply Hinj.
  - intros r k' H.
    destruct (decide (r = q ++ [k])) as [->|?]; [done|].
    destruct (decide (r ++ [k'] = q ++ [k])) as [Heq|?].
    + apply app_inj_tail in Heq as [-> _]. congruence.
    + by eapply Hparent.
  - intros r H. destruct (decide (r = q ++ [k])) as [->|?]; [done|].
    by apply Hnoleaf.
  - intros P HP. destruct (Hleafparent P HP) as (q' & k' & -> & Hq').
    exists q', k'. split; [done|]. by destruct (decide (q' = q ++ [k])).
Qed.

(** What inserting a path leaves: the trie of one more leaf, with the inner
    paths it had and those on the way to the new leaf; dicts that stand for no
    inner path are not written. *)
Definition path_inserted (h : heap) (L : list (list string * val))
    (nd : list string -> option addr) (q path : list string) (v : val)
    (h' : heap) (nd' : list string -> option addr) : Prop :=
  trie_inv h' (L ++ [(q ++ path, v)]) nd'
  /\ (forall r b, nd r = Some b -> nd' r = Some b)
  /\ (forall r, nd' r <> None ->
        nd r <> None
        \/ exists s1 s2, s2 <> [] /\ r = q ++ s1 /\ path = s1 ++ s2)
  /\ length h <= length h'
  /\ (forall x, x < length h -> (forall r, nd' r <> Some x) ->
                h' !! x = h !! x)
  /\ (forall r b, nd' r = Some b -> nd r = Some b \/ length h <= b).

Lemma assign_path_trie path :
  forall h L nd q a v,
    trie_inv h L nd ->
    nd q = Some a ->
    path <> [] ->
    (forall r, r <> [] -> r `prefix_of` path -> leaf_get (q ++ r) L = None) ->
    nd (q ++ path) = None ->
    exists h' nd',
      assign_path (VRef a) path v h = (Ret tt, h')
      /\ path_inserted h L nd q path v h' nd'.
Proof.
  induction path as [|k rest IH]; intros h L nd q a v Hinv Hq Hne Hfree Hnd;
    [done|].
  pose proof Hinv as (Hnode & _).
  destruct (Hnode q a Hq) as (items & Ha & Hitems).
  assert (Hlt : a < length h) by by eapply lookup_lt_Some.
  assert (Hleafk : leaf_get (q ++ [k]) L = None).
  { apply Hfree; [done|]. by exists rest. }
  destruct rest as [|k2 rest].
  - (* the last element receives the value *)
    exists (<[a := ODict (dict_set k v items)]> h), nd. split.
    + cbn [assign_path]. unfold setitem, bind. by rewrite (read_Some _ _ _ Ha).
    + split_and!.
      * by apply trie_inv_set_leaf.
      * done.
      * auto.
      * by rewrite length_insert.
      * intros x Hx Hnot. rewrite list_lookup_insert_ne; [done|].
        intros <-. by apply (Hnot q).
      * auto.
  - (* an earlier element descends into a dict, new or not *)
    cbn [assign_path]. unfold get_or_new, bind at 1, bind at 1.
    rewrite (read_Some _ _ _ Ha). unfold bind at 1, alloc.
    set (f := length h). set (h1 := h ++ [ODict []]).
    pose proof (trie_inv_alloc h L nd (ODict []) Hinv) as Hinv1.
    fold h1 in Hinv1.
    assert (Ha1 : h1 !! a = Some (ODict items)).
    { unfold h1. by rewrite lookup_app_l. }
    assert (Hf1 : h1 !! f = Some (ODict [])).
    { unfold h1, f. by rewrite list_lookup_middle. }
    assert (Hfree' : forall r, r <> [] -> r `prefix_of` k2 :: rest ->
                               leaf_get ((q ++ [k]) ++ r) L = None).
    { intros r Hr [s Hs]. rewrite <- app_assoc. apply Hfree; [done|].
      exists s. simpl. by rewrite Hs. }
    rewrite Hitems, Hleafk.
    destruct (nd (q ++ [k])) as [b|] eqn:Hb; simpl.
    + (* the dict of this element is there *)
      unfold ret, bind at 1, setitem, bind at 1.
      rewrite (read_Some _ _ _ Ha1). unfold write.
      rewrite dict_set_same by by rewrite Hitems, Hleafk, Hb.
      rewrite list_insert_id by done.
      destruct (IH h1 L nd (q ++ [k]) b v Hinv1 Hb ltac:(done) Hfree')
        as (h' & nd' & Hrun & Hins & Hmono & Hnew & Hlen & Hsame & Hfr).
      { by rewrite <- app_assoc. }
      exists h', nd'. split; [exact Hrun|].
      rewrite <- app_assoc in Hins. split_and!; [done|done| | | |].
      * intros r Hr. destruct (Hnew r Hr) as [?|(s1 & s2 & Hs2 & -> & Hp)];
          [by left|right].
        exists (k :: s1), s2. split_and!; [done| |by rewrite Hp].
        by rewrite <- app_assoc.
      * unfold h1 in Hlen. rewrite length_app in Hlen. simpl in Hlen. lia.
      * intros x Hx Hnot. rewrite Hsame; [|unfold h1; rewrite length_app; lia
                                          |done].
        unfold h1. by rewrite lookup_app_l.
      * intros r b0 Hr. destruct (Hfr r b0 Hr) as [?|Hge]; [by left|right].
        unfold h1 in Hge. rewrite length_app in Hge. lia.
    + (* a new dict is stored under this element *)
      unfold ret, bind at 1, setitem, bind at 1.
      rewrite (read_Some _ _ _ Ha1). unfold write.
      set (h2 := <[a := ODict (dict_set k (VRef f) items)]> h1).
      set (nd1 := fun r => if decide (r = q ++ [k]) then Some f else nd r).
      assert (Hfresh : forall r b0, nd r = Some b0 -> b0 <> f).
      { intros r b0 Hr. destruct (Hnode r b0 Hr) as (its & Hb0 & _).
        apply lookup_lt_Some in Hb0. unfold f. lia. }
      pose proof (trie_inv_new_node h1 L nd q a items k f Hinv1 Hq Ha1 Hleafk
                    Hb Hf1 Hfresh) as Hinv2.
      fold h2 nd1 in Hinv2.
      assert (Hf2 : nd1 (q ++ [k]) = Some f).
      { unfold nd1. by rewrite decide_True. }
      destruct (IH h2 L nd1 (q ++ [k]) f v Hinv2 Hf2 ltac:(done) Hfree')
        as (h' & nd' & Hrun & Hins & Hmono & Hnew & Hlen & Hsame & Hfr).
      { unfold nd1. rewrite decide_False; [by rewrite <- app_assoc|].
        rewrite <- app_assoc. intros H. apply app_inv_head in H. done. }
      exists h', nd'. split; [exact Hrun|].
      rewrite <- app_assoc in Hins. split_and!; [done| | | | |].
      * intros r b0 Hr. apply Hmono. unfold nd1.
        rewrite decide_False; [done|]. intros ->. congruence.
      * intros r Hr. destruct (Hnew r Hr) as [Hold|(s1 & s2 & Hs2 & -> & Hp)].
        -- unfold nd1 in Hold.
           destruct (decide (r = q ++ [k])) as [->|?]; [|by left].
           right. exists [k], (k2 :: rest). by split_and!.
        -- right. exists (k :: s1), s2. split_and!; [done| |by rewrite Hp].
           by rewrite <- app_assoc.
      * unfold h2, h1 in Hlen. rewrite length_insert, length_app in Hlen.
        simpl in Hlen. lia.
      * intros x Hx Hnot.
        rewrite Hsame;
          [|unfold h2, h1; rewrite length_insert, length_app; lia|done].
        unfold h2. rewrite list_lookup_insert_ne.
        -- unfold h1. by rewrite lookup_app_l.
        -- intros <-. apply (Hnot q). apply Hmono. unfold nd1.
           rewrite decide_False; [done|]. intros H. symmetry in H.
           by apply snoc_ne_self in H.
      * intros r b0 Hr. destruct (Hfr r b0 Hr) as [Hold|Hge].
        -- unfold nd1 in Hold.
           destruct (decide (r = q ++ [k])) as [->|?]; [|by left].
           injection Hold as <-. right. unfold f. lia.
        -- right. unfold h2, h1 in Hge.
           rewrite length_insert, length_app in Hge. lia.
Qed.

(** *** The whole sample *)

Lemma str_split_aux_not_nil sep cur s : str_split_aux sep cur s <> [].
Proof.
  revert cur. induction s as [|ch s IH]; intros cur; simpl; [done|].
  destruct (Ascii.eqb ch sep); [done|apply IH].
Qed.

Lemma str_split_not_nil sep s : str_split sep s <> [].
Proof. apply str_split_aux_not_nil. Qed.

(** No path of the list is a prefix of another one (or equal to it). *)
Definition prefix_free (paths : list (list string)) : Prop :=
  forall i j P1 P2,
    i <> j -> paths !! i = Some P1 -> paths !! j = Some P2 ->
    ~ P1 `prefix_of` P2.

(** The path and value of an entry of a sample. *)
Definition entry_of (kv : string * val) : list string * val :=
  (str_split "."%char kv.1, kv.2).

Definition sample_paths (ps : sample) : list (list string) :=
  map (fun kv => str_split "."%char kv.1) ps.

Lemma leaf_get_Some_lookup P v L :
  leaf_get P L = Some v -> exists i, map fst L !! i = Some P.
Proof.
  induction L as [|[P' v'] L IH]; simpl; [done|].
  destruct (decide (P = P')) as [->|Hne]; [by exists 0|].
  intros H. destruct (IH H) as [i Hi]. by exists (Datatypes.S i).
Qed.

Lemma prefix_free_tail P paths : prefix_free (P :: paths) -> prefix_free paths.
Proof.
  intros H i j P1 P2 Hij H1 H2.
  apply (H (Datatypes.S i) (Datatypes.S j)); [lia|done|done].
Qed.

Lemma leaf_get_elem P v L :
  prefix_free (map fst L) -> In (P, v) L -> leaf_get P L = Some v.
Proof.
  induction L as [|[P' v'] L IH]; simpl; [done|].
  intros Hfree [[= -> ->]|Hin].
  - by rewrite decide_True.
  - destruct (decide (P = P')) as [->|Hne].
    + exfalso. apply list_elem_of_In, list_elem_of_lookup in Hin as [j Hj].
      apply (Hfree 0 (Datatypes.S j) P' P'); [lia|done| |done].
      simpl. by rewrite list_lookup_fmap, Hj.
    + apply IH; [|done]. by eapply prefix_free_tail.
Qed.

Section WholeSample.
Context (p0 n0 : nat).

(** Between two entries: the trie of the leaves so far, rooted at [p0]; its
    inner paths lead to a leaf; its dicts were allocated by this call. *)
Definition sample_inv (h : heap) (L : list (list string * val))
    (nd : list string -> option addr) : Prop :=
  trie_inv h L nd
  /\ nd [] = Some p0
  /\ (forall r, nd r <> None ->
        r = [] \/ exists P v s, In (P, v) L /\ s <> [] /\ P = r ++ s)
  /\ (forall r b, nd r = Some b -> n0 <= b)
  /\ n0 <= length h.

Lemma for_list_trie (todo : sample) :
  forall h L nd,
    sample_inv h L nd ->
    prefix_free (map fst L ++ sample_paths todo) ->
    exists h' nd',
      for_list todo
        (fun '(name, value) =>
           assign_path (VRef p0) (str_split "."%char name) value) h
      = (Ret tt, h')
      /\ sample_inv h' (L ++ map entry_of todo) nd'
      /\ forall x, x < n0 -> h' !! x = h !! x.
Proof.
  induction todo as [|[name value] todo IH]; intros h L nd Hinv Hfree.
  - exists h, nd. simpl. by rewrite app_nil_r.
  - destruct Hinv as (Htrie & Hroot & Hleads & Hnew & Hlen).
    set (P := str_split "."%char name).
    assert (Hidx : (map fst L ++ sample_paths ((name, value) :: todo))
                     !! length (map fst L) = Some P).
    { unfold sample_paths. cbn [map fst]. by apply list_lookup_middle. }
    destruct (assign_path_trie P h L nd [] p0 value Htrie Hroot)
      as (h1 & nd1 & Hrun & Htrie1 & Hmono & Hnodes & Hlen1 & Hsame & Hfr).
    { apply str_split_not_nil. }
    { intros r Hr Hpre. simpl.
      destruct (leaf_get r L) as [v|] eqn:Hleaf; [|done].
      exfalso. apply leaf_get_Some_lookup in Hleaf as [i Hi].
      pose proof (lookup_lt_Some _ _ _ Hi) as Hlt.
      apply (Hfree i (length (map fst L)) r P); [lia| |done|done].
      by rewrite lookup_app_l. }
    { simpl. destruct (nd P) as [b|] eqn:Hb; [|done]. exfalso.
      destruct (Hleads P) as [HP|(P' & v' & s & Hin & Hs & ->)]; [congruence| |].
      - by apply (str_split_not_nil "."%char name).
      - apply list_elem_of_In, list_elem_of_lookup in Hin as [i Hi].
        pose proof (lookup_lt_Some _ _ _ Hi) as Hlt.
        apply (Hfree (length (map fst L)) i P (P ++ s));
          [rewrite length_map; lia|done| |by exists s].
        rewrite lookup_app_l by by rewrite length_map.
        by rewrite list_lookup_fmap, Hi. }
    simpl in Htrie1.
    destruct (IH h1 (L ++ [(P, value)]) nd1) as (h' & nd' & Hrun' & Hinv' & Hsame').
    { split_and!; [done|by apply Hmono| | |lia].
      - intros r Hr. destruct (Hnodes r Hr) as [Hold|(s1 & s2 & Hs2 & -> & HP)].
        + destruct (Hleads r Hold) as [?|(P' & v' & s & Hin & Hs & ->)];
            [by left|right].
          exists (r ++ s), v', s. split_and!; [|done|done].
          apply in_or_app. by left.
        + right. exists P, value, s2. split_and!; [|done|by rewrite HP].
          apply in_or_app. right. by left.
      - intros r b Hr. destruct (Hfr r b Hr) as [?|?]; [eauto|lia]. }
    { rewrite map_app, <- app_assoc. exact Hfree. }
    exists h', nd'. split_and!.
    + cbn [for_list]. unfold bind. fold P. by rewrite Hrun.
    + rewrite <- app_assoc in Hinv'. exact Hinv'.
    + intros x Hx. rewrite Hsame' by done. apply Hsame; [lia|].
      intros r Hr. destruct (Hfr r x Hr) as [Hold|?]; [|lia].
      apply Hnew in Hold. lia.
Qed.
End WholeSample.

Lemma lookup_path_app h v q s :
  lookup_path h v (q ++ s)
  = match lookup_path h v q with
    | Some w => lookup_path h w s
    | None => None
    end.
Proof.
  revert v. induction q as [|k q IH]; intros v; [done|].
  cbn [app lookup_path].
  destruct v as [| | | | |a]; try done.
  destruct (h !! a) as [[items|elems]|]; try done.
  destruct (dict_get k items); [apply IH|done].
Qed.

Lemma prefix_free_nil : prefix_free [].
Proof. intros i j P1 P2 _ H. by rewrite lookup_nil in H. Qed.

Lemma prefix_free_cons P paths :
  Forall (fun P' => ~ P `prefix_of` P' /\ ~ P' `prefix_of` P) paths ->
  prefix_free paths ->
  prefix_free (P :: paths).
Proof.
  intros Hall Hfree [|i] [|j] P1 P2 Hij H1 H2; simpl in *; [done| | |].
  - injection H1 as <-. rewrite Forall_forall in Hall.
    apply (Hall P2). by eapply list_elem_of_lookup_2.
  - injection H2 as <-. rewrite Forall_forall in Hall.
    apply (Hall P1). by eapply list_elem_of_lookup_2.
  - apply (Hfree i j); [lia|done|done].
Qed.

(** The dict of an inner path is found at that path. *)
Lemma trie_inv_inner_lookup h L nd p0 q a :
  trie_inv h L nd -> nd [] = Some p0 -> nd q = Some a ->
  lookup_path h (VRef p0) q = Some (VRef a).
Proof.
  intros Hinv Hroot. revert a.
  induction q as [|k q IH] using rev_ind; intros a Hq.
  - simpl. congruence.
  - pose proof Hinv as (Hnode & _ & Hparent & Hnoleaf & _).
    assert (Hq' : nd q <> None) by (apply (Hparent q k); congruence).
    destruct (nd q) as [b|] eqn:Hb; [|done].
    rewrite lookup_path_app, (IH b eq_refl). cbn [lookup_path].
    destruct (Hnode q b Hb) as (items & Hh & Hitems).
    rewrite Hh, Hitems, (Hnoleaf (q ++ [k])) by congruence.
    by rewrite Hq.
Qed.

(** A proper prefix of the path of a leaf is an inner path. *)
Lemma trie_inv_prefix_inner h L nd q s :
  trie_inv h L nd -> s <> [] -> leaf_get (q ++ s) L <> None -> nd q <> None.
Proof.
  intros Hinv Hs Hleaf. pose proof Hinv as (_ & _ & _ & _ & Hleafparent).
  destruct (Hleafparent _ Hleaf) as (q' & k' & HP & Hq').
  destruct (exists_last Hs) as (s' & k'' & ->).
  rewrite app_assoc in HP. apply app_inj_tail in HP as [<- _].
  by apply (trie_inv_closed h L nd q s').
Qed.

(** The paths of the inner nodes of the nested mapping of a sample: the empty
    path, of the root, and the proper prefixes of the paths of its keys. *)
Definition inner_path (ps : sample) (q : list string) : Prop :=
  q = []
  \/ exists name value s,
       In (name, value) ps /\ s <> [] /\ str_split "."%char name = q ++ s.

(** What [get_parameters_dict] returns for a sample.  Every key of the sample
    is found at its path, and two keys that differ in their last element only
    are found in the same parent dict.  The mapping holds nothing else: at
    every inner path there is a dict allocated by the call whose keys are
    exactly the next elements of the paths of the sample that go through it,
    and different inner paths have different dicts.  No object that was there
    before the call is changed. *)
Definition nested_mapping (ps : sample) (h : heap) (root : val) (h' : heap)
  : Prop :=
  (forall name value,
     In (name, value) ps ->
     lookup_path h' root (str_split "."%char name) = Some value)
  /\ (forall n1 v1 n2 v2 q k1 k2,
        In (n1, v1) ps -> In (n2, v2) ps ->
        str_split "."%char n1 = q ++ [k1] ->
        str_split "."%char n2 = q ++ [k2] ->
        exists parent,
          lookup_path h' root q = Some parent
          /\ lookup_path h' parent [k1] = Some v1
          /\ lookup_path h' parent [k2] = Some v2)
  /\ (forall q,
        inner_path ps q ->
        exists (a : addr) items,
          lookup_path h' root q = Some (VRef a)
          /\ length h <= a
          /\ h' !! a = Some (ODict items)
          /\ forall k,
               is_Some (dict_get k items)
               <-> exists name value,
                     In (name, value) ps
                     /\ (q ++ [k]) `prefix_of` str_split "."%char name)
  /\ (forall q1 q2 (a : addr),
        inner_path ps q1 -> inner_path ps q2 ->
        lookup_path h' root q1 = Some (VRef a) ->
        lookup_path h' root q2 = Some (VRef a) ->
        q1 = q2)
  /\ (forall x, x < length h -> h' !! x = h !! x).

(** C5, as amended: for every flat mapping in which no key's path is a
    prefix of another key's path, [get_parameters_dict] returns the nested
    mapping: the value of a key "a.b.c" is found under a, then b, then c,
    keys that share a prefix are found in the same parent dict, and the dicts
    of the mapping hold no other key than those of the paths;
    {"a.b": 1, "a.c": 2} gives {"a": {"b": 1, "c": 2}} (the third object of
    the store below is the unused default of the second [get]). *)
Theorem get_parameters_dict_nested :
  (forall (ps : sample) (h : heap),
     prefix_free (sample_paths ps) ->
     exists root h',
       get_parameters_dict ps h = (Ret root, h')
       /\ nested_mapping ps h root h')
  /\ get_parameters_dict [("a.b", VInt 1); ("a.c", VInt 2)] []
     = (Ret (VRef 0),
        [ODict [("a", VRef 1)]; ODict [("b", VInt 1); ("c", VInt 2)];
         ODict []]).
Proof.
  split; [|reflexivity].
  intros ps h Hfree.
  set (p0 := length h). set (h1 := h ++ [ODict []]).
  set (nd0 := fun r : list string =>
                if decide (r = []) then Some p0 else None).
  assert (Hinv0 : sample_inv p0 (length h) h1 [] nd0).
  { split_and!; try done.
    - split_and!; try done.
      + intros q a Hq. unfold nd0 in Hq.
        destruct (decide (q = [])) as [->|]; [|done]. injection Hq as <-.
        exists []. split; [by apply list_lookup_middle|].
        intros k. reflexivity.
      + intros q1 q2 a H1 H2. unfold nd0 in *.
        destruct (decide (q1 = [])), (decide (q2 = [])); congruence.
      + intros q k H. unfold nd0 in H.
        destruct (decide (q ++ [k] = [])) as [Heq|]; [|done].
        by destruct q.
    - intros r Hr. unfold nd0 in Hr. destruct (decide (r = [])); [by left|done].
    - intros r b Hr. unfold nd0 in Hr.
      destruct (decide (r = [])); [|done]. injection Hr as <-. done.
    - unfold h1. rewrite length_app. lia. }
  destruct (for_list_trie p0 (length h) ps h1 [] nd0 Hinv0 Hfree)
    as (h' & nd' & Hrun & (Htrie & Hroot & Hpaths & Hnew & _) & Hsame).
  simpl in Htrie, Hpaths.
  exists (VRef p0), h'. split.
  { unfold get_parameters_dict, bind, alloc. fold p0 h1.
    by rewrite Hrun. }
  assert (Hleaf : forall name value,
            In (name, value) ps ->
            leaf_get (str_split "."%char name) (map entry_of ps) = Some value).
  { intros name value Hin. apply leaf_get_elem.
    - by rewrite map_map.
    - apply (in_map entry_of) in Hin. exact Hin. }
  assert (Hfound : forall name value,
            In (name, value) ps ->
            lookup_path h' (VRef p0) (str_split "."%char name) = Some value).
  { intros name value Hin.
    apply (trie_inv_lookup h' (map entry_of ps) nd' [] p0); [done|done| |].
    - by apply Hleaf.
    - apply str_split_not_nil. }
  assert (Hinner : forall q, inner_path ps q -> nd' q <> None).
  { intros q [->|(name & value & s & Hin & Hs & Heq)]; [congruence|].
    apply (trie_inv_prefix_inner h' (map entry_of ps) nd' q s); [done|done|].
    by rewrite <- Heq, (Hleaf name value Hin). }
  assert (Hentry : forall P v,
            In (P, v) (map entry_of ps) ->
            exists name, In (name, v) ps /\ str_split "."%char name = P).
  { intros P v Hin. apply in_map_iff in Hin as ([name v'] & [= <- <-] & Hin).
    by exists name. }
  pose proof Htrie as (Hnode & Hinj & _ & Hnoleaf & _).
  split_and!; [done| | | |].
  - intros n1 v1 n2 v2 q k1 k2 H1 H2 Hn1 Hn2.
    pose proof (Hfound n1 v1 H1) as Hl1. pose proof (Hfound n2 v2 H2) as Hl2.
    rewrite Hn1, lookup_path_app in Hl1. rewrite Hn2, lookup_path_app in Hl2.
    destruct (lookup_path h' (VRef p0) q) as [parent|]; [|done].
    by exists parent.
  - intros q Hq. pose proof (Hinner q Hq) as Hnd.
    destruct (nd' q) as [a|] eqn:Ha; [|done].
    destruct (Hnode q a Ha) as (items & Hh & Hitems).
    exists a, items. split_and!; [|by eapply Hnew|done|].
    { by apply (trie_inv_inner_lookup h' (map entry_of ps) nd'). }
    intros k. rewrite Hitems. split.
    + intros Hsome.
      destruct (leaf_get (q ++ [k]) (map entry_of ps)) as [v|] eqn:Hl.
      * apply leaf_get_Some_lookup in Hl as [i Hi].
        rewrite list_lookup_fmap in Hi.
        destruct (map entry_of ps !! i) as [[P v']|] eqn:Hi'; [|done].
        injection Hi as ->.
        apply list_elem_of_lookup_2, list_elem_of_In, Hentry in Hi'
          as (name & Hin & Hname).
        exists name, v'. split; [done|]. by rewrite Hname.
      * destruct (nd' (q ++ [k])) as [b|] eqn:Hb;
          [|destruct Hsome as [? Hx]; simpl in Hx; done].
        destruct (Hpaths (q ++ [k])) as [Hnil|(P & v & s & Hin & _ & HP)];
          [congruence|by destruct q|].
        apply Hentry in Hin as (name & Hin & Hname).
        exists name, v. split; [done|]. rewrite Hname, HP. by exists s.
    + intros (name & value & Hin & [s Hs]).
      destruct s as [|k2 s].
      * rewrite app_nil_r in Hs. by rewrite <- Hs, (Hleaf name value Hin).
      * assert (Hb : nd' (q ++ [k]) <> None).
        { apply (trie_inv_prefix_inner h' (map entry_of ps) nd' _ (k2 :: s));
            [done|done|].
          by rewrite <- Hs, (Hleaf name value Hin). }
        rewrite (Hnoleaf _ Hb). by destruct (nd' (q ++ [k])).
  - intros q1 q2 a Hq1 Hq2 Hl1 Hl2.
    pose proof (Hinner q1 Hq1) as Hn1. pose proof (Hinner q2 Hq2) as Hn2.
    destruct (nd' q1) as [a1|] eqn:Ha1; [|done].
    destruct (nd' q2) as [a2|] eqn:Ha2; [|done].
    rewrite (trie_inv_inner_lookup h' (map entry_of ps) nd' p0 q1 a1) in Hl1
      by done.
    rewrite (trie_inv_inner_lookup h' (map entry_of ps) nd' p0 q2 a2) in Hl2
      by done.
    injection Hl1 as ->. injection Hl2 as ->. by eapply Hinj.
  - intros x Hx. rewrite Hsame by done. unfold h1. by rewrite lookup_app_l.
Qed.

Lemma get_parameters_dict_nested_witness :
  exists root h',
    get_parameters_dict
      [("training.learning_rate", VFloat 0.001%Q);
       ("text.encoder", VStr "cnn");
       ("text.cell.type", VStr "lstm")] example_heap
    = (Ret root, h')
    /\ nested_mapping
         [("training.learning_rate", VFloat 0.001%Q);
          ("text.encoder", VStr "cnn");
          ("text.cell.type", VStr "lstm")] example_heap root h'.
Proof.
  apply (proj1 get_parameters_dict_nested).
  repeat apply prefix_free_cons; try apply prefix_free_nil;
    repeat constructor; by intros [s [=]].
Defined.

(** C5, as stated, fails when a key's path is a prefix of another's: after
    "a" was given the value 1, "a.b" makes the function index that 1 and
    [TypeError] is raised; in the other order "a.b" is lost under the later
    "a". *)
Lemma get_parameters_dict_collision :
  (get_parameters_dict [("a", VInt 1); ("a.b", VInt 2)] []).1 = Raise TypeError
  /\ get_parameters_dict [("a.b", VInt 2); ("a", VInt 1)] []
     = (Ret (VRef 0), [ODict [("a", VInt 1)]; ODict [("b", VInt 2)]])
  /\ lookup_path [ODict [("a", VInt 1)]; ODict [("b", VInt 2)]] (VRef 0)
       (str_split "."%char "a.b") = None.
Proof. split_and!; reflexivity. Qed.

(** * Further properties of the module *)

(** ** The slot queue the set-up fills *)

(** The slots the second loop of the set-up puts for one GPU id. *)
Definition slots_of (gpu_ids_meta : list (string * gpu_meta)) (id : string)
  : list slot :=
  match dict_get id gpu_ids_meta with
  | Some meta =>
      replicate (Z.to_nat (meta_process_per_gpu meta))
        {| gpu_id := id; gpu_memory_limit := meta_gpu_memory_limit meta |}
  | None => []
  end.

(** The value the variable [gpu_memory_limit] has after the second loop. *)
Definition last_limit (gpu_ids_meta : list (string * gpu_meta))
    (gpu_ids : list string) (lim : option num) : option num :=
  match last gpu_ids with
  | Some id =>
      match dict_get id gpu_ids_meta with
      | Some meta => meta_gpu_memory_limit meta
      | None => lim
      end
  | None => lim
  end.

Lemma fill_queue_closed_form metas ids queue lim :
  Forall (fun id => is_Some (dict_get id metas)) ids ->
  fill_queue metas ids queue lim
  = Ret (queue ++ concat (map (slots_of metas) ids), last_limit metas ids lim).
Proof.
  intros Hall. revert queue lim.
  induction Hall as [|id ids [meta Hmeta] Hall IH]; intros queue lim.
  - simpl. by rewrite app_nil_r.
  - cbn [fill_queue]. rewrite Hmeta, IH. f_equal. f_equal.
    + cbn [map concat]. unfold slots_of at 2. rewrite Hmeta.
      by rewrite <- app_assoc.
    + unfold last_limit. destruct ids as [|id2 ids]; cbn [last].
      * by rewrite Hmeta.
      * destruct (last (id2 :: ids)) as [id3|] eqn:Hlast;
          [|by apply last_None in Hlast].
        apply last_Some_elem_of in Hlast.
        rewrite Forall_forall in Hall.
        by destruct (Hall id3 Hlast) as [m3 ->].
Qed.

Lemma fold_dict_set_lookup {V} (f : string -> V) ids acc id :
  dict_get id (fold_left (fun m g => dict_set g (f g) m) ids acc)
  = if decide (id ∈ ids) then Some (f id) else dict_get id acc.
Proof.
  revert acc. induction ids as [|g ids IH]; intros acc; cbn [fold_left].
  - destruct (decide (id ∈ [])) as [Hin|_]; [|done].
    by apply elem_of_nil in Hin.
  - rewrite IH.
    destruct (decide (id ∈ ids)) as [Hin|Hout],
             (decide (id ∈ g :: ids)) as [Hin'|Hout']; try done.
    + exfalso. apply Hout'. by right.
    + apply elem_of_cons in Hin' as [->|?]; [|done]. apply dict_get_set_eq.
    + apply dict_get_set_ne. intros ->. apply Hout'. by left.
Qed.

Lemma allocate_gpu_ids_meta_total attrs ids lim available metas :
  allocate_gpu_ids_meta attrs ids lim available = Ret metas ->
  Forall (fun id => is_Some (dict_get id metas)) ids.
Proof.
  unfold allocate_gpu_ids_meta. intros H. apply Forall_forall. intros id Hid.
  destruct (_ <? _)%Z.
  - apply list_elem_of_In in Hid.
    destruct (int_truediv _ _) as [quotient|]; [|done].
    apply oversubscribed_loop_lookup in H as [Hin _].
    destruct (Hin id Hid) as (m & _ & ->). by eexists.
  - injection H as <-.
    rewrite (fold_dict_set_lookup
               (fun _ => {| meta_gpu_memory_limit := lim;
                            meta_process_per_gpu := 1 |})).
    rewrite decide_True by done. by eexists.
Qed.

(** Whenever the first loop of the set-up returned, the second finds every
    GPU id it looks up, so that it raises no [KeyError]; the queue it fills
    holds, GPU id by GPU id in the listed order, [process_per_gpu] slots that
    name that id and carry the limit recorded for it (none where
    [process_per_gpu] is not positive), and the variable [gpu_memory_limit]
    ends as the limit recorded for the last id. *)
Theorem queue_filled_from_meta (attrs : ParallelExecutor_attrs)
    (gpu_ids : list string) (lim : option num) (available : list Z)
    (metas : list (string * gpu_meta)) :
  allocate_gpu_ids_meta attrs gpu_ids lim available = Ret metas ->
  fill_queue metas gpu_ids [] lim
  = Ret (concat (map (slots_of metas) gpu_ids), last_limit metas gpu_ids lim).
Proof.
  intros H. apply allocate_gpu_ids_meta_total in H.
  by rewrite fill_queue_closed_form.
Qed.

Lemma queue_filled_from_meta_witness :
  fill_queue
    [("0", {| meta_gpu_memory_limit := Some (Float (float_lit 90));
              meta_process_per_gpu := 11 |});
     ("1", {| meta_gpu_memory_limit := Some (Float (float_lit 90));
              meta_process_per_gpu := 11 |})] ["0"; "1"] [] None
  = Ret (replicate 11 {| gpu_id := "0";
                         gpu_memory_limit := Some (Float (float_lit 90)) |}
         ++ replicate 11 {| gpu_id := "1";
                            gpu_memory_limit :=
                              Some (Float (float_lit 90)) |},
         Some (Float (float_lit 90))).
Proof.
  apply (queue_filled_from_meta (ParallelExecutor_default 4) ["0"; "1"] None
           [1000; 1000]%Z).
  by vm_compute.
Defined.

(** The string of GPU ids the set-up works on, and its ids. *)
Definition gpus_string (gpus : gpus_arg) : string :=
  strip (match gpus with GpuInt n => str_of_int n | GpuStr s => s end).

Definition gpu_ids_of (gpus : gpus_arg) : list string :=
  str_split ","%char (gpus_string gpus).

Lemma slots_of_one metas ids lim :
  Forall (fun id => dict_get id metas
                    = Some {| meta_gpu_memory_limit := lim;
                              meta_process_per_gpu := 1 |}) ids ->
  concat (map (slots_of metas) ids)
  = map (fun id => {| gpu_id := id; gpu_memory_limit := lim |}) ids
  /\ last_limit metas ids lim = lim.
Proof.
  intros Hall. split.
  - induction Hall as [|id ids Hid Hall IH]; [done|].
    cbn [map concat]. rewrite IH. unfold slots_of. by rewrite Hid.
  - unfold last_limit. destruct (last ids) as [id|] eqn:Hlast; [|done].
    apply last_Some_elem_of in Hlast. rewrite Forall_forall in Hall.
    by rewrite (Hall id Hlast).
Qed.

(** With at least as many GPU ids as workers the set-up asks for the memory
    of the GPUs, and raises if that query does, but uses neither its answer
    nor the form of the ids: once the query has returned, the set-up cannot
    fail, the queue it leaves holds one slot per listed id, in the listed
    order, each with the limit the caller gave (none, if none was given), and
    that limit is the one the trials' arguments carry. *)
Theorem enough_gpus_one_slot_each {St} (ext : externals)
    (attrs : ParallelExecutor_attrs) (gpus : gpus_arg) (lim : option num)
    (w : world St) :
  (num_workers attrs <= Z.of_nat (length (gpu_ids_of gpus)))%Z ->
  ParallelExecutor_setup ext attrs gpus lim w
  = match get_available_gpu_memory ext with
    | Ret _ =>
        (Done (gpus_string gpus, lim),
         with_queue w
           (map (fun id => {| gpu_id := id; gpu_memory_limit := lim |})
              (gpu_ids_of gpus)))
    | Raise e => (Raised e, w)
    end.
Proof.
  intros HW. unfold ParallelExecutor_setup.
  fold (gpus_string gpus). fold (gpu_ids_of gpus).
  unfold ebind at 1, of_outcome at 1.
  destruct (get_available_gpu_memory ext) as [available|e]; [|done].
  unfold allocate_gpu_ids_meta.
  apply Z.ltb_ge in HW. rewrite HW.
  set (metas := fold_left _ _ _).
  assert (Hall : Forall (fun id => dict_get id metas
                           = Some {| meta_gpu_memory_limit := lim;
                                     meta_process_per_gpu := 1 |})
                   (gpu_ids_of gpus)).
  { apply Forall_forall. intros id Hid. unfold metas.
    rewrite (fold_dict_set_lookup
               (fun _ => {| meta_gpu_memory_limit := lim;
                            meta_process_per_gpu := 1 |})).
    by rewrite decide_True. }
  unfold ebind, of_outcome.
  rewrite fill_queue_closed_form
    by (eapply Forall_impl; [exact Hall|]; intros id ->; by eexists).
  destruct (slots_of_one metas (gpu_ids_of gpus) lim Hall) as [-> ->].
  reflexivity.
Qed.

Lemma enough_gpus_one_slot_each_witness :
  ParallelExecutor_setup example_ext (ParallelExecutor_default 2)
    (GpuStr " 1,0 ") (Some (Int 500)) example_world
  = (Done ("1,0", Some (Int 500)),
     with_queue example_world
       [ {| gpu_id := "1"; gpu_memory_limit := Some (Int 500) |};
         {| gpu_id := "0"; gpu_memory_limit := Some (Int 500) |} ]).
Proof.
  apply (enough_gpus_one_slot_each example_ext (ParallelExecutor_default 2)
           (GpuStr " 1,0 ") (Some (Int 500)) example_world).
  by vm_compute.
Defined.

(** ** The slot queue during a run *)

(** The queue holds the same slots, in some order. *)
Definition queue_perm {St} : relation (world St) :=
  fun w w' => w_queue w' ≡ₚ w_queue w.

#[local] Instance queue_perm_refl {St} : Reflexive (@queue_perm St).
Proof. intros w. unfold queue_perm. reflexivity. Qed.
#[local] Instance queue_perm_trans {St} : Transitive (@queue_perm St).
Proof. unfold queue_perm. intros w1 w2 w3 H1 H2. by etrans. Qed.

Lemma modified_definition_queue {St} ext md ps :
  respects same_queue (modified_definition (St:=St) ext md ps).
Proof.
  apply respects_ebind; [apply _| |intros c];
    apply respects_lift; intros w; done.
Qed.

Lemma parallel_parameters_queue {St} ext md gpus lim trials i sampled acc :
  respects same_queue
    (parallel_parameters (St:=St) ext md gpus lim trials i sampled acc).
Proof.
  revert i acc. induction sampled as [|ps rest IH]; intros i acc; simpl.
  - apply respects_eret; apply _.
  - apply respects_ebind; [apply _|apply modified_definition_queue|].
    intros c. apply IH.
Qed.

Lemma _train_and_eval_model_queue {St} (self : HyperoptExecutor St) ext hd :
  respects same_queue (_train_and_eval_model self ext hd).
Proof.
  unfold _train_and_eval_model.
  apply respects_ebind; [apply _|apply respects_run_trial; apply _|].
  intros st.
  apply respects_ebind; [apply _|apply respects_of_outcome; apply _|].
  intros sc. apply respects_eret; apply _.
Qed.

Lemma _train_and_eval_model_gpu_queue {St} (self : HyperoptExecutor St)
    ext hd :
  respects queue_perm (_train_and_eval_model_gpu self ext hd).
Proof.
  intros w. unfold queue_perm.
  unfold _train_and_eval_model_gpu, ebind, queue_get, try_finally,
    queue_put, run_trial, of_outcome, eret.
  destruct (w_queue w) as [|s q] eqn:Hq; simpl; [by rewrite Hq|].
  destruct (train_and_eval_on_split ext _ _) as [st|]; simpl.
  - destruct (get_metric_score self _) as [sc|]; simpl;
      by rewrite Permutation_app_comm.
  - by rewrite Permutation_app_comm.
Qed.

Lemma same_queue_perm {St} {A} (m : E St A) :
  respects same_queue m -> respects queue_perm m.
Proof. intros H w. unfold queue_perm. by rewrite (H w). Qed.

(** However a run of the parallel loop ends, by returning, by a trial that
    raises, by waiting on an empty queue or by the model's loop budget, the
    queue then holds exactly the slots it held when the loop started: none
    was lost and none was put twice. *)
Theorem slots_conserved {St} (self : HyperoptExecutor St) (ext : externals)
    (fuel : nat) (model_definition : val) (gpus : option gpus_arg)
    (lim : option num) (results : list trial_result) (trials : nat)
    (w : world St) :
  w_queue (ParallelExecutor_loop self ext fuel model_definition gpus lim
             results trials w).2
  ≡ₚ w_queue w.
Proof.
  revert results trials w.
  assert (H : forall results trials,
             respects queue_perm
               (ParallelExecutor_loop self ext fuel model_definition gpus lim
                  results trials)); [|exact H].
  induction fuel as [|fuel IH]; intros results trials; simpl.
  - apply respects_out_of_fuel; apply _.
  - apply respects_ebind; [apply _| |].
    { apply same_queue_perm. by intros w. }
    intros [|]; [apply respects_eret; apply _|].
    apply respects_ebind; [apply _| |].
    { apply same_queue_perm. intros w. unfold call_sample_batch.
      by destruct (sample_batch _ _). }
    intros batch.
    apply respects_ebind; [apply _| |].
    { apply same_queue_perm, parallel_parameters_queue. }
    intros hps.
    apply respects_ebind; [apply _| |].
    { destruct gpus; apply respects_pool_map; try apply _.
      - apply _train_and_eval_model_gpu_queue.
      - intros hd. apply same_queue_perm, _train_and_eval_model_queue. }
    intros brs.
    apply respects_ebind; [apply _| |].
    { apply same_queue_perm. by intros w. }
    intros _. apply IH.
Qed.

(** ** A run that finds no slot *)

Lemma modified_definition_ends {St} ext md ps (w : world St) :
  match (modified_definition ext md ps w).1 with
  | Done _ | Raised _ => True
  | Blocked | OutOfFuel => False
  end.
Proof.
  unfold modified_definition, ebind, lift.
  destruct (deepcopy_top _ _ _) as [[c|e] h1]; [|done].
  simpl. by destruct (substitute_parameters _ _ _) as [[v|e] h2].
Qed.

Lemma parallel_parameters_ends {St} ext md gpus lim trials i sampled acc
    (w : world St) :
  match (parallel_parameters ext md gpus lim trials i sampled acc w).1 with
  | Done _ | Raised _ => True
  | Blocked | OutOfFuel => False
  end.
Proof.
  revert i acc w. induction sampled as [|ps rest IH]; intros i acc w; simpl.
  - done.
  - unfold ebind. pose proof (modified_definition_ends ext md ps w) as H.
    destruct (modified_definition ext md ps w) as [[c|e| |] w1];
      simpl in *; try done.
    apply IH.
Qed.

(** When the set-up left no slot in the queue (every GPU's [process_per_gpu]
    was zero or negative) and the sampler's first batch is not empty, the
    parallel executor returns no result: unless preparing the batch raises,
    the first trial waits for ever on the queue.  Here this happens with 10
    workers on one GPU of 1000 units, whose default limit is negative. *)
Theorem no_slot_no_result :
  (forall St (self : HyperoptExecutor St) (ext : externals)
          (attrs : ParallelExecutor_attrs) (fuel : nat)
          (model_definition : val) (g : gpus_arg) (lim : option num)
          (w w1 : world St) (r : string * option num),
     ParallelExecutor_setup ext attrs g lim w = (Done r, w1) ->
     w_queue w1 = [] ->
     finished (hyperopt_sampler self) (w_sampler w) = false ->
     (sample_batch (hyperopt_sampler self) (w_sampler w)).1 <> [] ->
     (ParallelExecutor_execute self ext attrs (S fuel) model_definition
        (Some g) lim w).1
     = Blocked
     \/ exists e,
          (ParallelExecutor_execute self ext attrs (S fuel) model_definition
             (Some g) lim w).1
          = Raised e)
  /\ (ParallelExecutor_execute example_self example_ext
        (ParallelExecutor_default 10) 5 (VRef 0) (Some (GpuStr "0")) None
        example_world).1
     = Blocked.
Proof.
  split; [|reflexivity].
  intros St self ext attrs fuel md g lim w w1 r Hsetup Hq Hfin Hbatch.
  pose proof (ParallelExecutor_setup_calls ext attrs g lim w) as Hcalls.
  rewrite Hsetup in Hcalls. destruct Hcalls as [_ Hst]. simpl in Hst.
  destruct (ParallelExecutor_execute self ext attrs (S fuel) md (Some g) lim w)
    as [res w'] eqn:Hrun. cbn [fst].
  unfold ParallelExecutor_execute, ebind at 1, ebind at 1 in Hrun.
  rewrite Hsetup in Hrun. cbn [eret] in Hrun.
  destruct (num_workers attrs <? 1)%Z;
    [right; injection Hrun as <- _; by eexists|].
  unfold ebind at 1, try_finally in Hrun.
  cbn [ParallelExecutor_loop] in Hrun.
  unfold ebind at 1, call_finished in Hrun.
  rewrite Hst, Hfin in Hrun. unfold ebind at 1, call_sample_batch in Hrun.
  destruct (sample_batch (hyperopt_sampler self) (w_sampler w))
    as [batch st] eqn:Hsb. simpl in Hbatch.
  cbn [w_sampler with_sampler] in Hrun. rewrite Hsb in Hrun.
  unfold ebind at 1 in Hrun.
  set (w2 := with_sampler _ st _) in Hrun.
  pose proof (parallel_parameters_ends ext md (Some (GpuStr r.1)) r.2 0 0
                batch [] w2) as Hends.
  pose proof (parallel_parameters_queue ext md (Some (GpuStr r.1)) r.2 0 0
                batch [] w2) as Hsame.
  destruct (parallel_parameters ext md (Some (GpuStr r.1)) r.2 0 0 batch []
              w2) as [[hps|e| |] w3] eqn:Hpp; simpl in Hends; try done.
  - apply parallel_parameters_Done in Hpp as [_ (new & -> & Hnew)].
    unfold same_queue in Hsame. simpl in Hsame.
    destruct new as [|hd new]; [by subst batch|].
    left. unfold ebind at 1 in Hrun. cbn [app pool_map] in Hrun.
    unfold ebind at 1, _train_and_eval_model_gpu at 1, ebind at 1, queue_get
      in Hrun.
    rewrite Hsame, Hq in Hrun. by injection Hrun as <- _.
  - right. injection Hrun as <- _. by eexists.
Qed.

Lemma no_slot_no_result_witness :
  (ParallelExecutor_execute example_self example_ext
     (ParallelExecutor_default 10) 3 (VRef 0) (Some (GpuStr "0")) None
     example_world).1
  = Blocked
  \/ exists e,
       (ParallelExecutor_execute example_self example_ext
          (ParallelExecutor_default 10) 3 (VRef 0) (Some (GpuStr "0")) None
          example_world).1
       = Raised e.
Proof.
  eapply (proj1 no_slot_no_result nat example_self example_ext
            (ParallelExecutor_default 10) 2%nat (VRef 0) (GpuStr "0") None
            example_world).
  - reflexivity.
  - reflexivity.
  - reflexivity.
  - by vm_compute.
Defined.

(** ** A run that does not return *)

(** The run was stopped by an exception or waits for ever. *)
Definition stopped {A} (r : result A) : Prop :=
  match r with
  | Raised _ | Blocked => True
  | Done _ | OutOfFuel => False
  end.

(** The calls of a run that was stopped in a batch: whole rounds, then the
    sampler said it was not finished and gave a batch, and nothing was
    reported to it for that batch. *)
Definition interrupted_run (before after : list sampler_call) : Prop :=
  exists calls pairs batch,
    after = before ++ calls ++ [CallFinished false; CallSampleBatch batch]
    /\ rounds calls pairs.

Section Stopped.
Context {St : Type} (self : HyperoptExecutor St) (ext : externals).

Lemma serial_batch_calls md gpus lim trials i sampled scores results :
  respects same_calls
    (serial_batch self ext md gpus lim trials i sampled scores results).
Proof.
  revert i scores results.
  induction sampled as [|ps rest IH]; intros i scores results; simpl.
  - apply respects_eret; apply _.
  - apply respects_ebind; [apply _|apply modified_definition_calls|].
    intros c.
    apply respects_ebind; [apply _|apply respects_run_trial; apply _|].
    intros st.
    apply respects_ebind; [apply _|apply respects_of_outcome; apply _|].
    intros sc. apply IH.
Qed.

Lemma parallel_parameters_calls md gpus lim trials i sampled acc :
  respects same_calls
    (parallel_parameters (St:=St) ext md gpus lim trials i sampled acc).
Proof.
  revert i acc. induction sampled as [|ps rest IH]; intros i acc; simpl.
  - apply respects_eret; apply _.
  - apply respects_ebind; [apply _|apply modified_definition_calls|].
    intros c. apply IH.
Qed.

Lemma _train_and_eval_model_calls hd :
  respects same_calls (_train_and_eval_model self ext hd).
Proof.
  unfold _train_and_eval_model.
  apply respects_ebind; [apply _|apply respects_run_trial; apply _|].
  intros st.
  apply respects_ebind; [apply _|apply respects_of_outcome; apply _|].
  intros sc. apply respects_eret; apply _.
Qed.

Lemma _train_and_eval_model_gpu_calls hd :
  respects same_calls (_train_and_eval_model_gpu self ext hd).
Proof.
  unfold _train_and_eval_model_gpu.
  apply respects_ebind; [apply _| |].
  { intros w. unfold queue_get. by destruct (w_queue w). }
  intros s. apply respects_ebind; [apply _| |].
  - apply respects_try_finally; [apply _| |by intros w].
    apply respects_ebind; [apply _|apply respects_run_trial; apply _|].
    intros st.
    apply respects_ebind; [apply _|apply respects_of_outcome; apply _|].
    intros sc. apply respects_eret; apply _.
  - intros [[ps sc] st]. apply respects_eret; apply _.
Qed.

Lemma fiber_arguments_calls md gpus lim trials i sampled :
  respects same_calls
    (fiber_arguments (St:=St) ext md gpus lim trials i sampled).
Proof.
  revert i. induction sampled as [|ps rest IH]; intros i; simpl.
  - apply respects_eret; apply _.
  - apply respects_ebind; [apply _|apply modified_definition_calls|].
    intros c. apply respects_ebind; [apply _|apply IH|].
    intros others. apply respects_eret; apply _.
Qed.

Lemma fiber_collect_calls pairs scores results :
  respects same_calls (fiber_collect self pairs scores results).
Proof.
  revert scores results.
  induction pairs as [|[st ps] rest IH]; intros scores results; simpl.
  - apply respects_eret; apply _.
  - apply respects_ebind; [apply _|apply respects_of_outcome; apply _|].
    intros sc. apply IH.
Qed.

(** The batch in progress when a run stops got no update. *)
Lemma interrupted_now (w w2 : world St) batch st :
  same_calls
    (with_sampler (with_sampler w (w_sampler w) (CallFinished false))
       st (CallSampleBatch batch)) w2 ->
  interrupted_run (w_calls w) (w_calls w2).
Proof.
  intros [Hc _]. exists [], [], batch. split; [|constructor].
  rewrite Hc. simpl. by rewrite <- app_assoc.
Qed.

(** One more round before a run that stops. *)
Lemma interrupted_round (w w2 w' : world St) batch st new :
  same_calls
    (with_sampler (with_sampler w (w_sampler w) (CallFinished false))
       st (CallSampleBatch batch)) w2 ->
  map parameters new = batch ->
  interrupted_run
    (w_calls (with_sampler w2 (update_batch (hyperopt_sampler self)
                                 (map pair_of new) (w_sampler w2))
                (CallUpdateBatch (map pair_of new))))
    (w_calls w') ->
  interrupted_run (w_calls w) (w_calls w').
Proof.
  intros [Hc _] Hnew (calls & pairs & last & Hcalls & Hrounds).
  exists (CallFinished false :: CallSampleBatch batch
            :: CallUpdateBatch (map pair_of new) :: calls),
         (map pair_of new ++ pairs), last.
  split.
  - rewrite Hcalls. simpl. rewrite Hc. simpl. by rewrite <- !app_assoc.
  - constructor; [|done]. by rewrite map_fst_pair_of.
Qed.

(** The head of a loop in a run that stops. *)
Ltac stopped_head H Hstop w batch st :=
  unfold ebind at 1, call_finished in H;
  destruct (finished (hyperopt_sampler self) (w_sampler w));
  [ by injection H as <- _ | ];
  unfold ebind at 1, call_sample_batch in H;
  cbn [w_sampler with_sampler] in H;
  destruct (sample_batch (hyperopt_sampler self) (w_sampler w))
    as [batch st];
  unfold ebind at 1 in H.

Lemma SerialExecutor_loop_stopped fuel md gpus lim results trials w r w' :
  SerialExecutor_loop self ext fuel md gpus lim results trials w = (r, w') ->
  stopped r ->
  interrupted_run (w_calls w) (w_calls w').
Proof.
  revert results trials w.
  induction fuel as [|fuel IH]; intros results trials w H Hstop; simpl in H.
  { by injection H as <- _. }
  stopped_head H Hstop w batch st.
  match type of H with context [serial_batch ?a ?b ?c ?d ?e ?f ?g ?h ?i ?j ?k] =>
    pose proof (serial_batch_calls c d e f g h i j k) as Hc;
    destruct (serial_batch a b c d e f g h i j k) as [[rb|e'| |] w2] eqn:Hb
  end; simpl in Hc.
  - apply serial_batch_Done in Hb as [_ (new & -> & Hnew)].
    unfold ebind at 1, call_update_batch in H. cbn [fst snd] in H.
    apply IH in H; [|done].
    rewrite <- Hnew, zip_pair_of in H.
    by eapply interrupted_round.
  - injection H as <- <-. by eapply interrupted_now.
  - injection H as <- <-. by eapply interrupted_now.
  - by injection H as <- _.
Qed.
Lemma pool_map_trainers_calls (gpus : option gpus_arg) hps :
  respects same_calls
    (if gpus is Some _
     then pool_map (_train_and_eval_model_gpu self ext) hps
     else pool_map (_train_and_eval_model self ext) hps).
Proof.
  destruct gpus as [g|]; apply respects_pool_map; try apply _.
  - apply _train_and_eval_model_gpu_calls.
  - apply _train_and_eval_model_calls.
Qed.

Lemma pool_map_trainers_Done (gpus : option gpus_arg) hps w brs w' :
  (if gpus is Some _
   then pool_map (_train_and_eval_model_gpu self ext) hps
   else pool_map (_train_and_eval_model self ext) hps) w = (Done brs, w') ->
  map parameters brs = map hd_parameters hps.
Proof.
  intros Hm.
  assert (Forall2 (fun hd r => parameters r = hd_parameters hd) hps brs)
    as Hps.
  { destruct gpus;
      (eapply pool_map_Done; [|exact Hm]); intros x wx y wy Hx.
    - by apply _train_and_eval_model_gpu_Done in Hx.
    - by apply _train_and_eval_model_Done in Hx. }
  clear Hm. induction Hps as [|hd r hp brs' Hr _ IHps]; simpl; [done|].
  by rewrite Hr, IHps.
Qed.

Lemma ParallelExecutor_loop_stopped fuel md gpus lim results trials w r w' :
  ParallelExecutor_loop self ext fuel md gpus lim results trials w = (r, w') ->
  stopped r ->
  interrupted_run (w_calls w) (w_calls w').
Proof.
  revert results trials w.
  induction fuel as [|fuel IH]; intros results trials w H Hstop; simpl in H.
  { by injection H as <- _. }
  stopped_head H Hstop w batch st.
  match type of H with context [parallel_parameters ?b ?c ?d ?e ?f ?g ?h ?i ?k] =>
    pose proof (parallel_parameters_calls c d e f g h i k) as Hc;
    destruct (parallel_parameters b c d e f g h i k) as [[hps|e'| |] w2] eqn:Hb
  end; simpl in Hc.
  - apply parallel_parameters_Done in Hb as [_ (hp & -> & Hhp)].
    simpl in Hhp. unfold ebind at 1 in H.
    pose proof (pool_map_trainers_calls gpus ([] ++ hp) w2) as Hc2.
    destruct ((if gpus is Some _
               then pool_map (_train_and_eval_model_gpu self ext) ([] ++ hp)
               else pool_map (_train_and_eval_model self ext) ([] ++ hp)) w2)
      as [[brs|e'| |] w3] eqn:Hm; simpl in Hc2.
    + apply pool_map_trainers_Done in Hm. simpl in Hm.
      unfold ebind at 1, call_update_batch in H.
      apply IH in H; [|done].
      eapply (interrupted_round w w3 w' batch st brs);
        [by etrans|by rewrite Hm|exact H].
    + injection H as <- <-. eapply interrupted_now. by etrans.
    + injection H as <- <-. eapply interrupted_now. by etrans.
    + by injection H as <- _.
  - injection H as <- <-. by eapply interrupted_now.
  - injection H as <- <-. by eapply interrupted_now.
  - by injection H as <- _.
Qed.

Lemma pool_map_unary_calls args :
  respects same_calls
    (pool_map (_train_and_eval_on_split_unary (St:=St) ext) args).
Proof.
  apply respects_pool_map; try apply _. intros x.
  apply respects_run_trial; apply _.
Qed.

Lemma FiberExecutor_loop_stopped fuel md gpus lim results trials w r w' :
  FiberExecutor_loop self ext fuel md gpus lim results trials w = (r, w') ->
  stopped r ->
  interrupted_run (w_calls w) (w_calls w').
Proof.
  revert results trials w.
  induction fuel as [|fuel IH]; intros results trials w H Hstop; simpl in H.
  { by injection H as <- _. }
  stopped_head H Hstop w batch st.
  match type of H with context [fiber_arguments ?b ?c ?d ?e ?f ?g ?h ?k] =>
    pose proof (fiber_arguments_calls c d e f g h k) as Hc;
    destruct (fiber_arguments b c d e f g h k) as [[args|e'| |] w2] eqn:Hb
  end; simpl in Hc;
    [|injection H as <- <-; by eapply interrupted_now
     |injection H as <- <-; by eapply interrupted_now
     |by injection H as <- _].
  apply fiber_arguments_Done in Hb as [_ Hlen].
  unfold ebind at 1 in H.
  pose proof (pool_map_unary_calls args w2) as Hc2.
  destruct (pool_map (_train_and_eval_on_split_unary ext) args w2)
    as [[stats_batch|e'| |] w3] eqn:Hm; simpl in Hc2;
    [|injection H as <- <-; eapply interrupted_now; by etrans
     |injection H as <- <-; eapply interrupted_now; by etrans
     |by injection H as <- _].
  apply pool_map_length in Hm.
  unfold ebind at 1 in H.
  pose proof (fiber_collect_calls (zip stats_batch batch) [] results w3)
    as Hc3.
  destruct (fiber_collect self (zip stats_batch batch) [] results w3)
    as [[rc|e'| |] w4] eqn:Hcol; simpl in Hc3;
    [|injection H as <- <-; eapply interrupted_now;
      by repeat (etrans; [eassumption|])
     |injection H as <- <-; eapply interrupted_now;
      by repeat (etrans; [eassumption|])
     |by injection H as <- _].
  apply fiber_collect_Done in Hcol as [_ (new & -> & Hnew)].
  rewrite snd_zip in Hnew by lia.
  unfold ebind at 1, call_update_batch in H. cbn [fst snd] in H.
  apply IH in H; [|done].
  rewrite <- Hnew, zip_pair_of in H.
  eapply (interrupted_round w w4 w' batch st new);
    [by repeat (etrans; [eassumption|])|exact Hnew|exact H].
Qed.
End Stopped.

(** When a run of any of the three executors is stopped, by an exception or
    waiting on the slot queue, the sampler was told nothing about the batch
    in progress: every earlier batch was reported to it once and in whole,
    and the calls end with the [finished] answered no and the [sample_batch]
    of the batch that was not completed.  The parallel executor may also
    stop before the first call, in its set-up: then no call was made. *)
Theorem no_partial_feedback {St} (cls : executor_class)
    (self : HyperoptExecutor St) (attrs : ParallelExecutor_attrs)
    (ext : externals) (fuel : nat) (model_definition : val)
    (gpus : option gpus_arg) (lim : option num) (w w' : world St)
    (r : result (list trial_result)) :
  execute cls self attrs ext fuel model_definition gpus lim w = (r, w') ->
  stopped r ->
  (cls = ParallelExecutor /\ w_calls w' = w_calls w)
  \/ interrupted_run (w_calls w) (w_calls w').
Proof.
  destruct cls; simpl; intros H Hstop.
  - right. unfold SerialExecutor_execute, ebind in H.
    destruct (SerialExecutor_loop _ _ _ _ _ _ _ _ _) as [[out|e| |] w1] eqn:Hl;
      injection H as <- <-; try done;
      by eapply SerialExecutor_loop_stopped.
  - unfold ParallelExecutor_execute in H. unfold ebind at 1 in H.
    match type of H with context [match ?prep w with _ => _ end] =>
      assert (Hprep : respects same_calls prep);
      [|specialize (Hprep w);
        destruct (prep w) as [[[gpus' lim']|e| |] w1] eqn:Hp]
    end.
    { destruct (match gpus with
                | Some _ => gpus
                | None => option_map GpuStr
                            (get_available_gpus_cuda_string ext)
                end) as [g|]; [|apply respects_eret; apply _].
      apply respects_ebind;
        [apply _|apply ParallelExecutor_setup_calls|].
      intros r0. apply respects_eret; apply _. }
    all: simpl in Hprep; destruct Hprep as [Hc _].
    + destruct (num_workers attrs <? 1)%Z.
      * injection H as <- <-. by left.
      * right. rewrite <- Hc. unfold ebind, try_finally, eret in H.
        destruct (ParallelExecutor_loop _ _ _ _ _ _ _ _ _)
          as [[out|e| |] w2] eqn:Hl;
          injection H as <- <-; try done;
          by eapply ParallelExecutor_loop_stopped.
    + injection H as <- <-. by left.
    + injection H as <- <-. by left.
    + injection H as <- <-. by left.
  - right. unfold FiberExecutor_execute, ebind in H.
    destruct (FiberExecutor_loop _ _ _ _ _ _ _ _ _) as [[out|e| |] w1] eqn:Hl;
      injection H as <- <-; try done;
      by eapply FiberExecutor_loop_stopped.
Qed.

(** A run on a configuration without its sections: the first substitution
    raises [KeyError] after the sampler gave its batch. *)
Lemma no_partial_feedback_witness :
  let run :=
    execute SerialExecutor example_self (ParallelExecutor_default 4)
      example_ext 5 (VRef 7) None None example_world in
  (SerialExecutor = ParallelExecutor
   /\ w_calls run.2 = w_calls example_world)
  \/ interrupted_run (w_calls example_world) (w_calls run.2).
Proof.
  intros run.
  apply (no_partial_feedback SerialExecutor example_self
           (ParallelExecutor_default 4) example_ext 5 (VRef 7) None None
           example_world run.2 run.1).
  - apply surjective_pairing.
  - by vm_compute.
Defined.

(** ** What the results of a run hold *)

(** The score of a result is the one its evaluation statistics give for the
    executor's output feature and metric. *)
Definition score_from_stats {St} (self : HyperoptExecutor St)
    (r : trial_result) : Prop :=
  get_metric_score self (eval_stats r) = Ret (metric_score r).

Section Scores.
Context {St : Type} (self : HyperoptExecutor St) (ext : externals).

Lemma of_outcome_Done {A} (o : outcome A) (w : world St) a w' :
  of_outcome o w = (Done a, w') -> o = Ret a.
Proof. destruct o; simpl; [by intros [= <- _]|done]. Qed.

Lemma serial_batch_scores md gpus lim trials i sampled scores results w r w' :
  serial_batch self ext md gpus lim trials i sampled scores results w
  = (Done r, w') ->
  Forall (score_from_stats self) results ->
  Forall (score_from_stats self) r.2.
Proof.
  revert i scores results w.
  induction sampled as [|ps rest IH]; intros i scores results w; simpl.
  - by intros [= <- _].
  - intros H Hall. ebind_inv_as H c w1 Hc. ebind_inv_as H st w2 Ht.
    ebind_inv_as H sc w3 Hs. apply of_outcome_Done in Hs.
    eapply IH; [exact H|]. apply Forall_app. split; [done|].
    by repeat constructor.
Qed.

Lemma fiber_collect_scores pairs scores results w r w' :
  fiber_collect self pairs scores results w = (Done r, w') ->
  Forall (score_from_stats self) results ->
  Forall (score_from_stats self) r.2.
Proof.
  revert scores results w.
  induction pairs as [|[st ps] rest IH]; intros scores results w; simpl.
  - by intros [= <- _].
  - intros H Hall. ebind_inv_as H sc w1 Hs. apply of_outcome_Done in Hs.
    eapply IH; [exact H|]. apply Forall_app. split; [done|].
    by repeat constructor.
Qed.

Lemma _train_and_eval_model_scores hd w r w' :
  _train_and_eval_model self ext hd w = (Done r, w') ->
  score_from_stats self r.
Proof.
  unfold _train_and_eval_model. intros H.
  ebind_inv_as H st w1 Ht. ebind_inv_as H sc w2 Hs.
  apply of_outcome_Done in Hs. by injection H as <- _.
Qed.

Lemma _train_and_eval_model_gpu_scores hd w r w' :
  _train_and_eval_model_gpu self ext hd w = (Done r, w') ->
  score_from_stats self r.
Proof.
  unfold _train_and_eval_model_gpu, ebind, queue_get, try_finally,
    queue_put, run_trial, of_outcome, eret.
  destruct (w_queue w) as [|s q] eqn:Hq; [done|]. simpl.
  destruct (train_and_eval_on_split ext _ _) as [st|]; [|done].
  destruct (get_metric_score self _) as [sc|] eqn:Hs; [|done]. simpl.
  by intros [= <- _].
Qed.

Lemma pool_map_Forall {A B} (f : A -> E St B) (P : B -> Prop) l w ys w' :
  (forall x w y w', f x w = (Done y, w') -> P y) ->
  pool_map f l w = (Done ys, w') ->
  Forall P ys.
Proof.
  intros Hf. revert w ys w'.
  induction l as [|x l IH]; intros w ys w'; simpl.
  - by intros [= <- _].
  - intros H. ebind_inv_as H y w1 Hy. ebind_inv_as H ys' w2 Hys.
    injection H as <- <-. constructor; [by eapply Hf|by eapply IH].
Qed.

Lemma SerialExecutor_loop_scores fuel md gpus lim results trials w out w' :
  SerialExecutor_loop self ext fuel md gpus lim results trials w
  = (Done out, w') ->
  Forall (score_from_stats self) results ->
  Forall (score_from_stats self) out.
Proof.
  revert results trials w.
  induction fuel as [|fuel IH]; intros results trials w; simpl; [done|].
  intros H Hall. ebind_inv_as H b w1 Hf.
  destruct b; [by injection H as <- _|].
  ebind_inv_as H batch w2 Hsb. ebind_inv_as H r w3 Hb.
  ebind_inv_as H u w4 Hu.
  eapply IH; [exact H|]. by eapply serial_batch_scores.
Qed.

Lemma ParallelExecutor_loop_scores fuel md gpus lim results trials w out w' :
  ParallelExecutor_loop self ext fuel md gpus lim results trials w
  = (Done out, w') ->
  Forall (score_from_stats self) results ->
  Forall (score_from_stats self) out.
Proof.
  revert results trials w.
  induction fuel as [|fuel IH]; intros results trials w; simpl; [done|].
  intros H Hall. ebind_inv_as H b w1 Hf.
  destruct b; [by injection H as <- _|].
  ebind_inv_as H batch w2 Hsb. ebind_inv_as H hps w3 Hb.
  ebind_inv_as H brs w4 Hm. ebind_inv_as H u w5 Hu.
  eapply IH; [exact H|]. apply Forall_app. split; [done|].
  destruct gpus; (eapply pool_map_Forall; [|exact Hm]).
  - intros x wx y wy. apply _train_and_eval_model_gpu_scores.
  - intros x wx y wy. apply _train_and_eval_model_scores.
Qed.

Lemma FiberExecutor_loop_scores fuel md gpus lim results trials w out w' :
  FiberExecutor_loop self ext fuel md gpus lim results trials w
  = (Done out, w') ->
  Forall (score_from_stats self) results ->
  Forall (score_from_stats self) out.
Proof.
  revert results trials w.
  induction fuel as [|fuel IH]; intros results trials w; simpl; [done|].
  intros H Hall. ebind_inv_as H b w1 Hf.
  destruct b; [by injection H as <- _|].
  ebind_inv_as H batch w2 Hsb. ebind_inv_as H args w3 Hb.
  ebind_inv_as H stats_batch w4 Hm. ebind_inv_as H r w5 Hcol.
  ebind_inv_as H u w6 Hu.
  eapply IH; [exact H|]. by eapply fiber_collect_scores.
Qed.

(** What an executor returns is the ranking of the results its loop
    collected. *)
Lemma execute_ranks cls attrs fuel md gpus lim (w : world St) out w' :
  execute cls self attrs ext fuel md gpus lim w = (Done out, w') ->
  exists results,
    out = sort_hyperopt_results self results
    /\ Forall (score_from_stats self) results.
Proof.
  destruct cls; simpl.
  - unfold SerialExecutor_execute. intros H.
    ebind_inv_as H results w1 Hloop. injection H as <- _.
    exists results. split; [done|].
    by eapply SerialExecutor_loop_scores.
  - unfold ParallelExecutor_execute. intros H.
    ebind_inv_as H prepared w1 Hprep. destruct prepared as [gpus' lim'].
    destruct (num_workers attrs <? 1)%Z; [done|].
    ebind_inv_as H results w2 Hloop. injection H as <- _.
    apply try_finally_Done_inv in Hloop.
    exists results. split; [done|].
    by eapply ParallelExecutor_loop_scores.
  - unfold FiberExecutor_execute. intros H.
    ebind_inv_as H results w1 Hloop. injection H as <- _.
    exists results. split; [done|].
    by eapply FiberExecutor_loop_scores.
Qed.
End Scores.

(** In what any of the three executors returns, the [metric_score] of every
    result is the value that result's own [eval_stats] hold for the
    executor's output feature and metric. *)
Theorem scores_come_from_eval_stats {St} (cls : executor_class)
    (self : HyperoptExecutor St) (attrs : ParallelExecutor_attrs)
    (ext : externals) (fuel : nat) (model_definition : val)
    (gpus : option gpus_arg) (lim : option num) (w w' : world St)
    (out : list trial_result) :
  execute cls self attrs ext fuel model_definition gpus lim w
  = (Done out, w') ->
  Forall (fun r => get_metric_score self (eval_stats r)
                   = Ret (metric_score r)) out.
Proof.
  intros H. apply execute_ranks in H as (results & -> & Hall).
  unfold sort_hyperopt_results.
  eapply Permutation_Forall; [|exact Hall].
  symmetry. apply sorted_perm.
Qed.

Lemma scores_come_from_eval_stats_witness :
  Forall (fun r => get_metric_score example_self (eval_stats r)
                   = Ret (metric_score r))
    [scored_by_rate 0.1%Q [("training.learning_rate", VFloat 0.1%Q);
                           ("text.encoder", VStr "cnn")];
     scored_by_rate 0.001%Q [("training.learning_rate", VFloat 0.001%Q)]].
Proof.
  eapply (scores_come_from_eval_stats FiberExecutor example_self
            (ParallelExecutor_default 4) example_ext 5%nat (VRef 0) None None
            example_world).
  vm_compute. reflexivity.
Defined.

(** When no score of the run is NaN, the first result any of the three
    executors returns is a best one: no other result of the run has a higher
    score when the sampler's goal is MAXIMIZE, and none has a lower score
    otherwise. *)
Theorem best_trial_first {St} (cls : executor_class)
    (self : HyperoptExecutor St) (attrs : ParallelExecutor_attrs)
    (ext : externals) (fuel : nat) (model_definition : val)
    (gpus : option gpus_arg) (lim : option num) (w w' : world St)
    (best : trial_result) (others : list trial_result) :
  execute cls self attrs ext fuel model_definition gpus lim w
  = (Done (best :: others), w') ->
  Forall (fun r => is_nan (metric_score r) = false) (best :: others) ->
  Forall (fun r =>
            if String.eqb (goal (hyperopt_sampler self)) MAXIMIZE
            then float_le (metric_score r) (metric_score best) = true
            else float_le (metric_score best) (metric_score r) = true) others.
Proof.
  intros H Hnum. apply execute_ranks in H as (results & Hout & _).
  unfold sort_hyperopt_results in Hout.
  assert (Hnum' : numbers metric_score results).
  { unfold numbers. rewrite Hout in Hnum.
    by rewrite (sorted_perm metric_score) in Hnum. }
  pose proof (sorted_ordered metric_score
                (String.eqb (goal (hyperopt_sampler self)) MAXIMIZE) results
                Hnum') as Hsorted.
  rewrite <- Hout in Hsorted.
  apply StronglySorted_inv in Hsorted as [_ Hhead].
  destruct (String.eqb (goal (hyperopt_sampler self)) MAXIMIZE); exact Hhead.
Qed.

Lemma best_trial_first_witness :
  Forall (fun r =>
            if String.eqb (goal (hyperopt_sampler example_self)) MAXIMIZE
            then float_le (metric_score r)
                   (metric_score
                      (scored_by_rate 0.1%Q
                         [("training.learning_rate", VFloat 0.1%Q);
                          ("text.encoder", VStr "cnn")])) = true
            else float_le
                   (metric_score
                      (scored_by_rate 0.1%Q
                         [("training.learning_rate", VFloat 0.1%Q);
                          ("text.encoder", VStr "cnn")]))
                   (metric_score r) = true)
    [scored_by_rate 0.001%Q [("training.learning_rate", VFloat 0.001%Q)]].
Proof.
  eapply (best_trial_first ParallelExecutor example_self
            (ParallelExecutor_default 4) example_ext 5%nat (VRef 0) None None
            example_world).
  - vm_compute. reflexivity.
  - repeat constructor.
Defined.

(** With a sampler that is finished from the start, an executor returns the
    empty list after that one call of [finished]: no batch is asked for, no
    configuration is copied, nothing is trained and the sampler is not
    updated.  (The parallel executor is taken without GPUs, passed or
    detected, whose set-up comes before the loop, and with a pool of at least
    one worker.) *)
Theorem finished_sampler_runs_nothing {St} (cls : executor_class)
    (self : HyperoptExecutor St) (attrs : ParallelExecutor_attrs)
    (ext : externals) (fuel : nat) (model_definition : val)
    (lim : option num) (w : world St) :
  finished (hyperopt_sampler self) (w_sampler w) = true ->
  (cls = ParallelExecutor ->
   (1 <= num_workers attrs)%Z /\ get_available_gpus_cuda_string ext = None) ->
  execute cls self attrs ext (S fuel) model_definition None lim w
  = (Done [], with_sampler w (w_sampler w) (CallFinished true)).
Proof.
  intros Hfin Hpar.
  assert (Hsort : sort_hyperopt_results self [] = []).
  { unfold sort_hyperopt_results, sorted. by destruct (String.eqb _ _). }
  destruct cls; simpl.
  - unfold SerialExecutor_execute. cbn [SerialExecutor_loop].
    unfold ebind, call_finished. rewrite Hfin. cbn [eret].
    by rewrite Hsort.
  - destruct (Hpar eq_refl) as [HW Hnone].
    unfold ParallelExecutor_execute. rewrite Hnone. cbn [option_map].
    replace (num_workers attrs <? 1)%Z with false by (symmetry; lia).
    cbn [ParallelExecutor_loop].
    unfold ebind, try_finally, call_finished, eret. rewrite Hfin.
    by rewrite Hsort.
  - unfold FiberExecutor_execute. cbn [FiberExecutor_loop].
    unfold ebind, call_finished. rewrite Hfin. cbn [eret].
    by rewrite Hsort.
Qed.

Lemma finished_sampler_runs_nothing_witness :
  execute ParallelExecutor example_self (ParallelExecutor_default 2)
    example_ext 1 (VRef 0) None None
    {| w_heap := example_heap; w_sampler := 1%nat; w_calls := [];
       w_queue := [] |}
  = (Done [],
     {| w_heap := example_heap; w_sampler := 1%nat;
        w_calls := [CallFinished true]; w_queue := [] |}).
Proof.
  apply (finished_sampler_runs_nothing ParallelExecutor example_self
           (ParallelExecutor_default 2) example_ext 0 (VRef 0) None
           {| w_heap := example_heap; w_sampler := 1%nat; w_calls := [];
              w_queue := [] |}).
  - reflexivity.
  - intros _. split; [by vm_compute|reflexivity].
Defined.

(** ** What substitution may write *)

Lemma reach_extend h v a o b :
  reach h v a -> h !! a = Some o -> In (VRef b) (obj_vals o) -> reach h v b.
Proof.
  induction 1 as [a|a0 o0 v0 a Hlook Hin Hreach IH]; intros Ho Hb.
  - eapply reach_step; [exact Ho|exact Hb|apply reach_here].
  - eapply reach_step; [exact Hlook|exact Hin|]. by apply IH.
Qed.

(** What a set of addresses that is closed under reference holds of a
    value, it holds of everything reached from it. *)
Lemma reach_closed h (S : addr -> Prop) v a :
  (forall b o c, S b -> h !! b = Some o -> In (VRef c) (obj_vals o) -> S c) ->
  reach h v a ->
  (forall a0, v = VRef a0 -> S a0) ->
  S a.
Proof.
  intros Hclosed. induction 1 as [a|a0 o0 v0 a Hlook Hin Hreach IH]; intros Hv.
  - by apply Hv.
  - apply IH. intros c ->. eapply Hclosed; [|exact Hlook|exact Hin].
    by apply Hv.
Qed.

(** The objects reached from the configuration or from a value of the
    sample. *)
Definition reached_from (h : heap) (model_definition : val) (parameters : sample)
    (a : addr) : Prop :=
  reach h model_definition a
  \/ exists name v, In (name, v) parameters /\ reach h v a.

(** However it ends, [substitute_parameters] leaves alone every object of
    the store that is reached neither from the configuration it is given nor
    from a value of the sample: what it writes are the dicts of the
    configuration, dicts the sample's values refer to, and the dicts it
    allocates for the nested parameters. *)
Theorem substitute_parameters_footprint (model_definition : val)
    (parameters : sample) (h : heap) (a : addr) :
  a < length h ->
  ~ reached_from h model_definition parameters a ->
  (substitute_parameters model_definition parameters h).2 !! a = h !! a.
Proof.
  intros Hlt Hout.
  set (region := reached_from h model_definition parameters).
  assert (Hclosed : forall b o, region b -> h !! b = Some o ->
                                obj_ok region h o).
  { intros b o Hb Hlook. apply Forall_forall. intros v Hv.
    destruct v as [| | | | |c]; try done. left.
    apply list_elem_of_In in Hv.
    destruct Hb as [Hb|(name & v & Hin & Hb)].
    - left. by eapply reach_extend.
    - right. exists name, v. split; [done|]. by eapply reach_extend. }
  assert (Hmd : val_ok region h model_definition).
  { destruct model_definition as [| | | | |c]; try done.
    left. left. apply reach_here. }
  assert (Hps : sample_ok region h parameters).
  { apply Forall_forall. intros [name v] Hin.
    destruct v as [| | | | |c]; try done.
    left. right. exists name, (VRef c).
    split; [by apply list_elem_of_In|apply reach_here]. }
  destruct (framed_substitute_parameters region h model_definition parameters
              Hmd Hps h (frame_inv_start region h Hclosed))
    as [(_ & _ & Hsame) _].
  apply Hsame. intros [?|?]; [done|lia].
Qed.

Lemma substitute_parameters_footprint_witness :
  (substitute_parameters (VRef 0) example_sample
     (example_heap ++ [ODict [("seed", VInt 42)]])).2 !! 9%nat
  = (example_heap ++ [ODict [("seed", VInt 42)]]) !! 9%nat.
Proof.
  apply substitute_parameters_footprint.
  - simpl. lia.
  - intros [Hreach|(name & v & Hin & Hreach)].
    + assert (H9 : 9 < 9); [|lia].
      eapply (reach_closed _ (fun b => b < 9)); [|exact Hreach|].
      * intros b o c Hb Hlook Hc.
        do 9 (destruct b as [|b];
              [injection Hlook as <-; simpl in Hc;
               repeat (destruct Hc as [Hc|Hc]; [try done; injection Hc as <-; lia|]);
               done|]).
        lia.
      * intros a0 [= <-]. lia.
    + simpl in Hin.
      repeat (destruct Hin as [Hin|Hin];
              [injection Hin as <- <-; inversion Hreach|]).
      done.
Defined.

(** ** [set_values] on an entry without nested mappings *)

(** [target.update(entries)] on the entries of two dicts: the keys the target
    has keep their place and take the new value, the others are appended in
    the order of [entries]. *)
Definition dict_update (items entries : list (string * val))
  : list (string * val) :=
  fold_left (fun acc kv => dict_set kv.1 kv.2 acc) entries items.

(** A value that is no dict: a scalar, or a list of the store. *)
Definition no_dict (h : heap) (v : val) : Prop :=
  match v with
  | VRef a => exists elems, h !! a = Some (OList elems)
  | _ => True
  end.

Lemma no_dict_isinstance h h' v :
  no_dict h v ->
  (forall (a : addr) elems,
     h !! a = Some (OList elems) -> h' !! a = Some (OList elems)) ->
  isinstance_dict v h' = (Ret false, h').
Proof.
  intros Hv Hsame. destruct v as [| | | | |a]; try done.
  destruct Hv as [elems Ha]. unfold isinstance_dict, bind.
  by rewrite (read_Some _ _ _ (Hsame _ _ Ha)).
Qed.

Lemma dict_iter_update h t p titems params rem i :
  h !! t = Some (ODict titems) ->
  h !! p = Some (ODict params) ->
  t <> p ->
  Forall (fun kv => no_dict h kv.2) params ->
  i + rem = length params ->
  dict_iter rem i (length params) p (merge_entry t)
    (<[t := ODict (dict_update titems (take i params))]> h)
  = (Ret tt, <[t := ODict (dict_update titems params)]> h).
Proof.
  intros Ht Hp Htp Hall. revert i.
  assert (Hlt : t < length h) by by eapply lookup_lt_Some.
  induction rem as [|rem IH]; intros i Hi.
  - cbn [dict_iter]. unfold bind.
    rewrite (read_Some _ (<[t:=_]> h) (ODict params))
      by by rewrite list_lookup_insert_ne.
    rewrite Nat.eqb_refl. rewrite take_ge by lia. done.
  - cbn [dict_iter]. unfold bind at 1.
    rewrite (read_Some _ (<[t:=_]> h) (ODict params))
      by by rewrite list_lookup_insert_ne.
    rewrite Nat.eqb_refl.
    destruct (lookup_lt_is_Some_2 params i ltac:(lia)) as [[k v] Hkv].
    rewrite Hkv. unfold bind at 1.
    set (Ti := dict_update titems (take i params)).
    assert (Hbody : merge_entry t k v (<[t := ODict Ti]> h)
                    = (Ret tt, <[t := ODict (dict_set k v Ti)]> h)).
    { unfold merge_entry, bind at 1.
      rewrite (no_dict_isinstance h).
      - unfold setitem, bind.
        rewrite (read_Some _ (<[t:=_]> h) (ODict Ti))
          by by apply list_lookup_insert_eq.
        unfold write. by rewrite list_insert_insert_eq.
      - rewrite Forall_forall in Hall. apply (Hall (k, v)).
        by eapply list_elem_of_lookup_2.
      - intros a elems Ha. rewrite list_lookup_insert_ne; [done|].
        intros <-. rewrite Ht in Ha. discriminate Ha. }
    rewrite Hbody.
    replace (dict_set k v Ti) with (dict_update titems (take (S i) params)).
    + apply IH. lia.
    + rewrite (take_S_r _ _ _ Hkv). unfold dict_update, Ti.
      by rewrite fold_left_app.
Qed.

(** When the entry of [name] in [parameters_dict] holds no nested mapping,
    [set_values] is [target.update(entry)]: every key of the entry is set on
    the target to the entry's value (lists are shared, not copied), the keys
    the target already had keep their place, new keys are appended in the
    entry's order, and the other keys of the target keep their values.  The
    target is another object than the entry. *)
Theorem set_values_updates_flat (h : heap) (t d p : addr) (name : string)
    (titems ditems params : list (string * val)) :
  h !! t = Some (ODict titems) ->
  h !! d = Some (ODict ditems) ->
  dict_get name ditems = Some (VRef p) ->
  h !! p = Some (ODict params) ->
  t <> p ->
  Forall (fun kv => no_dict h kv.2) params ->
  set_values (VRef t) (VStr name) (VRef d) h
  = (Ret tt, <[t := ODict (dict_update titems params)]> h).
Proof.
  intros Ht Hd Hname Hp Htp Hall.
  unfold set_values, bind, contains, bind.
  rewrite (read_Some _ _ _ Hd). unfold ret.
  rewrite Hname. rewrite bool_decide_eq_true_2 by eauto.
  unfold getitem_val, getitem, bind. rewrite (read_Some _ _ _ Hd).
  rewrite Hname. unfold ret, for_items, bind.
  rewrite (read_Some _ _ _ Hp).
  pose proof (dict_iter_update h t p titems params (length params) 0
                Ht Hp Htp Hall ltac:(lia)) as Hiter.
  cbn [take] in Hiter. unfold dict_update at 1 in Hiter. cbn [fold_left] in Hiter.
  rewrite list_insert_id in Hiter by done. exact Hiter.
Qed.

Lemma set_values_updates_flat_witness :
  set_values (VRef 6) (VStr "training") (VRef 9)
    (example_heap
     ++ [ODict [("training", VRef 10)];
         ODict [("batch_size", VInt 64); ("epochs", VInt 10)]])
  = (Ret tt,
     <[6%nat := ODict [("learning_rate", VFloat (1 # 100));
                       ("batch_size", VInt 64); ("epochs", VInt 10)]]>
       (example_heap
        ++ [ODict [("training", VRef 10)];
            ODict [("batch_size", VInt 64); ("epochs", VInt 10)]])).
Proof.
  apply (set_values_updates_flat _ 6 9 10 "training"
           [("learning_rate", VFloat (1 # 100)); ("batch_size", VInt 128)]
           [("training", VRef 10)]
           [("batch_size", VInt 64); ("epochs", VInt 10)]);
    try reflexivity.
  - lia.
  - by repeat constructor.
Defined.

(** ** Substitution only adds *)

(** From [h] to [h'] every object is still there and of its kind, a dict
    has every key it had, and a list is as it was. *)
Definition grows (h h' : heap) : Prop :=
  forall (a : addr) o,
    h !! a = Some o ->
    match o with
    | ODict items =>
        exists items',
          h' !! a = Some (ODict items')
          /\ forall k, is_Some (dict_get k items) -> is_Some (dict_get k items')
    | OList elems => h' !! a = Some (OList elems)
    end.

Lemma grows_refl h : grows h h.
Proof. intros a [items|elems] Ha; [by exists items|done]. Qed.

Lemma grows_trans h1 h2 h3 : grows h1 h2 -> grows h2 h3 -> grows h1 h3.
Proof.
  intros H12 H23 a [items|elems] Ha.
  - destruct (H12 a _ Ha) as (items2 & Ha2 & Hk2).
    destruct (H23 a _ Ha2) as (items3 & Ha3 & Hk3).
    exists items3. split; [done|auto].
  - apply (H23 a (OList elems)). apply (H12 a (OList elems) Ha).
Qed.

Lemma dict_set_keeps {V} (k k' : string) (v : V) items :
  is_Some (dict_get k' items) -> is_Some (dict_get k' (dict_set k v items)).
Proof.
  intros H. destruct (decide (k' = k)) as [->|Hne].
  - rewrite dict_get_set_eq. by eexists.
  - by rewrite dict_get_set_ne.
Qed.

Lemma grows_alloc h o : grows h (h ++ [o]).
Proof.
  intros a o' Ha.
  assert (Hlook : (h ++ [o]) !! a = Some o').
  { rewrite lookup_app_l; [done|]. by eapply lookup_lt_Some. }
  destruct o' as [items|elems]; [by exists items|done].
Qed.

Lemma grows_setitem h (a : addr) items k v :
  h !! a = Some (ODict items) ->
  grows h (<[a := ODict (dict_set k v items)]> h).
Proof.
  intros Ha b o Hb. destruct (decide (a = b)) as [<-|Hne].
  - rewrite Ha in Hb. injection Hb as <-.
    eexists. split; [apply list_lookup_insert_eq; by eapply lookup_lt_Some|].
    intros k'. apply dict_set_keeps.
  - rewrite list_lookup_insert_ne by done.
    destruct o as [items'|elems]; [by exists items'|done].
Qed.

(** A store computation that only adds, however it ends. *)
Definition adds_only {A} (m : M A) : Prop := forall h, grows h (m h).2.

Lemma adds_only_ret {A} (a : A) : adds_only (ret a).
Proof. intros h. apply grows_refl. Qed.

Lemma adds_only_raise {A} (e : exn) : adds_only (@raise A e).
Proof. intros h. apply grows_refl. Qed.

Lemma adds_only_bind {A B} (m : M A) (k : A -> M B) :
  adds_only m -> (forall a, adds_only (k a)) -> adds_only (bind m k).
Proof.
  intros Hm Hk h. unfold bind. specialize (Hm h).
  destruct (m h) as [[a|e] h1]; simpl in *; [|done].
  eapply grows_trans; [exact Hm|apply Hk].
Qed.

Lemma adds_only_read a : adds_only (read a).
Proof. intros h. unfold read. destruct (h !! a); apply grows_refl. Qed.

Lemma adds_only_alloc o : adds_only (alloc o).
Proof. intros h. apply grows_alloc. Qed.

Lemma adds_only_getitem c k : adds_only (getitem c k).
Proof.
  destruct c; try apply adds_only_raise. unfold getitem.
  apply adds_only_bind; [apply adds_only_read|].
  intros [items|elems]; [|apply adds_only_raise].
  destruct (dict_get k items); [apply adds_only_ret|apply adds_only_raise].
Qed.

Lemma adds_only_setitem c k v : adds_only (setitem c k v).
Proof.
  destruct c; try apply adds_only_raise.
  intros h. unfold setitem, bind, read, write, raise.
  destruct (h !! a) as [[items|elems]|] eqn:Ha; simpl;
    try apply grows_refl.
  by apply grows_setitem.
Qed.

Lemma adds_only_isinstance_dict v : adds_only (isinstance_dict v).
Proof.
  destruct v; try apply adds_only_ret. unfold isinstance_dict.
  apply adds_only_bind; [apply adds_only_read|].
  intros [?|?]; apply adds_only_ret.
Qed.

Lemma adds_only_contains d name : adds_only (contains d name).
Proof.
  destruct d; try apply adds_only_raise. unfold contains.
  apply adds_only_bind; [apply adds_only_read|].
  intros [items|elems]; [|apply adds_only_raise].
  destruct name; try apply adds_only_raise; apply adds_only_ret.
Qed.

Lemma adds_only_getitem_val d name : adds_only (getitem_val d name).
Proof.
  destruct name; simpl; try apply adds_only_raise;
    try apply adds_only_getitem.
  all: destruct d; try apply adds_only_raise;
    (apply adds_only_bind; [apply adds_only_read|]);
    intros [?|?]; apply adds_only_raise.
Qed.

Lemma adds_only_dict_iter rem i n a (body : string -> val -> M unit) :
  (forall k v, adds_only (body k v)) ->
  adds_only (dict_iter rem i n a body).
Proof.
  intros Hbody. revert i.
  induction rem as [|rem IH]; intros i; simpl;
    (apply adds_only_bind; [apply adds_only_read|]);
    (intros [items|elems]; [|apply adds_only_raise]);
    (destruct (length items =? n)%nat; [|apply adds_only_raise]).
  - apply adds_only_ret.
  - destruct (items !! i) as [[k v]|]; [|apply adds_only_ret].
    apply adds_only_bind; [apply Hbody|]. intros _. apply IH.
Qed.

Lemma adds_only_for_items d (body : string -> val -> M unit) :
  (forall k v, adds_only (body k v)) -> adds_only (for_items d body).
Proof.
  intros Hbody. destruct d; try apply adds_only_raise. unfold for_items.
  apply adds_only_bind; [apply adds_only_read|].
  intros [items|elems]; [|apply adds_only_raise].
  by apply adds_only_dict_iter.
Qed.

Lemma adds_only_for_list {A} (l : list A) (body : A -> M unit) :
  (forall x, adds_only (body x)) -> adds_only (for_list l body).
Proof.
  intros Hbody. induction l as [|x l IH]; simpl.
  - apply adds_only_ret.
  - apply adds_only_bind; [apply Hbody|]. intros _. apply IH.
Qed.

Lemma adds_only_for_each c (body : val -> M unit) :
  (forall v, adds_only (body v)) -> adds_only (for_each c body).
Proof.
  intros Hbody. destruct c; try apply adds_only_raise.
  - simpl. apply adds_only_for_list. intros ch. apply Hbody.
  - unfold for_each.
    apply adds_only_bind; [apply adds_only_read|].
    intros [items|elems].
    + apply adds_only_for_items. intros k v. apply Hbody.
    + by apply adds_only_for_list.
Qed.

Lemma adds_only_get_or_new curr k : adds_only (get_or_new curr k).
Proof.
  destruct curr; try apply adds_only_raise. unfold get_or_new.
  apply adds_only_bind; [apply adds_only_read|].
  intros [items|elems]; [|apply adds_only_raise].
  apply adds_only_bind; [apply adds_only_alloc|].
  intros fresh. destruct (dict_get k items); apply adds_only_ret.
Qed.

Lemma adds_only_assign_path curr path value :
  adds_only (assign_path curr path value).
Proof.
  revert curr. induction path as [|k rest IH]; intros curr.
  - apply adds_only_ret.
  - destruct rest as [|k' rest'].
    + apply adds_only_setitem.
    + cbn [assign_path].
      apply adds_only_bind; [apply adds_only_get_or_new|]. intros d.
      apply adds_only_bind; [apply adds_only_setitem|]. intros _. apply IH.
Qed.

Lemma adds_only_get_parameters_dict ps : adds_only (get_parameters_dict ps).
Proof.
  unfold get_parameters_dict.
  apply adds_only_bind; [apply adds_only_alloc|]. intros pd.
  apply adds_only_bind; [|intros _; apply adds_only_ret].
  apply adds_only_for_list. intros [name value].
  apply adds_only_assign_path.
Qed.

Lemma adds_only_set_values model_dict name pd :
  adds_only (set_values model_dict name pd).
Proof.
  unfold set_values.
  apply adds_only_bind; [apply adds_only_contains|].
  intros [|]; [|apply adds_only_ret].
  apply adds_only_bind; [apply adds_only_getitem_val|]. intros params.
  apply adds_only_for_items. intros key value.
  apply adds_only_bind; [apply adds_only_isinstance_dict|].
  intros [|]; [|apply adds_only_setitem].
  apply adds_only_for_items. intros sub_key sub_value.
  apply adds_only_bind; [apply adds_only_getitem|]. intros target.
  apply adds_only_setitem.
Qed.

Lemma adds_only_features features pd :
  adds_only
    (for_each features (fun feature =>
       name <- getitem feature NAME ;;
       set_values feature name pd)).
Proof.
  apply adds_only_for_each. intros f.
  apply adds_only_bind; [apply adds_only_getitem|]. intros name.
  apply adds_only_set_values.
Qed.

(** However it ends, [substitute_parameters] takes nothing away: every
    object of the store is still there and of its kind, every dict still has
    every key it had (with the old or a new value), and, the mappings being
    keyed by strings, every list is as it was.  Overrides are merged into the
    configuration; nothing of it is replaced wholesale or deleted. *)
Theorem substitute_parameters_only_adds (model_definition : val)
    (parameters : sample) (h : heap) :
  grows h (substitute_parameters model_definition parameters h).2.
Proof.
  revert h. change (adds_only (substitute_parameters model_definition parameters)).
  unfold substitute_parameters.
  apply adds_only_bind; [apply adds_only_get_parameters_dict|]. intros pd.
  apply adds_only_bind; [apply adds_only_getitem|]. intros ifs.
  apply adds_only_bind; [apply adds_only_features|]. intros _.
  apply adds_only_bind; [apply adds_only_getitem|]. intros ofs.
  apply adds_only_bind; [apply adds_only_features|]. intros _.
  apply adds_only_bind; [apply adds_only_getitem|]. intros c.
  apply adds_only_bind; [apply adds_only_set_values|]. intros _.
  apply adds_only_bind; [apply adds_only_getitem|]. intros t.
  apply adds_only_bind; [apply adds_only_set_values|]. intros _.
  apply adds_only_bind; [apply adds_only_getitem|]. intros p.
  apply adds_only_bind; [apply adds_only_set_values|]. intros _.
  apply adds_only_ret.
Qed.

(** The five keys [substitute_parameters] reads from the configuration. *)
Definition sections : list string :=
  ["input_features"; "output_features"; "combiner"; "training";
   "preprocessing"].

Lemma getitem_Ret_inv c k h v h' :
  getitem c k h = (Ret v, h') ->
  h' = h
  /\ exists (a : addr) items,
       c = VRef a /\ h !! a = Some (ODict items) /\ dict_get k items = Some v.
Proof.
  destruct c as [| | | | |a]; try done. unfold getitem. intros H.
  bind_inv_as H o h1 Hread. apply read_Ret_inv in Hread as [-> Ha].
  destruct o as [items|elems]; [|done].
  destruct (dict_get k items) as [v'|] eqn:Hk; [|done].
  injection H as <- <-. split; [done|]. by exists a, items.
Qed.

(** The key was there when it was read, and is there at the end. *)
Lemma section_kept (a : addr) k items x h h' :
  h !! a = Some (ODict items) ->
  dict_get k items = Some x ->
  grows h h' ->
  exists items', h' !! a = Some (ODict items') /\ is_Some (dict_get k items').
Proof.
  intros Ha Hk Hg. destruct (Hg a _ Ha) as (items' & Ha' & Hkeys).
  exists items'. split; [done|]. apply Hkeys. by eexists.
Qed.

(** [substitute_parameters] returns only for a configuration that is a dict
    with all of "input_features", "output_features", "combiner", "training"
    and "preprocessing": it reads the five whatever the sample overrides, and
    a configuration that lacks one makes it raise instead of returning. *)
Theorem substitute_parameters_needs_sections (model_definition : val)
    (parameters : sample) (h h' : heap) (v : val) :
  substitute_parameters model_definition parameters h = (Ret v, h') ->
  exists (a : addr) items,
    model_definition = VRef a
    /\ h' !! a = Some (ODict items)
    /\ Forall (fun k => is_Some (dict_get k items)) sections.
Proof.
  unfold substitute_parameters. intros H.
  bind_inv_as H pd h1 H1. bind_inv_as H ifs h2 H2.
  bind_inv_as H u1 h3 H3. bind_inv_as H ofs h4 H4.
  bind_inv_as H u2 h5 H5. bind_inv_as H c h6 H6.
  bind_inv_as H u3 h7 H7. bind_inv_as H t h8 H8.
  bind_inv_as H u4 h9 H9. bind_inv_as H p h10 H10.
  bind_inv_as H u5 h11 H11. injection H as _ <-.
  apply getitem_Ret_inv in H2 as (-> & a & i2 & -> & Ha2 & Hk2).
  apply getitem_Ret_inv in H4 as (-> & a4 & i4 & [= <-] & Ha4 & Hk4).
  apply getitem_Ret_inv in H6 as (-> & a6 & i6 & [= <-] & Ha6 & Hk6).
  apply getitem_Ret_inv in H8 as (-> & a8 & i8 & [= <-] & Ha8 & Hk8).
  apply getitem_Ret_inv in H10 as (-> & a10 & i10 & [= <-] & Ha10 & Hk10).
  pose proof (adds_only_features ifs pd h1) as G3. rewrite H3 in G3.
  pose proof (adds_only_features ofs pd h3) as G5. rewrite H5 in G5.
  pose proof (adds_only_set_values c (VStr "combiner") pd h5) as G7.
  rewrite H7 in G7.
  pose proof (adds_only_set_values t (VStr "training") pd h7) as G9.
  rewrite H9 in G9.
  pose proof (adds_only_set_values p (VStr "preprocessing") pd h9) as G11.
  rewrite H11 in G11. simpl in *.
  destruct (G11 a _ Ha10) as (items & Ha & Hkeys).
  assert (G9' : grows h7 h11) by by eapply grows_trans.
  assert (G7' : grows h5 h11) by by eapply grows_trans.
  assert (G5' : grows h3 h11) by by eapply grows_trans.
  assert (G3' : grows h1 h11) by by eapply grows_trans.
  exists a, items. split_and!; [done|done|].
  unfold sections. repeat apply Forall_cons_2; [| | | | |constructor].
  - destruct (section_kept a _ _ _ _ _ Ha2 Hk2 G3') as (it & Hit & ?).
    rewrite Ha in Hit. by injection Hit as <-.
  - destruct (section_kept a _ _ _ _ _ Ha4 Hk4 G5') as (it & Hit & ?).
    rewrite Ha in Hit. by injection Hit as <-.
  - destruct (section_kept a _ _ _ _ _ Ha6 Hk6 G7') as (it & Hit & ?).
    rewrite Ha in Hit. by injection Hit as <-.
  - destruct (section_kept a _ _ _ _ _ Ha8 Hk8 G9') as (it & Hit & ?).
    rewrite Ha in Hit. by injection Hit as <-.
  - apply Hkeys. by eexists.
Qed.

Lemma substitute_parameters_needs_sections_witness :
  exists (a : addr) items,
    VRef 0 = VRef a
    /\ (substitute_parameters (VRef 0) example_sample example_heap).2 !! a
       = Some (ODict items)
    /\ Forall (fun k => is_Some (dict_get k items)) sections.
Proof.
  apply (substitute_parameters_needs_sections (VRef 0) example_sample
           example_heap _ (VRef 0)).
  vm_compute. reflexivity.
Defined.

(** ** Parameters that name nothing *)

(** The first path elements of the keys of a sample. *)
Definition heads (ps : sample) : list string :=
  map (fun kv => hd "" (str_split "."%char kv.1)) ps.

(** A feature of the configuration whose name is no first path element of
    the sample. *)
Definition unnamed_feature (h : heap) (ps : sample) (feature : val) : Prop :=
  exists (a : addr) items n,
    feature = VRef a
    /\ h !! a = Some (ODict items)
    /\ dict_get NAME items = Some (VStr n)
    /\ ~ In n (heads ps).

(** A configuration with its two lists of features and its three sections,
    no key of the sample starting with the name of one of them. *)
Definition names_nothing (h : heap) (model_definition : val) (ps : sample)
  : Prop :=
  exists (a li lo : addr) citems ifs ofs,
    model_definition = VRef a
    /\ h !! a = Some (ODict citems)
    /\ dict_get "input_features" citems = Some (VRef li)
    /\ h !! li = Some (OList ifs)
    /\ Forall (unnamed_feature h ps) ifs
    /\ dict_get "output_features" citems = Some (VRef lo)
    /\ h !! lo = Some (OList ofs)
    /\ Forall (unnamed_feature h ps) ofs
    /\ Forall (fun k => is_Some (dict_get k citems) /\ ~ In k (heads ps))
         ["combiner"; "training"; "preprocessing"].

Lemma leaf_get_Some_In P v L : leaf_get P L = Some v -> In (P, v) L.
Proof.
  induction L as [|[P' v'] L IH]; simpl; [done|].
  destruct (decide (P = P')) as [->|Hne]; [intros [= ->]; by left|auto].
Qed.

(** The nested mapping of a sample without clashing keys is the trie of its
    entries, rooted at the first address after the store it was given. *)
Lemma get_parameters_dict_trie ps h :
  prefix_free (sample_paths ps) ->
  exists h' nd',
    get_parameters_dict ps h = (Ret (VRef (length h)), h')
    /\ sample_inv (length h) (length h) h' (map entry_of ps) nd'
    /\ forall x, x < length h -> h' !! x = h !! x.
Proof.
  intros Hfree.
  set (p0 := length h). set (h1 := h ++ [ODict []]).
  set (nd0 := fun r : list string =>
                if decide (r = []) then Some p0 else None).
  assert (Hinv0 : sample_inv p0 (length h) h1 [] nd0).
  { split_and!; try done.
    - split_and!; try done.
      + intros q a Hq. unfold nd0 in Hq.
        destruct (decide (q = [])) as [->|]; [|done]. injection Hq as <-.
        exists []. split; [by apply list_lookup_middle|].
        intros k. reflexivity.
      + intros q1 q2 a H1 H2. unfold nd0 in *.
        destruct (decide (q1 = [])), (decide (q2 = [])); congruence.
      + intros q k H. unfold nd0 in H.
        destruct (decide (q ++ [k] = [])) as [Heq|]; [|done].
        by destruct q.
    - intros r Hr. unfold nd0 in Hr. destruct (decide (r = [])); [by left|done].
    - intros r b Hr. unfold nd0 in Hr.
      destruct (decide (r = [])); [|done]. injection Hr as <-. done.
    - unfold h1. rewrite length_app. lia. }
  destruct (for_list_trie p0 (length h) ps h1 [] nd0 Hinv0 Hfree)
    as (h' & nd' & Hrun & Hinv & Hsame).
  exists h', nd'. split_and!.
  - unfold get_parameters_dict, bind, alloc. fold p0 h1. by rewrite Hrun.
  - exact Hinv.
  - intros x Hx. rewrite Hsame by done. unfold h1. by rewrite lookup_app_l.
Qed.

(** Every key of the root of the nested mapping is the first path element
    of a key of the sample. *)
Lemma root_keys p0 n0 h ps nd :
  sample_inv p0 n0 h (map entry_of ps) nd ->
  exists items,
    h !! p0 = Some (ODict items)
    /\ forall k, ~ In k (heads ps) -> dict_get k items = None.
Proof.
  intros ((Hnode & _) & Hroot & Hleads & _).
  destruct (Hnode [] p0 Hroot) as (items & Hp0 & Hitems).
  exists items. split; [done|]. intros k Hk.
  assert (Hhead : forall P v, In (P, v) (map entry_of ps) ->
                              hd "" P = k -> False).
  { intros P v Hin HP. apply Hk. apply in_map_iff in Hin as ([n x] & [= <- <-] & Hin).
    unfold heads. apply in_map_iff. by exists (n, x). }
  rewrite Hitems. simpl.
  destruct (leaf_get [k] (map entry_of ps)) as [v|] eqn:Hleaf.
  { exfalso. apply leaf_get_Some_In in Hleaf. by eapply Hhead. }
  destruct (nd [k]) as [b|] eqn:Hb; [|done]. exfalso.
  destruct (Hleads [k]) as [?|(P & v & s & Hin & _ & ->)]; [congruence|done|].
  by eapply Hhead.
Qed.

Lemma set_values_absent model_dict (pd : addr) n items h :
  h !! pd = Some (ODict items) ->
  dict_get n items = None ->
  set_values model_dict (VStr n) (VRef pd) h = (Ret tt, h).
Proof.
  intros Hpd Hn. unfold set_values, bind, contains, bind.
  rewrite (read_Some _ _ _ Hpd). unfold ret. rewrite Hn.
  rewrite bool_decide_eq_false_2; [done|]. by intros [? ?].
Qed.

Lemma getitem_Some (a : addr) k items v h :
  h !! a = Some (ODict items) ->
  dict_get k items = Some v ->
  getitem (VRef a) k h = (Ret v, h).
Proof.
  intros Ha Hk. unfold getitem, bind. rewrite (read_Some _ _ _ Ha).
  by rewrite Hk.
Qed.

(** The loop over the features writes nothing when no feature is named. *)
Lemma for_features_unnamed h0 h ps (pd : addr) items features :
  (forall x, x < length h0 -> h !! x = h0 !! x) ->
  h !! pd = Some (ODict items) ->
  (forall k, ~ In k (heads ps) -> dict_get k items = None) ->
  Forall (unnamed_feature h0 ps) features ->
  for_list features (fun feature =>
    name <- getitem feature NAME ;;
    set_values feature name (VRef pd)) h
  = (Ret tt, h).
Proof.
  intros Hsame Hpd Hkeys Hall.
  induction Hall as [|f fs (a & fitems & n & -> & Ha & Hname & Hn) Hall IH];
    [done|].
  assert (Ha1 : h !! a = Some (ODict fitems)).
  { rewrite Hsame; [done|]. by eapply lookup_lt_Some. }
  cbn [for_list]. unfold bind at 1, bind at 1.
  rewrite (getitem_Some a NAME fitems (VStr n) h Ha1 Hname).
  rewrite (set_values_absent _ pd n items) by auto.
  exact IH.
Qed.

(** A sample none of whose keys starts with the name of a feature or of a
    section of the configuration is accepted and ignored:
    [substitute_parameters] returns the configuration and every object the
    store held is as it was; only the nested mapping of the sample was
    added.  A misspelt section or feature name is not reported. *)
Theorem unmatched_parameters_ignored (model_definition : val)
    (parameters : sample) (h : heap) :
  names_nothing h model_definition parameters ->
  prefix_free (sample_paths parameters) ->
  exists h',
    substitute_parameters model_definition parameters h
    = (Ret model_definition, h')
    /\ forall x, x < length h -> h' !! x = h !! x.
Proof.
  intros (a & li & lo & citems & ifs & ofs & -> & Ha & Hli & Hifs & Hin
          & Hlo & Hofs & Hout & Hsec) Hfree.
  destruct (get_parameters_dict_trie parameters h Hfree)
    as (h1 & nd & Hrun & Hinv & Hsame).
  destruct (root_keys _ _ _ _ _ Hinv) as (items & Hpd & Hkeys).
  exists h1. split; [|done].
  assert (Hlook : forall (x : addr) o, h !! x = Some o -> h1 !! x = Some o).
  { intros x o Hx. rewrite Hsame; [done|]. by eapply lookup_lt_Some. }
  apply Forall_cons in Hsec as [[[c Hc] Hcn] Hsec].
  apply Forall_cons in Hsec as [[[t Ht] Htn] Hsec].
  apply Forall_cons in Hsec as [[[p Hp] Hpn] _].
  unfold substitute_parameters, bind at 1. rewrite Hrun.
  unfold bind at 1. rewrite (getitem_Some a _ citems _ h1 (Hlook _ _ Ha) Hli).
  unfold bind at 1, for_each, bind at 1.
  rewrite (read_Some _ _ _ (Hlook _ _ Hifs)).
  rewrite (for_features_unnamed h h1 parameters (length h) items ifs)
    by done.
  unfold bind at 1. rewrite (getitem_Some a _ citems _ h1 (Hlook _ _ Ha) Hlo).
  unfold bind at 1, bind at 1.
  rewrite (read_Some _ _ _ (Hlook _ _ Hofs)).
  rewrite (for_features_unnamed h h1 parameters (length h) items ofs)
    by done.
  unfold bind at 1. rewrite (getitem_Some a _ citems _ h1 (Hlook _ _ Ha) Hc).
  unfold bind at 1.
  rewrite (set_values_absent c (length h) "combiner" items) by auto.
  unfold bind at 1. rewrite (getitem_Some a _ citems _ h1 (Hlook _ _ Ha) Ht).
  unfold bind at 1.
  rewrite (set_values_absent t (length h) "training" items) by auto.
  unfold bind at 1. rewrite (getitem_Some a _ citems _ h1 (Hlook _ _ Ha) Hp).
  unfold bind at 1.
  rewrite (set_values_absent p (length h) "preprocessing" items) by auto.
  reflexivity.
Qed.

Lemma unmatched_parameters_ignored_witness :
  exists h',
    substitute_parameters (VRef 0)
      [("trainning.epochs", VInt 3); ("optimizer.type", VStr "adam")]
      example_heap
    = (Ret (VRef 0), h')
    /\ forall x, x < length example_heap -> h' !! x = example_heap !! x.
Proof.
  apply unmatched_parameters_ignored.
  - exists 0, 1, 3. do 3 eexists.
    split_and!; try reflexivity.
    + repeat constructor. exists 2. do 2 eexists.
      split_and!; try reflexivity. simpl. intros [H|[H|[]]]; discriminate H.
    + repeat constructor. exists 4. do 2 eexists.
      split_and!; try reflexivity. simpl. intros [H|[H|[]]]; discriminate H.
    + repeat constructor; try (by eexists);
        simpl; intros [H|[H|[]]]; discriminate H.
  - repeat apply prefix_free_cons; try apply prefix_free_nil;
      repeat constructor; by intros [s [=]].
Defined.

(** ** Ranking a ranked list *)

Section SortedAgain.
Context {A : Type} (key : A -> float).

(** The list [x :: l] is one ascending run: no element is [<] the one
    before it. *)
Fixpoint run_from (x : A) (l : list A) : Prop :=
  match l with
  | [] => True
  | y :: l' => float_lt (key y) (key x) = false /\ run_from y l'
  end.

Definition run (l : list A) : Prop :=
  match l with
  | [] => True
  | x :: l' => run_from x l'
  end.

Lemma run_from_run x l : run_from x l -> run l.
Proof. destruct l as [|y l]; [done|]. by intros [_ H]. Qed.

Lemma insert_by_run_from w x l :
  float_lt (key x) (key w) = false ->
  run_from w l -> run_from w (insert_by key x l).
Proof.
  revert w. induction l as [|y l IH]; intros w Hxw; simpl; [done|].
  intros [Hyw Hrun].
  destruct (float_lt (key y) (key x)) eqn:E; simpl.
  - split; [done|]. apply IH; [|done]. by apply value_lt_asym.
  - done.
Qed.

Lemma insert_by_run x l : run l -> run (insert_by key x l).
Proof.
  destruct l as [|y l]; simpl; [done|]. intros Hrun.
  destruct (float_lt (key y) (key x)) eqn:E; simpl; [|done].
  apply insert_by_run_from; [|done]. by apply value_lt_asym.
Qed.

(** Whatever the keys, the sort returns one ascending run. *)
Lemma sort_by_run l : run (sort_by key l).
Proof.
  induction l as [|x l IH]; [done|].
  cbn [sort_by foldr]. by apply insert_by_run.
Qed.

(** An ascending run is returned as it is. *)
Lemma sort_by_run_id l : run l -> sort_by key l = l.
Proof.
  induction l as [|x l IH]; [done|]. intros Hrun.
  cbn [sort_by foldr]. fold (sort_by key l).
  rewrite IH by by eapply run_from_run.
  destruct l as [|y l]; [done|]. simpl in *.
  destruct Hrun as [Hyx _]. by rewrite Hyx.
Qed.

Lemma sorted_idempotent (reverse : bool) l :
  sorted key reverse (sorted key reverse l) = sorted key reverse l.
Proof.
  unfold sorted. destruct reverse.
  - rewrite rev_involutive. f_equal. apply sort_by_run_id, sort_by_run.
  - apply sort_by_run_id, sort_by_run.
Qed.
End SortedAgain.


(** ** [set_values] on an entry with nested mappings *)

(** [v] is a dict of the store. *)
Definition dictb (h : heap) (v : val) : bool :=
  match v with
  | VRef a => match h !! a with Some (ODict _) => true | _ => false end
  | _ => false
  end.

(** The entries [set_values] assigns as they are: those whose value is no
    dict. *)
Definition flat_entries (h : heap) (params : list (string * val))
  : list (string * val) :=
  List.filter (fun kv => negb (dictb h kv.2)) params.

(** The sub-dicts of the target that receive the entries of a nested
    mapping: [x] is the target's value under the key of an entry that is a
    dict. *)
Definition merged_into (h : heap) (titems params : list (string * val))
    (x : addr) : Prop :=
  exists k (c : addr),
    In (k, VRef c) params /\ dictb h (VRef c) = true
    /\ dict_get k titems = Some (VRef x).

(** What [set_values] asks of the target [t] and of the entry [p] of [name]
    to merge without error: the keys of the entry are distinct, as in every
    dict; no value of the entry is a dangling reference; under the key of
    every nested mapping the target holds a dict, which is neither the target,
    nor the entry, nor one of the nested mappings, nor the dict of another
    key; no nested mapping is the target. *)
Definition mergeable (h : heap) (t p : addr)
    (titems params : list (string * val)) : Prop :=
  NoDup (map fst params)
  /\ t <> p
  /\ (forall k v, In (k, v) params -> dictb h v = false -> no_dict h v)
  /\ (forall k (c : addr),
        In (k, VRef c) params -> dictb h (VRef c) = true ->
        c <> t
        /\ ~ merged_into h titems params c
        /\ exists (s : addr) sitems,
             dict_get k titems = Some (VRef s)
             /\ h !! s = Some (ODict sitems)
             /\ s <> t /\ s <> p)
  /\ (forall k1 (c1 : addr) k2 (c2 : addr) (s : addr),
        In (k1, VRef c1) params -> dictb h (VRef c1) = true ->
        In (k2, VRef c2) params -> dictb h (VRef c2) = true ->
        dict_get k1 titems = Some (VRef s) ->
        dict_get k2 titems = Some (VRef s) ->
        k1 = k2).

(** What the merge leaves: the target updated with the flat entries; under
    the key of every nested mapping the same sub-dict as before, updated with
    the entries of that mapping; every other object as it was. *)
Definition merged (h : heap) (t : addr) (titems params : list (string * val))
    (h' : heap) : Prop :=
  h' !! t = Some (ODict (dict_update titems (flat_entries h params)))
  /\ (forall k (c s : addr) sub sitems,
        In (k, VRef c) params ->
        h !! c = Some (ODict sub) ->
        dict_get k titems = Some (VRef s) ->
        h !! s = Some (ODict sitems) ->
        h' !! s = Some (ODict (dict_update sitems sub)))
  /\ (forall x : addr,
        x <> t -> ~ merged_into h titems params x -> h' !! x = h !! x).

Lemma dict_get_update_other k items entries :
  ~ In k (map fst entries) ->
  dict_get k (dict_update items entries) = dict_get k items.
Proof.
  unfold dict_update. revert items.
  induction entries as [|[k' v'] entries IH]; intros items Hk; simpl; [done|].
  rewrite IH by (simpl in Hk; tauto).
  apply dict_get_set_ne. simpl in Hk. intros ->. tauto.
Qed.

Lemma dict_update_snoc items entries k v :
  dict_update items (entries ++ [(k, v)])
  = dict_set k v (dict_update items entries).
Proof. unfold dict_update. by rewrite fold_left_app. Qed.

(** The inner loop: the entries of a nested mapping go into the sub-dict the
    target holds under [k]. *)
Lemma dict_iter_assign_sub g (t c s : addr) k T S0 sub rem j :
  g !! c = Some (ODict sub) ->
  g !! t = Some (ODict T) ->
  dict_get k T = Some (VRef s) ->
  g !! s = Some (ODict S0) ->
  s <> c -> s <> t ->
  j + rem = length sub ->
  dict_iter rem j (length sub) c (assign_sub t k)
    (<[s := ODict (dict_update S0 (take j sub))]> g)
  = (Ret tt, <[s := ODict (dict_update S0 sub)]> g).
Proof.
  intros Hc Ht Hk Hs Hsc Hst. revert j.
  assert (Hlt : s < length g) by by eapply lookup_lt_Some.
  induction rem as [|rem IH]; intros j Hj.
  - cbn [dict_iter]. unfold bind.
    rewrite (read_Some _ (<[s:=_]> g) (ODict sub))
      by by rewrite list_lookup_insert_ne.
    rewrite Nat.eqb_refl. rewrite take_ge by lia. done.
  - cbn [dict_iter]. unfold bind at 1.
    rewrite (read_Some _ (<[s:=_]> g) (ODict sub))
      by by rewrite list_lookup_insert_ne.
    rewrite Nat.eqb_refl.
    destruct (lookup_lt_is_Some_2 sub j ltac:(lia)) as [[sk sv] Hkv].
    rewrite Hkv. unfold bind at 1.
    set (Sj := dict_update S0 (take j sub)).
    assert (Hbody : assign_sub t k sk sv (<[s := ODict Sj]> g)
                    = (Ret tt, <[s := ODict (dict_set sk sv Sj)]> g)).
    { unfold assign_sub, bind at 1.
      rewrite (getitem_Some t k T (VRef s))
        by (try done; by rewrite list_lookup_insert_ne).
      unfold setitem, bind.
      rewrite (read_Some _ (<[s:=_]> g) (ODict Sj))
        by by apply list_lookup_insert_eq.
      unfold write. by rewrite list_insert_insert_eq. }
    rewrite Hbody. unfold Sj.
    rewrite <- dict_update_snoc, <- (take_S_r _ _ _ Hkv).
    apply IH. lia.
Qed.

Section Merge.
Context (h : heap) (t p : addr) (titems params : list (string * val)).
Context (Ht : h !! t = Some (ODict titems)).
Context (Hp : h !! p = Some (ODict params)).
Context (Hok : mergeable h t p titems params).

(** The store after the first [i] entries of [params] were merged. *)
Definition merge_inv_at (i : nat) (g : heap) : Prop :=
  g !! t = Some (ODict (dict_update titems (flat_entries h (take i params))))
  /\ (forall j k (c s : addr) sub sitems,
        params !! j = Some (k, VRef c) ->
        h !! c = Some (ODict sub) ->
        dict_get k titems = Some (VRef s) ->
        h !! s = Some (ODict sitems) ->
        g !! s = Some (ODict (if decide (j < i)
                              then dict_update sitems sub else sitems)))
  /\ (forall x : addr,
        x <> t -> ~ merged_into h titems params x -> g !! x = h !! x).

Lemma dictb_true v :
  dictb h v = true -> exists (c : addr) sub, v = VRef c /\ h !! c = Some (ODict sub).
Proof.
  destruct v as [| | | | |c]; try done. simpl.
  destruct (h !! c) as [[sub|]|] eqn:Hc; try done. by exists c, sub.
Qed.

Lemma dictb_lookup (c : addr) sub : h !! c = Some (ODict sub) -> dictb h (VRef c) = true.
Proof. simpl. by intros ->. Qed.

Lemma entry_is_param i kv : params !! i = Some kv -> In kv params.
Proof. intros H. apply list_elem_of_In. by eapply list_elem_of_lookup_2. Qed.

Lemma same_key_same_index i j k v v' :
  params !! i = Some (k, v) -> params !! j = Some (k, v') -> i = j.
Proof.
  destruct Hok as (Hnodup & _). intros Hi Hj.
  eapply (NoDup_lookup (map fst params) i j k); [exact Hnodup| |].
  - by rewrite list_lookup_fmap, Hi.
  - by rewrite list_lookup_fmap, Hj.
Qed.

Lemma merge_step i g k v :
  params !! i = Some (k, v) ->
  merge_inv_at i g ->
  exists g', merge_entry t k v g = (Ret tt, g') /\ merge_inv_at (S i) g'.
Proof.
  intros Hi (Hgt & Hgs & Hgx).
  pose proof Hok as (Hnodup & Htp & Hflat & Hnested & Hdistinct).
  pose proof (entry_is_param _ _ Hi) as Hin.
  assert (Hlt : t < length g) by by eapply lookup_lt_Some.
  set (Ti := dict_update titems (flat_entries h (take i params))) in *.
  destruct (dictb h v) eqn:Hd.
  - (* a nested mapping *)
    destruct (dictb_true v Hd) as (c & sub & -> & Hc).
    destruct (Hnested k c Hin Hd)
      as (Hct & Hcm & s & sitems & Hk & Hs & Hst & Hsp).
    assert (Hgc : g !! c = Some (ODict sub)) by by rewrite Hgx.
    assert (Hgs' : g !! s = Some (ODict sitems)).
    { rewrite (Hgs i k c s sub sitems Hi Hc Hk Hs).
      by rewrite decide_False by lia. }
    assert (HkT : dict_get k Ti = Some (VRef s)).
    { unfold Ti. rewrite dict_get_update_other; [done|].
      intros Hkin. apply in_map_iff in Hkin as ([k' v'] & Heq & Hkv).
      simpl in Heq. subst k'. unfold flat_entries in Hkv.
      apply filter_In in Hkv as [Hkv _].
      apply list_elem_of_In, list_elem_of_lookup in Hkv as [j Hj].
      pose proof (lookup_lt_Some _ _ _ Hj) as Hjlt.
      rewrite length_take in Hjlt. rewrite lookup_take_lt in Hj by lia.
      pose proof (same_key_same_index _ _ _ _ _ Hi Hj). lia. }
    assert (Hsc : s <> c).
    { intros ->. apply Hcm. by exists k, c. }
    exists (<[s := ODict (dict_update sitems sub)]> g). split.
    + unfold merge_entry, bind at 1, isinstance_dict, bind at 1.
      rewrite (read_Some _ _ _ Hgc). unfold ret, for_items, bind at 1.
      rewrite (read_Some _ _ _ Hgc).
      pose proof (dict_iter_assign_sub g t c s k Ti sitems sub (length sub) 0
                    Hgc Hgt HkT Hgs' Hsc Hst ltac:(lia)) as Hiter.
      cbn [take] in Hiter. unfold dict_update at 1 in Hiter.
      cbn [fold_left] in Hiter. rewrite list_insert_id in Hiter by done.
      exact Hiter.
    + split_and!.
      * rewrite list_lookup_insert_ne by done.
        destruct (lookup_lt_is_Some_2 params i) as [kv Hkv];
          [by eapply lookup_lt_Some|].
        rewrite (take_S_r _ _ _ Hi). unfold flat_entries.
        rewrite List.filter_app. cbn [List.filter snd]. rewrite Hd.
        cbn [negb]. by rewrite app_nil_r.
      * intros j k' c' s' sub' sitems' Hj Hc' Hk' Hs'.
        destruct (decide (s' = s)) as [->|Hne].
        -- assert (k' = k) as ->.
           { eapply (Hdistinct k' c' k c s); try done.
             - by eapply entry_is_param.
             - by eapply dictb_lookup. }
           assert (j = i) as -> by by eapply same_key_same_index.
           rewrite Hi in Hj. injection Hj as <-.
           rewrite Hc in Hc'. injection Hc' as <-.
           rewrite Hs in Hs'. injection Hs' as <-.
           rewrite decide_True by lia.
           apply list_lookup_insert_eq. by eapply lookup_lt_Some.
        -- rewrite list_lookup_insert_ne by done.
           refine (eq_trans (Hgs j k' c' s' sub' sitems' Hj Hc' Hk' Hs') _).
           assert (j <> i).
           { intros ->. rewrite Hi in Hj. injection Hj as <- <-.
             rewrite Hk in Hk'. by injection Hk' as <-. }
           destruct (decide (j < i)), (decide (j < S i)); try done; lia.
      * intros x Hxt Hxm. rewrite list_lookup_insert_ne; [by apply Hgx|].
        intros <-. apply Hxm. by exists k, c.
  - (* a value assigned as it is *)
    pose proof (Hflat k v Hin Hd) as Hnd.
    exists (<[t := ODict (dict_set k v Ti)]> g). split.
    + unfold merge_entry, bind at 1.
      rewrite (no_dict_isinstance h); [| exact Hnd |].
      * unfold setitem, bind. rewrite (read_Some _ _ _ Hgt). done.
      * intros a elems Ha. rewrite Hgx; [done| |].
        -- intros ->. rewrite Ht in Ha. discriminate Ha.
        -- intros (k' & c' & Hin' & Hd' & Hk').
           destruct (Hnested k' c' Hin' Hd')
             as (_ & _ & s & sitems & Hks & Hs & _).
           rewrite Hk' in Hks. injection Hks as <-.
           rewrite Hs in Ha. discriminate Ha.
    + split_and!.
      * rewrite list_lookup_insert_eq by done.
        rewrite (take_S_r _ _ _ Hi). unfold flat_entries.
        rewrite List.filter_app. cbn [List.filter snd]. rewrite Hd.
        cbn [negb]. by rewrite dict_update_snoc.
      * intros j k' c' s' sub' sitems' Hj Hc' Hk' Hs'.
        assert (Hd' : dictb h (VRef c') = true) by by eapply dictb_lookup.
        destruct (Hnested k' c' (entry_is_param _ _ Hj) Hd')
          as (_ & _ & s2 & sitems2 & Hk2 & _ & Hs2t & _).
        rewrite Hk' in Hk2. injection Hk2 as <-.
        rewrite list_lookup_insert_ne by done.
        refine (eq_trans (Hgs j k' c' s' sub' sitems' Hj Hc' Hk' Hs') _).
        assert (j <> i).
        { intros ->. rewrite Hi in Hj. injection Hj as _ Hv.
          rewrite Hv, Hd' in Hd. discriminate Hd. }
        destruct (decide (j < i)), (decide (j < S i)); try done; lia.
      * intros x Hxt Hxm. rewrite list_lookup_insert_ne by done.
        by apply Hgx.
Qed.

Lemma merge_loop rem i g :
  i + rem = length params ->
  merge_inv_at i g ->
  exists g',
    dict_iter rem i (length params) p (merge_entry t) g = (Ret tt, g')
    /\ merge_inv_at (length params) g'.
Proof.
  pose proof Hok as (_ & Htp & _ & Hnested & _).
  assert (Hgp : forall i g, merge_inv_at i g -> g !! p = Some (ODict params)).
  { intros i0 g0 (_ & _ & Hgx). rewrite Hgx; [done|done|].
    intros (k & c & Hin & Hd & Hk).
    destruct (Hnested k c Hin Hd) as (_ & _ & s & sitems & Hks & _ & _ & Hsp).
    rewrite Hk in Hks. by injection Hks as <-. }
  revert i g. induction rem as [|rem IH]; intros i g Hi Hinv.
  - exists g. split.
    + cbn [dict_iter]. unfold bind.
      rewrite (read_Some _ _ _ (Hgp _ _ Hinv)). by rewrite Nat.eqb_refl.
    + by replace (length params) with i by lia.
  - cbn [dict_iter]. unfold bind at 1.
    rewrite (read_Some _ _ _ (Hgp _ _ Hinv)). rewrite Nat.eqb_refl.
    destruct (lookup_lt_is_Some_2 params i ltac:(lia)) as [[k v] Hkv].
    rewrite Hkv. unfold bind at 1.
    destruct (merge_step i g k v Hkv Hinv) as (g1 & -> & Hinv1).
    apply IH; [lia|done].
Qed.

Lemma merge_inv_at_start : merge_inv_at 0 h.
Proof.
  split_and!; [done| |done].
  intros j k c s sub sitems _ _ _ Hs. by rewrite decide_False by lia.
Qed.
End Merge.

(** The general case of [set_values]: the entry of [name] is merged into the
    target, its flat values by assignment (as [target.update] would), the
    entries of each nested mapping one by one into the dict the target
    already holds under that key: this dict stays the same object, keeps the
    keys the nested mapping does not have, and the nested mapping itself is not
    stored in the target.  Everything else in the store is unchanged. *)
Theorem set_values_merges (h : heap) (t d p : addr) (name : string)
    (titems ditems params : list (string * val)) :
  h !! t = Some (ODict titems) ->
  h !! d = Some (ODict ditems) ->
  dict_get name ditems = Some (VRef p) ->
  h !! p = Some (ODict params) ->
  mergeable h t p titems params ->
  exists h',
    set_values (VRef t) (VStr name) (VRef d) h = (Ret tt, h')
    /\ merged h t titems params h'.
Proof.
  intros Ht Hd Hname Hp Hok.
  destruct (merge_loop h t p titems params Ht Hp Hok (length params) 0 h
              ltac:(lia) (merge_inv_at_start h t titems params Ht))
    as (h' & Hiter & Hgt & Hgs & Hgx).
  exists h'. split.
  - unfold set_values, bind, contains, bind.
    rewrite (read_Some _ _ _ Hd). unfold ret.
    rewrite Hname. rewrite bool_decide_eq_true_2 by eauto.
    unfold getitem_val, getitem, bind. rewrite (read_Some _ _ _ Hd).
    rewrite Hname. unfold ret, for_items, bind.
    rewrite (read_Some _ _ _ Hp). exact Hiter.
  - split_and!.
    + by rewrite take_ge in Hgt by lia.
    + intros k c s sub sitems Hin Hc Hk Hs.
      apply list_elem_of_In, list_elem_of_lookup in Hin as [j Hj].
      rewrite (Hgs j k c s sub sitems Hj Hc Hk Hs).
      rewrite decide_True; [done|]. by eapply lookup_lt_Some.
    + exact Hgx.
Qed.

(** The output feature "label" of the example and an entry that overrides its
    loss: the store holds the nested mapping of the sample, the entry of
    "label" and the nested mapping of "loss". *)
Definition merge_heap : heap :=
  example_heap
  ++ [ODict [("label", VRef 10)];
      ODict [("loss", VRef 11); ("top_k", VInt 3)];
      ODict [("weight", VInt 2); ("type", VStr "softmax")]].

Lemma merge_heap_mergeable :
  mergeable merge_heap 4 10
    [("name", VStr "label"); ("loss", VRef 8)]
    [("loss", VRef 11); ("top_k", VInt 3)].
Proof.
  assert (Hin : forall k (c : addr),
            In (k, VRef c) [("loss", VRef 11); ("top_k", VInt 3)] ->
            k = "loss" /\ c = 11).
  { intros k c [[= <- <-]|[[=]|[]]]. done. }
  split_and!.
  - apply (bool_decide_unpack _). by vm_compute.
  - lia.
  - intros k v [[= <- <-]|[[= <- <-]|[]]]; [discriminate|done].
  - intros k c Hkc _. destruct (Hin k c Hkc) as [-> ->]. split_and!.
    + lia.
    + intros (k' & c' & Hkc' & _ & Hget).
      destruct (Hin k' c' Hkc') as [-> ->]. discriminate Hget.
    + exists 8, [("weight", VInt 1)]. split_and!; try reflexivity; lia.
  - intros k1 c1 k2 c2 s H1 _ H2 _ _ _.
    destruct (Hin k1 c1 H1) as [-> _]. by destruct (Hin k2 c2 H2) as [-> _].
Qed.

Lemma set_values_merges_witness :
  exists h',
    set_values (VRef 4) (VStr "label") (VRef 9) merge_heap = (Ret tt, h')
    /\ merged merge_heap 4 [("name", VStr "label"); ("loss", VRef 8)]
         [("loss", VRef 11); ("top_k", VInt 3)] h'.
Proof.
  apply (set_values_merges merge_heap 4 9 10 "label"
           [("name", VStr "label"); ("loss", VRef 8)]
           [("label", VRef 10)]
           [("loss", VRef 11); ("top_k", VInt 3)]);
    try reflexivity.
  exact merge_heap_mergeable.
Defined.

(** On that store the loss of "label" keeps its dict, which takes the new
    weight and the new key, and the feature takes the new "top_k". *)
Example set_values_merges_example :
  set_values (VRef 4) (VStr "label") (VRef 9) merge_heap
  = (Ret tt,
     <[8%nat := ODict [("weight", VInt 2); ("type", VStr "softmax")]]>
       (<[4%nat := ODict [("name", VStr "label"); ("loss", VRef 8);
                          ("top_k", VInt 3)]]> merge_heap)).
Proof. reflexivity. Qed.

(** ** GPUs given as an integer *)

(** Every character of the string satisfies [P]. *)
Fixpoint all_chars (P : Ascii.ascii -> bool) (s : string) : bool :=
  match s with
  | EmptyString => true
  | String c rest => P c && all_chars P rest
  end.

(** A character of a decimal numeral: a digit or the sign. *)
Definition numeral_char (c : Ascii.ascii) : bool :=
  match digit_of c with
  | Some _ => true
  | None => Ascii.eqb c "-"%char
  end.

Lemma numeral_char_plain c :
  numeral_char c = true ->
  is_space c = false /\ Ascii.eqb c ","%char = false.
Proof.
  unfold numeral_char, digit_of, is_space.
  destruct c as [[] [] [] [] [] [] [] []]; simpl; intros H;
    try discriminate H; by split.
Qed.

Lemma rev_app_rev_app s a b :
  String.rev_app (String.rev_app s a) b = String.rev_app a (String.append s b).
Proof.
  revert a b. induction s as [|c s IH]; intros a b; [done|].
  cbn [String.rev_app]. rewrite IH. reflexivity.
Qed.

Lemma append_empty s : String.append s "" = s.
Proof.
  induction s as [|c s IH]; [done|].
  change (String c (String.append s "") = String c s). by f_equal.
Qed.

Lemma rev_rev s : String.rev (String.rev s) = s.
Proof.
  unfold String.rev. rewrite rev_app_rev_app. cbn [String.rev_app].
  apply append_empty.
Qed.

Lemma all_chars_rev_app P s a :
  all_chars P s = true -> all_chars P a = true ->
  all_chars P (String.rev_app s a) = true.
Proof.
  revert a. induction s as [|c s IH]; intros a Hs Ha; simpl in *; [done|].
  apply andb_true_iff in Hs as [Hc Hs]. apply IH; [done|].
  simpl. by rewrite Hc, Ha.
Qed.

Lemma lstrip_plain s :
  all_chars (fun c => negb (is_space c)) s = true -> lstrip s = s.
Proof.
  destruct s as [|c s]; simpl; [done|]. intros H.
  apply andb_true_iff in H as [Hc _].
  by destruct (is_space c).
Qed.

(** [strip] leaves a string without blanks as it is. *)
Lemma strip_plain s :
  all_chars (fun c => negb (is_space c)) s = true -> strip s = s.
Proof.
  intros H. unfold strip. rewrite (lstrip_plain s H).
  rewrite lstrip_plain; [apply rev_rev|].
  unfold String.rev. by apply all_chars_rev_app.
Qed.

(** [split] gives a string without the separator back as the only piece. *)
Lemma str_split_aux_plain sep cur s :
  all_chars (fun c => negb (Ascii.eqb c sep)) s = true ->
  str_split_aux sep cur s = [String.rev (String.rev_app s cur)].
Proof.
  revert cur. induction s as [|c s IH]; intros cur H; simpl in *; [done|].
  apply andb_true_iff in H as [Hc H].
  destruct (Ascii.eqb c sep); [done|]. by apply IH.
Qed.

Lemma str_split_plain sep s :
  all_chars (fun c => negb (Ascii.eqb c sep)) s = true ->
  str_split sep s = [s].
Proof.
  intros H. unfold str_split. rewrite str_split_aux_plain by done.
  f_equal. apply rev_rev.
Qed.

Lemma all_chars_impl (P Q : Ascii.ascii -> bool) s :
  (forall c, P c = true -> Q c = true) ->
  all_chars P s = true -> all_chars Q s = true.
Proof.
  intros HPQ. induction s as [|c s IH]; simpl; [done|].
  intros H. apply andb_true_iff in H as [Hc H].
  by rewrite (HPQ c Hc), IH.
Qed.

(** The digits of a numeral, as a string. *)
Lemma string_of_uint_chars d :
  all_chars numeral_char (NilEmpty.string_of_uint d) = true.
Proof. induction d; simpl; done. Qed.

Lemma str_of_int_chars z : all_chars numeral_char (str_of_int z) = true.
Proof.
  unfold str_of_int, NilZero.string_of_int, NilZero.string_of_uint.
  destruct (Z.to_int z) as [d|d]; destruct d; simpl;
    try done; apply string_of_uint_chars.
Qed.

(** Reading the digits of a numeral, with the value read so far. *)
Lemma digits_value_acc d (acc : positive) :
  digits_value (Z.pos acc) true (NilEmpty.string_of_uint d)
  = Some (Z.pos (Pos.of_uint_acc d acc)).
Proof.
  revert acc. induction d as [|d IH|d IH|d IH|d IH|d IH|d IH|d IH|d IH|d IH|d IH];
    intros acc; [done|..];
    cbn [NilEmpty.string_of_uint digits_value Pos.of_uint_acc];
    match goal with
    | |- context [digit_of ?c] =>
        let v := eval vm_compute in (digit_of c) in
        change (digit_of c) with v; cbv iota
    end;
    rewrite <- IH; f_equal; lia.
Qed.

Lemma digits_value_uint d :
  digits_value 0 true (NilEmpty.string_of_uint d)
  = Some (Z.of_N (Pos.of_uint d)).
Proof.
  induction d as [|d IH|d IH|d IH|d IH|d IH|d IH|d IH|d IH|d IH|d IH];
    [done|..];
    cbn [NilEmpty.string_of_uint digits_value Pos.of_uint];
    match goal with
    | |- context [digit_of ?c] =>
        let v := eval vm_compute in (digit_of c) in
        change (digit_of c) with v; cbv iota
    end;
    [exact IH|..];
    match goal with
    | |- digits_value ?a true _ = _ =>
        let p := eval vm_compute in (Z.to_pos a) in
        change a with (Z.pos p)
    end;
    apply digits_value_acc.
Qed.

(** The first character of a numeral decides nothing about blanks: its
    digits are read the same whatever came before. *)
Lemma digits_value_first d prev :
  d <> Decimal.Nil ->
  digits_value 0 prev (NilEmpty.string_of_uint d)
  = digits_value 0 true (NilEmpty.string_of_uint d).
Proof. destruct d; done. Qed.

Lemma int_of_string_uint (p : positive) :
  digits_value 0 false (NilZero.string_of_uint (Pos.to_uint p))
  = Some (Z.pos p).
Proof.
  pose proof (DecimalPos.Unsigned.to_uint_nonnil p) as Hnil.
  assert (Hs : NilZero.string_of_uint (Pos.to_uint p)
               = NilEmpty.string_of_uint (Pos.to_uint p)).
  { unfold NilZero.string_of_uint. by destruct (Pos.to_uint p). }
  rewrite Hs, digits_value_first, digits_value_uint by done.
  by rewrite DecimalPos.Unsigned.of_to.
Qed.

(** A numeral without sign starts with a digit. *)
Lemma string_of_uint_unsigned d :
  match NilZero.string_of_uint d with
  | String "-"%char _ | String "+"%char _ => False
  | _ => True
  end.
Proof. destruct d; exact I. Qed.

(** An integer [gpus] argument [n] stands for the single GPU id [str(n)]:
    stripping and splitting its numeral gives that one id, and where the
    set-up reads the id back, with [int], it finds [n] again (a negative [n]
    then counts from the end of the list of GPU memories). *)
Theorem integer_gpus_is_one_id (n : Z) :
  gpu_ids_of (GpuInt n) = [str_of_int n]
  /\ int_of_string (str_of_int n) = Ret n.
Proof.
  pose proof (str_of_int_chars n) as Hchars.
  assert (Hstrip : strip (str_of_int n) = str_of_int n).
  { apply strip_plain. eapply all_chars_impl; [|exact Hchars].
    intros c Hc. by destruct (numeral_char_plain c Hc) as [-> _]. }
  split.
  - unfold gpu_ids_of, gpus_string. rewrite Hstrip.
    apply str_split_plain. eapply all_chars_impl; [|exact Hchars].
    intros c Hc. by destruct (numeral_char_plain c Hc) as [_ ->].
  - unfold int_of_string. rewrite Hstrip.
    unfold str_of_int, NilZero.string_of_int.
    destruct n as [|p|p]; cbn [Z.to_int]; [reflexivity| |].
    + pose proof (string_of_uint_unsigned (Pos.to_uint p)) as Hu.
      pose proof (int_of_string_uint p) as Hv.
      destruct (NilZero.string_of_uint (Pos.to_uint p)) as [|c s]; [done|].
      destruct c as [[] [] [] [] [] [] [] []]; try done; by rewrite Hv.
    + by rewrite int_of_string_uint.
Qed.

(** ** The arguments of the trials of a batch *)

(** What [substitute_parameters] returns is a dict of the store it leaves. *)
Lemma substitute_parameters_Ret_allocated md ps h v h' :
  substitute_parameters md ps h = (Ret v, h') ->
  exists a : addr, v = VRef a /\ a < length h'.
Proof.
  intros H. pose proof (substitute_parameters_returns_argument _ _ _ _ _ H) as ->.
  unfold substitute_parameters in H.
  bind_inv_as H pd h1 H1. bind_inv_as H ifs h2 H2.
  bind_inv_as H u1 h3 H3. bind_inv_as H ofs h4 H4.
  bind_inv_as H u2 h5 H5. bind_inv_as H c h6 H6.
  bind_inv_as H u3 h7 H7. bind_inv_as H t h8 H8.
  bind_inv_as H u4 h9 H9. bind_inv_as H p h10 H10.
  bind_inv_as H u5 h11 H11. injection H as <-.
  apply getitem_Ret_inv in H10 as (-> & a & items & -> & Ha & _).
  pose proof (adds_only_set_values p (VStr "preprocessing") pd h9) as G.
  rewrite H11 in G. destruct (G a _ Ha) as (items' & Ha' & _).
  exists a. split; [done|]. by eapply lookup_lt_Some.
Qed.

(** The configuration of a trial is an object allocated for it. *)
Lemma modified_definition_allocated {St} ext md ps (w w' : world St) v :
  modified_definition ext md ps w = (Done v, w') ->
  exists a : addr,
    v = VRef a /\ length (w_heap w) <= a < length (w_heap w').
Proof.
  intros H. pose proof (modified_definition_fresh _ _ _ _ _ _ H) as Hfresh.
  unfold modified_definition in H.
  ebind_inv_as H c w1 Hcopy. unfold lift in H.
  destruct (substitute_parameters c ps (w_heap w1)) as [[v'|e] h2] eqn:Hs;
    [|done].
  injection H as <- <-.
  apply substitute_parameters_Ret_allocated in Hs as (a & -> & Ha).
  exists a. split; [done|]. simpl in *. unfold fresh in Hfresh. lia.
Qed.

(** The arguments of the trials of one batch, given the number [trials] of
    the trials before it: the trial ids, from which the experiment names are
    made, are [trials], [trials + 1], ...; every trial carries the GPUs and the
    limit of the run; the configurations are objects allocated during the
    construction, each trial having its own. *)
Definition batch_arguments (trials : nat) (gpus : option gpus_arg)
    (lim : option num) (sampled : list sample) (h h' : heap)
    (args : list trial_args) : Prop :=
  map ta_trial_id args = seq trials (length sampled)
  /\ Forall (fun a => ta_gpus a = gpus /\ ta_gpu_memory_limit a = lim) args
  /\ Forall (fun a => exists y : addr,
                        ta_model_definition a = VRef y
                        /\ length h <= y < length h') args
  /\ NoDup (map ta_model_definition args).

Lemma batch_arguments_nil trials gpus lim h :
  batch_arguments trials gpus lim [] h h [].
Proof. split_and!; constructor. Qed.

(** One more trial before the others of the batch. *)
Lemma batch_arguments_cons trials gpus lim ps sampled h h1 h' (y : addr) args :
  length h <= y < length h1 ->
  length h1 <= length h' ->
  batch_arguments (S trials) gpus lim sampled h1 h' args ->
  batch_arguments trials gpus lim (ps :: sampled) h h'
    ({| ta_model_definition := VRef y; ta_trial_id := trials;
        ta_gpus := gpus; ta_gpu_memory_limit := lim |} :: args).
Proof.
  intros Hy Hlen (Hids & Hrun & Halloc & Hnodup).
  split_and!.
  - simpl. by rewrite Hids.
  - by constructor.
  - constructor.
    + exists y. split; [done|]. simpl. lia.
    + eapply Forall_impl; [exact Halloc|].
      intros a (z & Hz & Hzr). exists z. split; [done|lia].
  - simpl. constructor; [|done].
    intros Hin. apply list_elem_of_fmap in Hin as (a & Ha & Hin).
    rewrite Forall_forall in Halloc.
    destruct (Halloc a Hin) as (z & Hz & Hzr).
    rewrite Hz in Ha. injection Ha as ->. lia.
Qed.

Section BatchArguments.
Context {St : Type} (ext : externals).

Lemma fiber_arguments_batch md gpus lim trials i sampled (w w' : world St)
    args :
  fiber_arguments ext md gpus lim trials i sampled w = (Done args, w') ->
  length (w_heap w) <= length (w_heap w')
  /\ batch_arguments (trials + i) gpus lim sampled (w_heap w) (w_heap w') args.
Proof.
  revert i w args.
  induction sampled as [|ps rest IH]; intros i w args; simpl.
  - intros [= <- <-]. split; [done|]. apply batch_arguments_nil.
  - intros H. ebind_inv_as H c w1 Hc. ebind_inv_as H others w2 Ho.
    injection H as <- <-.
    apply modified_definition_allocated in Hc as (y & -> & Hy).
    apply IH in Ho as [Hlen Hbatch].
    split; [lia|].
    apply (batch_arguments_cons _ _ _ _ _ _ (w_heap w1)); [done|done|].
    by replace (S (trials + i)) with (trials + S i) by lia.
Qed.

(** The loop of the parallel executor appends the same arguments to its
    list, one trial at a time. *)
Lemma parallel_parameters_batch md gpus lim trials i sampled acc
    (w w' : world St) hps :
  parallel_parameters ext md gpus lim trials i sampled acc w = (Done hps, w') ->
  length (w_heap w) <= length (w_heap w')
  /\ exists new,
       hps = acc ++ new
       /\ map hd_parameters new = sampled
       /\ batch_arguments (trials + i) gpus lim sampled (w_heap w) (w_heap w')
            (map hd_args new).
Proof.
  revert i acc w hps.
  induction sampled as [|ps rest IH]; intros i acc w hps; simpl.
  - intros [= <- <-]. split; [done|]. exists [].
    rewrite app_nil_r. split_and!; try done. apply batch_arguments_nil.
  - intros H. ebind_inv_as H c w1 Hc.
    apply modified_definition_allocated in Hc as (y & -> & Hy).
    apply IH in H as [Hlen (new & -> & Hps & Hbatch)].
    split; [lia|].
    exists ({| hd_parameters := ps;
               hd_args := {| ta_model_definition := VRef y;
                             ta_trial_id := trials + i;
                             ta_gpus := gpus;
                             ta_gpu_memory_limit := lim |} |} :: new).
    split_and!.
    + by rewrite <- app_assoc.
    + simpl. by rewrite Hps.
    + cbn [map hd_args].
      apply (batch_arguments_cons _ _ _ _ _ _ (w_heap w1)); [done|done|].
      by replace (S (trials + i)) with (trials + S i) by lia.
Qed.
End BatchArguments.

(** The trials of one batch, as the parallel and the fiber executor prepare
    them before they hand them to their pool: the trial ids, from which the
    experiment names are made, are consecutive from the number of trials of
    the earlier batches; every trial carries the GPUs and the limit of the
    run; every trial has a configuration of its own, an object allocated
    while the batch was prepared, so that no two trials of a batch share
    one. *)
Theorem batch_trials_are_apart :
  (forall St (ext : externals) (model_definition : val)
          (gpus : option gpus_arg) (lim : option num) (trials : nat)
          (sampled : list sample) (w w' : world St)
          (hps : list hyperopt_dict),
     parallel_parameters ext model_definition gpus lim trials 0 sampled [] w
     = (Done hps, w') ->
     map hd_parameters hps = sampled
     /\ batch_arguments trials gpus lim sampled (w_heap w) (w_heap w')
          (map hd_args hps))
  /\ (forall St (ext : externals) (model_definition : val)
             (gpus : option gpus_arg) (lim : option num) (trials : nat)
             (sampled : list sample) (w w' : world St)
             (args : list trial_args),
        fiber_arguments ext model_definition gpus lim trials 0 sampled w
        = (Done args, w') ->
        batch_arguments trials gpus lim sampled (w_heap w) (w_heap w') args).
Proof.
  split.
  - intros St ext md gpus lim trials sampled w w' hps H.
    apply parallel_parameters_batch in H as [_ (new & -> & Hps & Hbatch)].
    simpl. split; [done|].
    by replace (trials + 0) with trials in Hbatch by lia.
  - intros St ext md gpus lim trials sampled w w' args H.
    apply fiber_arguments_batch in H as [_ Hbatch].
    by replace (trials + 0) with trials in Hbatch by lia.
Qed.

Lemma batch_trials_are_apart_witness :
  batch_arguments 7 None None example_batch example_heap
    (w_heap (fiber_arguments example_ext (VRef 0) None None 7 0 example_batch
               example_world).2)
    [ {| ta_model_definition := VRef 9; ta_trial_id := 7;
         ta_gpus := None; ta_gpu_memory_limit := None |};
      {| ta_model_definition := VRef 20; ta_trial_id := 8;
         ta_gpus := None; ta_gpu_memory_limit := None |} ].
Proof.
  apply (proj2 batch_trials_are_apart nat example_ext (VRef 0) None None 7
           example_batch example_world
           (fiber_arguments example_ext (VRef 0) None None 7 0 example_batch
              example_world).2).
  vm_compute. reflexivity.
Defined.

(** ** The split a trial is evaluated on *)

(** A split name that is neither TRAINING nor TEST is taken for VALIDATION:
    a misspelt [eval_split] is not refused, the trial is evaluated on the
    validation set, with the same result as for VALIDATION itself (the three
    names being different). *)
Theorem unknown_split_is_validation {Model Options Dataset Metadata}
    (ludwig : Trial.api Model Options Dataset Metadata) (h : heap)
    (model_definition : val) (eval_split : string) (options : Options) :
  Trial.VALIDATION ludwig <> Trial.TRAINING ludwig ->
  eval_split <> Trial.TRAINING ludwig ->
  eval_split <> Trial.TEST ludwig ->
  Trial.train_and_eval_on_split ludwig h model_definition eval_split options
  = Trial.train_and_eval_on_split ludwig h model_definition
      (Trial.VALIDATION ludwig) options.
Proof.
  intros Hvt Htr Hte. unfold Trial.train_and_eval_on_split.
  destruct (Trial.LudwigModel ludwig h model_definition options)
    as [model|e]; [|done].
  destruct (Trial.train ludwig model h options)
    as [[train_stats [[[training_set validation_set] test_set] metadata]]|e];
    [|done].
  destruct (Trial.eval_batch_size ludwig model_definition h).1
    as [batch_size|e]; [|done].
  rewrite String.eqb_refl.
  destruct (String.eqb_spec eval_split (Trial.TRAINING ludwig)); [done|].
  destruct (String.eqb_spec (Trial.VALIDATION ludwig) (Trial.TRAINING ludwig));
    [done|].
  destruct (String.eqb_spec eval_split (Trial.VALIDATION ludwig)); [done|].
  by destruct (String.eqb_spec eval_split (Trial.TEST ludwig)).
Qed.

(** A model whose evaluation reports the number of the data set it is given,
    the training set being 1, the validation set 2 and the test set 3; a
    configuration with batch sizes. *)
Definition example_api : Trial.api unit unit Z unit :=
  {| Trial.LudwigModel := fun _ _ _ => Ret tt;
     Trial.train := fun _ _ _ => Ret ([], (1, 2, 3, tt)%Z);
     Trial.evaluate := fun _ _ eval_set _ _ =>
       Ret [("label", [("data set", float_lit (inject_Z eval_set))])];
     Trial.TRAINING := "training";
     Trial.VALIDATION := "validation";
     Trial.TEST := "test" |}.

Definition example_sized : heap :=
  [ ODict [("training", VRef 1)];
    ODict [("batch_size", VInt 128); ("eval_batch_size", VInt 0)] ].

Lemma unknown_split_is_validation_witness :
  Trial.train_and_eval_on_split example_api example_sized (VRef 0) "tset" tt
  = Trial.train_and_eval_on_split example_api example_sized (VRef 0)
      "validation" tt
  /\ Trial.train_and_eval_on_split example_api example_sized (VRef 0)
       "validation" tt
     = Ret ([], [("label", [("data set", float_lit 2)])]).
Proof.
  split; [|by vm_compute].
  by apply (unknown_split_is_validation example_api example_sized (VRef 0)
              "tset" tt).
Defined.

(** ** The GPU ids the set-up checks *)

(** Over-subscribed, the first loop of the set-up reads the memory of every
    listed GPU: when it returns, every listed id is the numeral of an index
    into the list the memory query gave, a negative one counting from its
    end.  With at least as many GPUs as workers the loop looks at no id and
    at no memory: it returns whatever the ids are. *)
Theorem gpu_ids_checked_when_oversubscribed (attrs : ParallelExecutor_attrs)
    (gpu_ids : list string) (lim : option num) (available : list Z) :
  ((Z.of_nat (length gpu_ids) < num_workers attrs)%Z ->
   forall metas id,
     allocate_gpu_ids_meta attrs gpu_ids lim available = Ret metas ->
     In id gpu_ids ->
     exists idx,
       int_of_string id = Ret idx
       /\ (- Z.of_nat (length available) <= idx
           < Z.of_nat (length available))%Z)
  /\ ((num_workers attrs <= Z.of_nat (length gpu_ids))%Z ->
      exists metas,
        allocate_gpu_ids_meta attrs gpu_ids lim available = Ret metas).
Proof.
  split.
  - intros HGW metas id Halloc Hid.
    unfold allocate_gpu_ids_meta in Halloc.
    apply Z.ltb_lt in HGW. rewrite HGW in Halloc.
    destruct (int_truediv _ _) as [quotient|]; [|done].
    apply oversubscribed_loop_lookup in Halloc as [Hin _].
    destruct (Hin id Hid) as [m [Hm _]].
    apply oversubscribed_meta_inv in Hm
      as (idx & A & _ & _ & _ & _ & Hidx & HA & _).
    exists idx. split; [done|].
    unfold list_index in HA.
    destruct (idx <? 0)%Z eqn:Hneg.
    + destruct (idx + Z.of_nat (length available) <? 0)%Z eqn:Hlow;
        [done|].
      destruct (available !! _) as [x|] eqn:Hx; [|done].
      apply lookup_lt_Some in Hx. lia.
    + rewrite Hneg in HA.
      destruct (available !! _) as [x|] eqn:Hx; [|done].
      apply lookup_lt_Some in Hx. lia.
  - intros HGW. unfold allocate_gpu_ids_meta.
    apply Z.ltb_ge in HGW. rewrite HGW. by eexists.
Qed.

Lemma gpu_ids_checked_when_oversubscribed_witness :
  (exists idx,
     int_of_string "-1" = Ret idx
     /\ (- Z.of_nat (length [1000; 2000]%Z) <= idx
         < Z.of_nat (length [1000; 2000]%Z))%Z)
  /\ exists metas,
       allocate_gpu_ids_meta (ParallelExecutor_default 2) ["gpu0"; "7"] None
         [1000; 2000]%Z
       = Ret metas.
Proof.
  split.
  - apply (proj1 (gpu_ids_checked_when_oversubscribed
                    (ParallelExecutor_default 4) ["0"; "-1"] None
                    [1000; 2000]%Z) ltac:(reflexivity)
             [("0", {| meta_gpu_memory_limit := Some (Float (float_lit 90));
                       meta_process_per_gpu := 11 |});
              ("-1", {| meta_gpu_memory_limit := Some (Float (float_lit 580));
                        meta_process_per_gpu := 3 |})] "-1").
    + by vm_compute.
    + simpl. tauto.
  - apply (proj2 (gpu_ids_checked_when_oversubscribed
                    (ParallelExecutor_default 2) ["gpu0"; "7"] None
                    [1000; 2000]%Z)).
    by vm_compute.
Defined.

(** ** What substitution writes *)

Lemma dict_set_keys_elem {V} (k x : string) (v : V) items :
  x ∈ (dict_set k v items).*1 -> x = k \/ x ∈ items.*1.
Proof.
  induction items as [|[k' v'] items IH]; simpl.
  - intros ->%list_elem_of_singleton. by left.
  - destruct (String.eqb_spec k k') as [->|Hne]; simpl; rewrite !elem_of_cons.
    + intros [->|H]; [by left|right; by right].
    + intros [->|H]; [right; by left|].
      destruct (IH H); [by left|right; by right].
Qed.

Lemma dict_set_keys_nodup {V} (k : string) (v : V) items :
  NoDup items.*1 -> NoDup (dict_set k v items).*1.
Proof.
  induction items as [|[k' v'] items IH]; simpl.
  - intros _. apply NoDup_singleton.
  - rewrite NoDup_cons. intros [Hk' Hnd].
    destruct (String.eqb_spec k k') as [->|Hne]; simpl; rewrite NoDup_cons.
    + done.
    + split; [|auto]. by intros [->|H]%dict_set_keys_elem.
Qed.

Lemma dict_get_None_keys {V} (k : string) (items : list (string * V)) :
  k ∉ items.*1 -> dict_get k items = None.
Proof.
  induction items as [|[k' v'] items IH]; simpl; [done|].
  rewrite not_elem_of_cons. intros [Hne H].
  destruct (String.eqb_spec k k'); [done|auto].
Qed.

Lemma dict_get_elem {V} (k : string) (v : V) items :
  NoDup items.*1 -> (k, v) ∈ items -> dict_get k items = Some v.
Proof.
  induction items as [|[k' v'] items IH]; simpl.
  - intros _ H. by apply elem_of_nil in H.
  - rewrite NoDup_cons, elem_of_cons. intros [Hk' Hnd] [[= -> ->]|Hin].
    + by rewrite String.eqb_refl.
    + destruct (String.eqb_spec k k') as [->|Hne]; [|auto].
      exfalso. apply Hk'. apply list_elem_of_fmap. by exists (k', v).
Qed.

(** [target.update(entries)], key by key. *)
Lemma dict_get_update k items entries :
  NoDup entries.*1 ->
  dict_get k (dict_update items entries)
  = match dict_get k entries with
    | Some v => Some v
    | None => dict_get k items
    end.
Proof.
  unfold dict_update. revert items.
  induction entries as [|[k1 v1] entries IH]; intros items; simpl; [done|].
  rewrite NoDup_cons. intros [Hk1 Hnd]. rewrite IH by done.
  destruct (String.eqb_spec k k1) as [->|Hne].
  - rewrite dict_get_None_keys by done. apply dict_get_set_eq.
  - destruct (dict_get k entries); [done|]. by apply dict_get_set_ne.
Qed.

(** Every dict allocated at [n0] or later has each of its keys once. *)
Definition keys_once (n0 : nat) (h : heap) : Prop :=
  forall (a : addr) items,
    n0 <= a -> h !! a = Some (ODict items) -> NoDup items.*1.

Lemma keys_once_alloc n0 h : keys_once n0 h -> keys_once n0 (h ++ [ODict []]).
Proof.
  intros H a items Ha Hl. destruct (decide (a < length h)).
  - rewrite lookup_app_l in Hl by done. by eapply H.
  - rewrite lookup_app_r in Hl by lia.
    destruct (a - length h) as [|d]; simpl in Hl; [|done].
    injection Hl as <-. constructor.
Qed.

Lemma keys_once_setitem n0 c k v h r h' :
  setitem c k v h = (r, h') -> keys_once n0 h -> keys_once n0 h'.
Proof.
  unfold setitem. destruct c as [| | | | |a]; try by intros [= _ <-].
  unfold bind, read.
  destruct (h !! a) as [[items|elems]|] eqn:Ha; try by intros [= _ <-].
  unfold write. intros [= _ <-] H a' items' Hn Hl.
  destruct (decide (a' = a)) as [->|Hne].
  - rewrite list_lookup_insert_eq in Hl by by eapply lookup_lt_Some.
    injection Hl as <-. apply dict_set_keys_nodup. by eapply H.
  - rewrite list_lookup_insert_ne in Hl by done. by eapply H.
Qed.

Lemma keys_once_get_or_new n0 curr k h r h' :
  get_or_new curr k h = (r, h') -> keys_once n0 h -> keys_once n0 h'.
Proof.
  unfold get_or_new. destruct curr as [| | | | |a]; try by intros [= _ <-].
  unfold bind, read.
  destruct (h !! a) as [[items|elems]|]; try by intros [= _ <-].
  unfold alloc.
  destruct (dict_get k items); intros [= _ <-]; apply keys_once_alloc.
Qed.

Lemma keys_once_assign_path n0 path :
  forall curr value h r h',
    assign_path curr path value h = (r, h') ->
    keys_once n0 h -> keys_once n0 h'.
Proof.
  induction path as [|k path IH]; intros curr value h r h'.
  - by intros [= _ <-].
  - destruct path as [|k2 path]; [apply keys_once_setitem|].
    cbn [assign_path]. unfold bind at 1.
    destruct (get_or_new curr k h) as [[name_dict|e] h1] eqn:Hg;
      [|intros [= _ <-]; by eapply keys_once_get_or_new].
    unfold bind at 1.
    destruct (setitem curr k name_dict h1) as [[[]|e] h2] eqn:Hs.
    + intros Hrest Hh. eapply IH; [exact Hrest|].
      eapply keys_once_setitem; [exact Hs|].
      by eapply keys_once_get_or_new.
    + intros [= _ <-] Hh. eapply keys_once_setitem; [exact Hs|].
      by eapply keys_once_get_or_new.
Qed.

Lemma keys_once_for_list n0 (root : val) (ps : sample) :
  forall h r h',
    for_list ps
      (fun '(name, value) =>
         assign_path root (str_split "."%char name) value) h
    = (r, h') ->
    keys_once n0 h -> keys_once n0 h'.
Proof.
  induction ps as [|[name value] ps IH]; intros h r h'; cbn [for_list].
  - by intros [= _ <-].
  - unfold bind.
    destruct (assign_path root (str_split "."%char name) value h)
      as [[[]|e] h1] eqn:Ha.
    + intros Hrest Hh. eapply IH; [exact Hrest|].
      by eapply keys_once_assign_path.
    + intros [= _ <-] Hh. by eapply keys_once_assign_path.
Qed.

Lemma keys_once_get_parameters_dict ps h r h' :
  get_parameters_dict ps h = (r, h') -> keys_once (length h) h'.
Proof.
  unfold get_parameters_dict, bind at 1, alloc.
  assert (H0 : keys_once (length h) (h ++ [ODict []])).
  { apply keys_once_alloc. intros a items Ha Hl.
    apply lookup_lt_Some in Hl. lia. }
  unfold bind.
  destruct (for_list ps _ (h ++ [ODict []])) as [[[]|e] h2] eqn:Hloop;
    intros [= _ <-]; by eapply keys_once_for_list.
Qed.

Lemma entry_of_In (ps : sample) P v :
  In (P, v) (map entry_of ps) ->
  exists name, In (name, v) ps /\ str_split "."%char name = P.
Proof.
  intros Hin. apply in_map_iff in Hin as ([name v'] & [= <- <-] & Hin).
  by exists name.
Qed.

(** [set_values] with an entry that holds no nested mapping updates the
    target with the entry. *)
Lemma set_values_flat (h : heap) (t d p : addr) (name : string)
    (titems ditems params : list (string * val)) :
  h !! t = Some (ODict titems) ->
  h !! d = Some (ODict ditems) ->
  dict_get name ditems = Some (VRef p) ->
  h !! p = Some (ODict params) ->
  t <> p ->
  Forall (fun kv => no_dict h kv.2) params ->
  set_values (VRef t) (VStr name) (VRef d) h
  = (Ret tt, <[t := ODict (dict_update titems params)]> h).
Proof.
  intros Ht Hd Hname Hp Htp Hall.
  unfold set_values, bind, contains, bind.
  rewrite (read_Some _ _ _ Hd). unfold ret.
  rewrite Hname. rewrite bool_decide_eq_true_2 by eauto.
  unfold getitem_val, getitem, bind. rewrite (read_Some _ _ _ Hd).
  rewrite Hname. unfold ret, for_items, bind.
  rewrite (read_Some _ _ _ Hp).
  pose proof (dict_iter_update h t p titems params (length params) 0
                Ht Hp Htp Hall ltac:(lia)) as Hiter.
  cbn [take] in Hiter. unfold dict_update at 1 in Hiter.
  cbn [fold_left] in Hiter.
  rewrite list_insert_id in Hiter by done. exact Hiter.
Qed.

(** A feature: a dict of the store with its name. *)
Definition feature_named (h : heap) (feature : val) (na : string * addr)
  : Prop :=
  feature = VRef na.2
  /\ exists items,
       h !! na.2 = Some (ODict items)
       /\ dict_get NAME items = Some (VStr na.1).

(** A configuration with its two lists of features and its three sections,
    all of them dicts.  [targets] lists, in the order of the calls of
    [set_values], the dict each call writes to with the name it looks up:
    the input features, the output features, then the three sections.  The
    configuration itself is none of them. *)
Definition configuration (h : heap) (model_definition : val)
    (targets : list (string * addr)) : Prop :=
  exists (a li lo c t p : addr) citems ifs ofs tin tout,
    model_definition = VRef a
    /\ h !! a = Some (ODict citems)
    /\ dict_get "input_features" citems = Some (VRef li)
    /\ h !! li = Some (OList ifs)
    /\ Forall2 (feature_named h) ifs tin
    /\ dict_get "output_features" citems = Some (VRef lo)
    /\ h !! lo = Some (OList ofs)
    /\ Forall2 (feature_named h) ofs tout
    /\ dict_get "combiner" citems = Some (VRef c)
    /\ dict_get "training" citems = Some (VRef t)
    /\ dict_get "preprocessing" citems = Some (VRef p)
    /\ Forall (fun x : addr => exists items, h !! x = Some (ODict items))
         [c; t; p]
    /\ targets
       = tin ++ tout
         ++ [("combiner", c); ("training", t); ("preprocessing", p)]
    /\ a ∉ targets.*2.

Section Substituted.
Context (h : heap) (ps : sample) (h1 : heap).
Context (nd : list string -> option addr).
Context (Hinv : sample_inv (length h) (length h) h1 (map entry_of ps) nd).
Context (Hsame : forall x, x < length h -> h1 !! x = h !! x).
Context (Honce : keys_once (length h) h1).

(** The keys of the sample that start with [n] have one more path element
    and a value that is no dict. *)
Definition flat_for (n : string) : Prop :=
  forall name value rest,
    In (name, value) ps ->
    str_split "."%char name = n :: rest ->
    (exists k, rest = [k]) /\ no_dict h value.

Lemma flat_no_leaf n : flat_for n -> leaf_get [n] (map entry_of ps) = None.
Proof.
  intros Hflat. destruct (leaf_get [n] _) as [v|] eqn:Hl; [|done].
  apply leaf_get_Some_In, entry_of_In in Hl as (name & Hin & Hname).
  by destruct (Hflat name v [] Hin Hname) as [[k [=]] _].
Qed.

Lemma flat_no_node n k : flat_for n -> nd [n; k] = None.
Proof.
  intros Hflat. destruct (nd [n; k]) as [b|] eqn:Hb; [|done]. exfalso.
  destruct Hinv as (_ & _ & Hleads & _).
  destruct (Hleads [n; k]) as [?|(P & v & s & Hin & Hs & ->)];
    [congruence|done|].
  apply entry_of_In in Hin as (name & Hin & Hname).
  destruct (Hflat name v (k :: s) Hin Hname) as [[k' [= _ Hs']] _]. done.
Qed.

(** The dict [a], looked up under the name [n], once the sample is written
    to it: the keys "n.k" of the sample have the sample's value, the other
    keys are as in [h]. *)
Definition written (n : string) (a : addr) (hc : heap) : Prop :=
  exists items items',
    h !! a = Some (ODict items)
    /\ hc !! a = Some (ODict items')
    /\ forall k,
         dict_get k items'
         = match leaf_get [n; k] (map entry_of ps) with
           | Some v => Some v
           | None => dict_get k items
           end.

(** The store after the calls of [set_values] for [done]. *)
Definition substituted (done : list (string * addr)) (hc : heap) : Prop :=
  Forall (fun na => written na.1 na.2 hc) done
  /\ (forall x : addr, x < length h -> x ∉ done.*2 -> hc !! x = h !! x)
  /\ (forall x : addr, length h <= x -> hc !! x = h1 !! x).

Lemma substituted_start : substituted [] h1.
Proof. split_and!; [constructor| |done]. intros x Hx _. by apply Hsame. Qed.

Lemma substituted_list done hc (x : addr) elems :
  substituted done hc ->
  h !! x = Some (OList elems) -> hc !! x = Some (OList elems).
Proof.
  intros (Hdone & Hframe & _) Hx.
  rewrite Hframe; [done|by eapply lookup_lt_Some|].
  intros Hin. apply list_elem_of_fmap in Hin as ([n a] & -> & Hin).
  rewrite Forall_forall in Hdone.
  destruct (Hdone _ Hin) as (items & ? & Ha & _). simpl in Ha, Hx.
  rewrite Hx in Ha. discriminate Ha.
Qed.

Lemma substituted_no_dict done hc v :
  substituted done hc -> no_dict h v -> no_dict hc v.
Proof.
  intros Hs. destruct v as [| | | | |x]; try done.
  intros [elems Hx]. exists elems. by eapply substituted_list.
Qed.

Lemma set_values_target done hc n (a : addr) items :
  flat_for n ->
  substituted done hc ->
  a ∉ done.*2 ->
  h !! a = Some (ODict items) ->
  exists hc',
    set_values (VRef a) (VStr n) (VRef (length h)) hc = (Ret tt, hc')
    /\ substituted (done ++ [(n, a)]) hc'.
Proof.
  intros Hflat Hsub Ha Hitems.
  pose proof Hsub as (Hdone & Hframe & Hfresh).
  pose proof Hinv as (Htrie & Hroot & Hleads & Hnew & _).
  pose proof Htrie as (Hnode & _ & _ & Hnoleaf & _).
  assert (Halt : a < length h) by by eapply lookup_lt_Some.
  assert (Hca : hc !! a = Some (ODict items)) by by rewrite Hframe.
  destruct (Hnode [] _ Hroot) as (ritems & Hr & Hritems).
  assert (Hcr : hc !! length h = Some (ODict ritems)) by by rewrite Hfresh.
  specialize (Hritems n). simpl in Hritems.
  rewrite (flat_no_leaf n Hflat) in Hritems.
  destruct (nd [n]) as [b|] eqn:Hb; simpl in Hritems.
  - destruct (Hnode [n] b Hb) as (bitems & Hbh & Hbitems).
    assert (Hbge : length h <= b) by by eapply Hnew.
    assert (Hcb : hc !! b = Some (ODict bitems)) by by rewrite Hfresh.
    assert (Hkeys : forall k,
              dict_get k bitems = leaf_get [n; k] (map entry_of ps)).
    { intros k. rewrite Hbitems. simpl. rewrite (flat_no_node n k Hflat).
      by destruct (leaf_get _ _). }
    assert (Hnodup : NoDup bitems.*1) by by eapply Honce.
    assert (Hall : Forall (fun kv => no_dict hc kv.2) bitems).
    { apply Forall_forall. intros [k v] Hin. simpl.
      apply (dict_get_elem _ _ _ Hnodup) in Hin. rewrite Hkeys in Hin.
      apply leaf_get_Some_In, entry_of_In in Hin as (name & Hin & Hname).
      destruct (Hflat name v [k] Hin Hname) as [_ Hv].
      by eapply substituted_no_dict. }
    exists (<[a := ODict (dict_update items bitems)]> hc). split.
    { apply (set_values_flat hc a (length h) b n items ritems bitems);
        try done. lia. }
    split_and!.
    + apply Forall_app. split.
      * apply Forall_forall. intros [n' a'] Hin.
        rewrite Forall_forall in Hdone.
        destruct (Hdone _ Hin) as (it & it' & H1 & H2 & H3).
        exists it, it'. split_and!; [done| |done].
        simpl in *. rewrite list_lookup_insert_ne; [done|].
        intros ->. apply Ha. apply list_elem_of_fmap. by exists (n', a').
      * constructor; [|constructor].
        exists items, (dict_update items bitems). split_and!; [done| |].
        -- simpl. apply list_lookup_insert_eq. by eapply lookup_lt_Some.
        -- intros k. cbn [fst]. rewrite dict_get_update by done.
           by rewrite Hkeys.
    + intros x Hx Hnin. rewrite fmap_app, not_elem_of_app in Hnin.
      destruct Hnin as [Hn1 Hn2].
      rewrite list_lookup_insert_ne; [by apply Hframe|].
      intros ->. apply Hn2. simpl. by apply list_elem_of_singleton.
    + intros x Hx. rewrite list_lookup_insert_ne by lia. by apply Hfresh.
  - exists hc. split; [by apply (set_values_absent _ (length h) n ritems)|].
    split_and!.
    + apply Forall_app. split; [done|]. constructor; [|constructor].
      exists items, items. split_and!; [done|done|].
      intros k. cbn [fst].
      destruct (leaf_get [n; k] (map entry_of ps)) as [v|] eqn:Hl; [|done].
      exfalso. assert (nd [n] <> None); [|congruence].
      apply (trie_inv_prefix_inner h1 (map entry_of ps) nd [n] [k]);
        [done|done|]. simpl. congruence.
    + intros x Hx Hnin. apply Hframe; [done|].
      rewrite fmap_app, not_elem_of_app in Hnin. tauto.
    + done.
Qed.

Lemma for_features_written feats tn :
  Forall2 (feature_named h) feats tn ->
  Forall flat_for tn.*1 ->
  forall done hc,
    NoDup (done.*2 ++ tn.*2) ->
    substituted done hc ->
    exists hc',
      for_list feats (fun feature =>
        name <- getitem feature NAME ;;
        set_values feature name (VRef (length h))) hc
      = (Ret tt, hc')
      /\ substituted (done ++ tn) hc'.
Proof.
  induction 1 as [|f [n a] feats tn [Hf (items & Ha & Hname)] Hrest IH];
    intros Hflat done hc Hnd Hsub.
  - exists hc. by rewrite app_nil_r.
  - simpl in *. subst f. apply Forall_cons in Hflat as [Hn Hflat].
    assert (Hna : a ∉ done.*2).
    { apply NoDup_app in Hnd as (_ & Hdisj & _). intros Hin.
      apply (Hdisj a Hin). left. }
    assert (Hca : hc !! a = Some (ODict items)).
    { destruct Hsub as (_ & Hframe & _). rewrite Hframe; [done| |done].
      by eapply lookup_lt_Some. }
    unfold bind at 1, bind at 1.
    rewrite (getitem_Some a NAME items (VStr n) hc Hca Hname).
    destruct (set_values_target done hc n a items Hn Hsub Hna Ha)
      as (hc1 & Hrun & Hsub1).
    rewrite Hrun.
    destruct (IH Hflat (done ++ [(n, a)]) hc1) as (hc' & Hloop & Hsub');
      [|done|].
    { rewrite fmap_app. simpl. by rewrite <- app_assoc. }
    exists hc'. split; [done|]. by rewrite <- app_assoc in Hsub'.
Qed.

End Substituted.


(** The features and sections of the example configuration, and a sample for
    its training section and its input feature. *)
Definition example_targets : list (string * addr) :=
  [("text", 2); ("label", 4); ("combiner", 5); ("training", 6);
   ("preprocessing", 7)].

Definition example_flat_sample : sample :=
  [("training.learning_rate", VFloat 0.001%Q); ("text.encoder", VStr "cnn")].


